(** * Home-loan calculator ([src/home_loan.py]): amortization engine

    A shallow embedding of the computational part of the Streamlit script:
    [validate_inputs] (lines 13-37), the script body from the widgets to
    the amortization schedule (lines 48-153, with the handlers of lines
    195-200) and the comparison with renting (lines 171-193).  Python numbers are modelled as they are at run time: an [int]
    is an unbounded integer, a [float] is an IEEE-754 binary64 value, and
    mixed arithmetic converts the [int] operand first.

    Binary64 is written out over [Z]: every finite double is an integer
    multiple of 2^-1074, so a finite value is stored as that integer and an
    operation rounds the exact result to the nearest representable value,
    ties to even.  The examples at the start of the proof part compare these
    operations with Rocq's primitive (hardware) floats. *)

From Stdlib Require Import ZArith Bool List String Lia.
From Stdlib Require Import Floats Uint63.
Import ListNotations.
Local Open Scope Z_scope.

(** ** Binary64 arithmetic *)

Module F64.

(** [Fin k] is the double [k * 2^-1074]; [Fin 0] is [+0.0] and [NZero] is
    [-0.0]. *)
Inductive f64 : Type :=
| NaN
| PInf
| NInf
| NZero
| Fin (k : Z).

(** 1.0 counted in units of 2^-1074. *)
Definition one_units : Z := Eval vm_compute in 2 ^ 1074.

(** The largest finite double, (2^53 - 1) * 2^971, in units. *)
Definition max_units : Z := Eval vm_compute in (2 ^ 53 - 1) * 2 ^ 2045.

Definition units (x : f64) : Z :=
  match x with
  | Fin k => k
  | _ => 0
  end.

Definition is_nan (x : f64) : bool :=
  match x with
  | NaN => true
  | _ => false
  end.

Definition is_inf (x : f64) : bool :=
  match x with
  | PInf | NInf => true
  | _ => false
  end.

Definition is_finite (x : f64) : bool :=
  match x with
  | NZero | Fin _ => true
  | _ => false
  end.

Definition signbit (x : f64) : bool :=
  match x with
  | NInf | NZero => true
  | Fin k => k <? 0
  | _ => false
  end.

Definition inf (neg : bool) : f64 := if neg then NInf else PInf.

Definition zero (neg : bool) : f64 := if neg then NZero else Fin 0.

(** IEEE comparison: [None] when an operand is a NaN. *)
Definition compare (x y : f64) : option comparison :=
  match x, y with
  | NaN, _ | _, NaN => None
  | PInf, PInf | NInf, NInf => Some Eq
  | PInf, _ | _, NInf => Some Gt
  | NInf, _ | _, PInf => Some Lt
  | _, _ => Some (units x ?= units y)
  end.

Definition ltb (x y : f64) : bool :=
  match compare x y with
  | Some Lt => true
  | _ => false
  end.

Definition leb (x y : f64) : bool :=
  match compare x y with
  | Some Lt | Some Eq => true
  | _ => false
  end.

Definition eqb (x y : f64) : bool :=
  match compare x y with
  | Some Eq => true
  | _ => false
  end.

(** Nearest integer to [n / d], ties to even ([0 <= n], [0 < d]). *)
Definition rne_div (n d : Z) : Z :=
  let (q, r) := Z.div_eucl n d in
  match 2 * r ?= d with
  | Lt => q
  | Gt => q + 1
  | Eq => if Z.even q then q else q + 1
  end.

(** Binary logarithm of the spacing of the doubles around [n / d] units:
    0 up to 2^53 units (subnormals and the first binades), then one more per
    binade. *)
Definition ulp_exp (n d : Z) : Z := Z.max 0 (Z.log2 (n / d) - 52).

(** [n / d] units rounded to a multiple of the spacing. *)
Definition round_mag (n d : Z) : Z :=
  let e := ulp_exp n d in
  Z.shiftl (rne_div n (Z.shiftl d e)) e.

(** A sign and a rounded magnitude as a double; overflow gives an infinity. *)
Definition pack (neg : bool) (k : Z) : f64 :=
  if max_units <? k then inf neg
  else if k =? 0 then zero neg
  else Fin (if neg then - k else k).

(** The double nearest to [n / d] units, with sign [neg]. *)
Definition round (neg : bool) (n d : Z) : f64 := pack neg (round_mag n d).

Definition opp (x : f64) : f64 :=
  match x with
  | NaN => NaN
  | PInf => NInf
  | NInf => PInf
  | NZero => Fin 0
  | Fin 0 => NZero
  | Fin k => Fin (- k)
  end.

Definition add (x y : f64) : f64 :=
  match x, y with
  | NaN, _ | _, NaN => NaN
  | PInf, NInf | NInf, PInf => NaN
  | PInf, _ | _, PInf => PInf
  | NInf, _ | _, NInf => NInf
  | NZero, NZero => NZero
  | _, _ => let s := units x + units y in round (s <? 0) (Z.abs s) 1
  end.

Definition sub (x y : f64) : f64 := add x (opp y).

Definition mul (x y : f64) : f64 :=
  let s := xorb (signbit x) (signbit y) in
  match x, y with
  | NaN, _ | _, NaN => NaN
  | (PInf | NInf), (PInf | NInf) => inf s
  | (PInf | NInf), f | f, (PInf | NInf) =>
      if units f =? 0 then NaN else inf s
  | _, _ => round s (Z.abs (units x) * Z.abs (units y)) one_units
  end.

(** IEEE division; Python never reaches the zero-divisor cases, it raises
    ZeroDivisionError before. *)
Definition div (x y : f64) : f64 :=
  let s := xorb (signbit x) (signbit y) in
  match x, y with
  | NaN, _ | _, NaN => NaN
  | (PInf | NInf), (PInf | NInf) => NaN
  | (PInf | NInf), _ => inf s
  | _, (PInf | NInf) => zero s
  | _, _ =>
      if units y =? 0 then (if units x =? 0 then NaN else inf s)
      else round s (Z.abs (units x) * one_units) (Z.abs (units y))
  end.

(** The double nearest to the integer [z] (an infinity when [z] is too
    large). *)
Definition of_Z (z : Z) : f64 := round (z <? 0) (Z.abs z * one_units) 1.

(** The double nearest to the quotient [a / b] of two integers, [b <> 0]. *)
Definition of_quot (a b : Z) : f64 :=
  round (xorb (a <? 0) (b <? 0)) (Z.abs a * one_units) (Z.abs b).

(** [m * 2^e], for writing literals: 8.75 is [dyadic 35 (-2)]. *)
Definition dyadic (m e : Z) : f64 :=
  round (m <? 0) (Z.shiftl (Z.abs m) (e + 1074)) 1.

(** Smallest integer not below a finite double. *)
Definition ceil (x : f64) : Z := - ((- units x) / one_units).

(** [x] is an integer: its value as an integer. *)
Definition integral (x : f64) : option Z :=
  match x with
  | NZero => Some 0
  | Fin k => if k mod one_units =? 0 then Some (k / one_units) else None
  | _ => None
  end.

(** The primitive float [f] in this representation. *)
Definition of_prim (f : PrimFloat.float) : f64 :=
  match Prim2SF f with
  | S754_zero s => zero s
  | S754_infinity s => inf s
  | S754_nan => NaN
  | S754_finite s m e =>
      let k := Z.shiftl (Z.pos m) (e + 1074) in
      Fin (if s then - k else k)
  end.

End F64.

Import F64.

(** ** Python numbers and exceptions *)

(** A Python number at run time. *)
Inductive pynum : Type :=
| PyInt (z : Z)
| PyFloat (x : f64).

(** The built-in exceptions the script can meet. *)
Inductive exn : Type :=
| OverflowError
| ZeroDivisionError
| ValueError
| TypeError.

(** The result of evaluating an expression. *)
Inductive res (A : Type) : Type :=
| Ok (a : A)
| Raise (e : exn).

Arguments Ok {A} a.
Arguments Raise {A} e.

Definition res_bind {A B : Type} (r : res A) (k : A -> res B) : res B :=
  match r with
  | Ok a => k a
  | Raise e => Raise e
  end.

Declare Scope res_scope.
Delimit Scope res_scope with res.
Notation "x <- e ;; k" := (res_bind e (fun x => k))
  (at level 61, e at next level, right associativity) : res_scope.
Notation "' pat <- e ;; k" := (res_bind e (fun x => match x with pat => k end))
  (at level 61, pat pattern, e at next level, right associativity) : res_scope.

(** The exact value of an [int], for comparisons with a [float] (Python
    compares the two without rounding the [int]). *)
Definition exact (v : pynum) : f64 :=
  match v with
  | PyInt z => Fin (z * one_units)
  | PyFloat x => x
  end.

Definition py_compare (a b : pynum) : option comparison :=
  match a, b with
  | PyInt x, PyInt y => Some (x ?= y)
  | _, _ => F64.compare (exact a) (exact b)
  end.

(** [a < b], [a <= b], [a > b] and [a == b]. *)
Definition py_lt (a b : pynum) : bool :=
  match py_compare a b with
  | Some Lt => true
  | _ => false
  end.

Definition py_le (a b : pynum) : bool :=
  match py_compare a b with
  | Some Lt | Some Eq => true
  | _ => false
  end.

Definition py_gt (a b : pynum) : bool :=
  match py_compare a b with
  | Some Gt => true
  | _ => false
  end.

Definition py_eq (a b : pynum) : bool :=
  match py_compare a b with
  | Some Eq => true
  | _ => false
  end.

(** [float(v)]: an [int] is rounded to the nearest double, and
    OverflowError is raised when it is too large. *)
Definition to_float (v : pynum) : res f64 :=
  match v with
  | PyFloat x => Ok x
  | PyInt z =>
      let x := F64.of_Z z in
      if F64.is_finite x then Ok x else Raise OverflowError
  end.

(** [+], [-] and [*]: [int] arithmetic on two [int]s, otherwise both
    operands as doubles.  Double arithmetic overflows to an infinity without
    raising. *)
Definition py_arith (iop : Z -> Z -> Z) (fop : f64 -> f64 -> f64)
    (a b : pynum) : res pynum :=
  match a, b with
  | PyInt x, PyInt y => Ok (PyInt (iop x y))
  | _, _ =>
      (x <- to_float a ;;
       y <- to_float b ;;
       Ok (PyFloat (fop x y)))%res
  end.

Definition py_add : pynum -> pynum -> res pynum := py_arith Z.add F64.add.
Definition py_sub : pynum -> pynum -> res pynum := py_arith Z.sub F64.sub.
Definition py_mul : pynum -> pynum -> res pynum := py_arith Z.mul F64.mul.

(** [a / b]: always a [float].  Two [int]s give the correctly rounded
    quotient; a zero divisor raises ZeroDivisionError. *)
Definition py_truediv (a b : pynum) : res pynum :=
  match a, b with
  | PyInt x, PyInt y =>
      if y =? 0 then Raise ZeroDivisionError
      else
        let q := F64.of_quot x y in
        if F64.is_finite q then Ok (PyFloat q) else Raise OverflowError
  | _, _ =>
      (x <- to_float a ;;
       y <- to_float b ;;
       if F64.eqb y (Fin 0) then Raise ZeroDivisionError
       else Ok (PyFloat (F64.div x y)))%res
  end.

(** [math.isfinite(v)]. *)
Definition math_isfinite (v : pynum) : res bool :=
  (x <- to_float v ;; Ok (F64.is_finite x))%res.

(** [math.ceil(v)]: an [int]; OverflowError on an infinity, ValueError on a
    NaN. *)
Definition math_ceil (v : pynum) : res pynum :=
  match v with
  | PyInt z => Ok (PyInt z)
  | PyFloat NaN => Raise ValueError
  | PyFloat PInf | PyFloat NInf => Raise OverflowError
  | PyFloat x => Ok (PyInt (F64.ceil x))
  end.

(** [max(a, b)] of two arguments: the first one unless the second is
    greater. *)
Definition py_max (a b : pynum) : pynum := if py_gt b a then b else a.

(** [sum(vs)]: starts from the [int] 0 and adds from the left. *)
Definition py_sum (vs : list pynum) : res pynum :=
  fold_left (fun acc v => (a <- acc ;; py_add a v)%res) vs (Ok (PyInt 0)).

(** *** A power function for evaluation

    [float ** int] calls the C library's [pow], whose last bit is not fixed
    by any standard; the script below therefore takes the power function as
    a parameter.  [pow_integral] is the correctly rounded power for integral
    exponents, with Python's error cases (OverflowError when a finite power
    overflows, ZeroDivisionError for a zero raised to a negative power); it
    is used to run the script on concrete inputs. *)

(** The odd part of [p] and its number of trailing zero bits. *)
Fixpoint pos_split (p : positive) : positive * Z :=
  match p with
  | xO q => let (m, j) := pos_split q in (m, j + 1)
  | _ => (p, 0)
  end.

(** [ (k * 2^-1074) ^ n ] in units as a fraction, [0 < n]. *)
Definition pow_units (k : positive) (n : Z) : Z * Z :=
  let (m, j) := pos_split k in
  let t := n * (j - 1074) + 1074 in
  if 0 <=? t then (Z.shiftl (Z.pos m ^ n) t, 1)
  else (Z.pos m ^ n, Z.shiftl 1 (- t)).

Definition pow_integral (x y : f64) : res f64 :=
  match F64.integral y with
  | None => Raise ValueError
  | Some 0 => Ok (Fin one_units)
  | Some n =>
      let neg := F64.signbit x && Z.odd n in
      match x with
      | NaN => Ok NaN
      | PInf | NInf => Ok (if 0 <? n then F64.inf neg else F64.zero neg)
      | NZero | Fin 0 =>
          if 0 <? n then Ok (F64.zero neg) else Raise ZeroDivisionError
      | Fin (Z.pos k) | Fin (Z.neg k) =>
          let (a, b) := pow_units k (Z.abs n) in
          let v := if 0 <? n then F64.round neg a b
                   else F64.round neg (b * one_units * one_units) a in
          if F64.is_finite v then Ok v else Raise OverflowError
      end
  end.

(** ** The script: effects *)

(** What the script shows: [st.error] with a fixed message, [st.error] with
    a message that ends in [str(e)], and [st.metric] (the value is kept as
    the number that the f-string formats). *)
Inductive ui : Type :=
| st_error (msg : string)
| st_error_exn (msg : string) (e : exn)
| st_metric (label : string) (value : pynum).

(** How a block of statements ends: normally, by an exception, or by
    [st.stop()] (which no [except Exception] clause catches). *)
Inductive flow (A : Type) : Type :=
| Next (a : A)
| Throw (e : exn)
| Stopped.

Arguments Next {A} a.
Arguments Throw {A} e.
Arguments Stopped {A}.

(** A block of statements: what it showed and how it ended. *)
Definition script (A : Type) : Type := (list ui * flow A)%type.

Definition ret {A : Type} (a : A) : script A := ([], Next a).

Definition bind {A B : Type} (m : script A) (k : A -> script B) : script B :=
  match m with
  | (shown, Next a) => let (shown', f) := k a in (shown ++ shown', f)
  | (shown, Throw e) => (shown, Throw e)
  | (shown, Stopped) => (shown, Stopped)
  end.

Declare Scope script_scope.
Delimit Scope script_scope with script.
Notation "x <- e ;; k" := (bind e (fun x => k))
  (at level 61, e at next level, right associativity) : script_scope.
Notation "e ;; k" := (bind e (fun _ => k))
  (at level 61, right associativity) : script_scope.

Definition show (u : ui) : script unit := ([u], Next tt).

Definition st_stop {A : Type} : script A := ([], Stopped).

(** An expression evaluated as a statement. *)
Definition eval {A : Type} (r : res A) : script A :=
  match r with
  | Ok a => ret a
  | Raise e => ([], Throw e)
  end.

(** [try: m  except <the exceptions matching catches>: handler]. *)
Definition try_except {A : Type} (m : script A) (catches : exn -> bool)
    (handler : exn -> script A) : script A :=
  match m with
  | (shown, Throw e) =>
      if catches e then let (shown', f) := handler e in (shown ++ shown', f)
      else (shown, Throw e)
  | _ => m
  end.

Definition is_overflow (e : exn) : bool :=
  match e with
  | OverflowError => true
  | _ => false
  end.

Definition any_exception (e : exn) : bool := true.

(** ** [validate_inputs] (lines 13-37) *)

Definition msg_home_value : string := "Home value must be greater than 0".
Definition msg_deposit_negative : string := "Deposit cannot be negative".
Definition msg_deposit_exceeds : string := "Deposit cannot exceed home value".
Definition msg_interest_rate : string := "Interest rate must be greater than 0".
Definition msg_loan_term : string := "Loan term must be at least 1 year".
Definition msg_processing_fees : string := "Processing fees cannot be negative".
Definition msg_prepayment : string := "Prepayment cannot be negative".

(** [if cond: errors.append(msg)]. *)
Definition append_if (cond : bool) (msg : string) (errors : list string)
  : list string :=
  if cond then errors ++ [msg] else errors.

Definition validate_inputs
    (home_value deposit interest_rate loan_term processing_fees
       prepayment : pynum) : list string :=
  let errors := [] in
  let errors := append_if (py_le home_value (PyInt 0)) msg_home_value errors in
  let errors := append_if (py_lt deposit (PyInt 0)) msg_deposit_negative errors in
  let errors := append_if (py_gt deposit home_value) msg_deposit_exceeds errors in
  let errors := append_if (py_le interest_rate (PyInt 0)) msg_interest_rate errors in
  let errors := append_if (py_le loan_term (PyInt 0)) msg_loan_term errors in
  let errors := append_if (py_lt processing_fees (PyInt 0)) msg_processing_fees errors in
  let errors := append_if (py_lt prepayment (PyInt 0)) msg_prepayment errors in
  errors.

(** ** The script body (lines 48-153) *)

Definition msg_loan_amount : string :=
  "Loan amount must be greater than 0. Reduce your deposit amount.".
Definition msg_rate_overflow : string :=
  "Interest rate calculation resulted in overflow. Please try different values.".
Definition msg_invalid_payment : string :=
  "Invalid monthly payment calculation. Please check your input values.".
Definition msg_schedule_error : string :=
  "Error calculating amortization schedule: ".
Definition msg_zero_division : string :=
  "Division by zero error occurred. Please check your input values.".
Definition msg_overflow : string :=
  "Numerical overflow occurred. Please try smaller values.".
Definition msg_unexpected : string := "An unexpected error occurred: ".

(** The choice of the "Prepayment Frequency" radio button. *)
Inductive frequency : Type :=
| Yearly
| Monthly.

(** What the widgets return.  The integer widgets ([min_value] and [value]
    are [int]s) return [int]s, the interest-rate widget a [float]. *)
Record inputs : Type := {
  home_value : Z;
  deposit : Z;
  interest_rate : f64;
  loan_term : Z;
  processing_fees : Z;
  prepayment : Z;
  prepayment_frequency : frequency
}.

(** A row of [schedule]: [[i, monthly_payment, principal_payment,
    interest_payment, max(remaining_balance, 0), year]]. *)
Record entry : Type := {
  month : Z;
  payment : pynum;
  principal : pynum;
  interest : pynum;
  balance : pynum;
  year : pynum
}.

(** The variables that the schedule loop updates. *)
Record loop_vars : Type := {
  remaining_balance : pynum;
  monthly_payment : pynum;
  schedule : list entry
}.

(** The variables of the script once the schedule is built. *)
Record report : Type := {
  loan_amount : pynum;
  number_of_payments : pynum;
  prepayment_amount : pynum;
  total_payments : pynum;
  total_interest : pynum;
  final : loop_vars
}.

Section Script.

(** Python's [float.__pow__] on two doubles (the C library's [pow] and
    Python's error checks around it). *)
Variable float_pow : f64 -> f64 -> res f64.

(** [a ** b]: an [int] for two [int]s with [0 <= b], otherwise both
    operands as doubles. *)
Definition py_pow (a b : pynum) : res pynum :=
  let as_floats :=
    (x <- to_float a ;; y <- to_float b ;; v <- float_pow x y ;;
     Ok (PyFloat v))%res in
  match a, b with
  | PyInt x, PyInt n => if 0 <=? n then Ok (PyInt (x ^ n)) else as_floats
  | _, _ => as_floats
  end.

(** Lines 80-84: the annuity formula. *)
Definition annuity (loan_amount monthly_interest_rate number_of_payments : pynum)
  : res pynum :=
  (g <- py_add (PyInt 1) monthly_interest_rate ;;
   p <- py_pow g number_of_payments ;;
   t <- py_mul monthly_interest_rate p ;;
   num <- py_mul loan_amount t ;;
   g' <- py_add (PyInt 1) monthly_interest_rate ;;
   p' <- py_pow g' number_of_payments ;;
   den <- py_sub p' (PyInt 1) ;;
   py_truediv num den)%res.

(** Lines 75-91: the monthly payment, with its two guards. *)
Definition compute_monthly_payment
    (loan_amount monthly_interest_rate number_of_payments : pynum)
  : script pynum :=
  (monthly_payment <-
     (if py_eq monthly_interest_rate (PyInt 0)
      then eval (py_truediv loan_amount number_of_payments)
      else try_except
             (eval (annuity loan_amount monthly_interest_rate number_of_payments))
             is_overflow
             (fun _ => show (st_error msg_rate_overflow) ;; st_stop)) ;;
   finite <- eval (math_isfinite monthly_payment) ;;
   if negb finite
   then show (st_error msg_invalid_payment) ;; st_stop
   else ret monthly_payment)%script.

(** Lines 93-100: the per-period prepayment (never read afterwards). *)
Definition adjust_prepayment (prepayment : pynum) (f : frequency)
  : res pynum :=
  if py_gt prepayment (PyInt 0)
  then match f with
       | Yearly => py_truediv prepayment (PyInt 12)
       | Monthly => Ok prepayment
       end
  else Ok (PyInt 0).

(** Lines 119-124: the interest of month [i] and the principal before the
    clamp. *)
Definition accrue (monthly_interest_rate prepayment : pynum) (i : Z)
    (v : loop_vars) : res (pynum * pynum) :=
  (interest_payment <- py_mul (remaining_balance v) monthly_interest_rate ;;
   principal_payment <- py_sub (monthly_payment v) interest_payment ;;
   principal_payment <-
     (if py_gt prepayment (PyInt 0) && (i mod 12 =? 0)
      then py_add principal_payment prepayment
      else Ok principal_payment) ;;
   Ok (interest_payment, principal_payment))%res.

(** Lines 119-144: one iteration of the schedule loop, for month [i].  The
    boolean is the [break] test. *)
Definition month_step (monthly_interest_rate prepayment : pynum) (i : Z)
    (v : loop_vars) : res (loop_vars * bool) :=
  ('(interest_payment, principal_payment) <-
     accrue monthly_interest_rate prepayment i v ;;
   '(principal_payment, monthly_payment') <-
     (if py_gt principal_payment (remaining_balance v)
      then (m <- py_add (remaining_balance v) interest_payment ;;
            Ok (remaining_balance v, m))
      else Ok (principal_payment, monthly_payment v)) ;;
   remaining_balance' <- py_sub (remaining_balance v) principal_payment ;;
   q <- py_truediv (PyInt i) (PyInt 12) ;;
   year <- math_ceil q ;;
   let row := {| month := i;
                 payment := monthly_payment';
                 principal := principal_payment;
                 interest := interest_payment;
                 balance := py_max remaining_balance' (PyInt 0);
                 year := year |} in
   Ok ({| remaining_balance := remaining_balance';
          monthly_payment := monthly_payment';
          schedule := schedule v ++ [row] |},
       py_le remaining_balance' (PyInt 0)))%res.

(** Lines 117-148: [for i in range(i, i + todo)], each iteration inside
    [try ... except Exception]. *)
Fixpoint schedule_loop (monthly_interest_rate prepayment : pynum)
    (todo : nat) (i : Z) (v : loop_vars) : script loop_vars :=
  match todo with
  | O => ret v
  | S todo' =>
      match month_step monthly_interest_rate prepayment i v with
      | Raise e => (show (st_error_exn msg_schedule_error e) ;; st_stop)%script
      | Ok (v', true) => ret v'
      | Ok (v', false) =>
          schedule_loop monthly_interest_rate prepayment todo' (i + 1) v'
      end
  end.

(** [range(1, n + 1)] needs an [int]; its number of iterations. *)
Definition range_count (n : pynum) : res nat :=
  match n with
  | PyInt z => Ok (Z.to_nat z)
  | PyFloat _ => Raise TypeError
  end.

(** Lines 57-59: [validate_inputs] called on the widgets' values. *)
Definition validation_errors (w : inputs) : list string :=
  validate_inputs (PyInt (home_value w)) (PyInt (deposit w))
    (PyFloat (interest_rate w)) (PyInt (loan_term w))
    (PyInt (processing_fees w)) (PyInt (prepayment w)).

(** Lines 56-73: the validation gate, the loan-amount guard and the loan
    details [(loan_amount, monthly_interest_rate, number_of_payments)]. *)
Definition loan_details (w : inputs) : script (pynum * pynum * pynum) :=
  ((match validation_errors w with
    | [] => ret tt
    | errors => (map st_error errors, Stopped)
    end) ;;
   loan_amount <- eval (py_sub (PyInt (home_value w)) (PyInt (deposit w))) ;;
   (if py_le loan_amount (PyInt 0)
    then show (st_error msg_loan_amount) ;; st_stop
    else ret tt) ;;
   rate <- eval (py_truediv (PyFloat (interest_rate w)) (PyInt 100)) ;;
   monthly_interest_rate <- eval (py_truediv rate (PyInt 12)) ;;
   number_of_payments <- eval (py_mul (PyInt (loan_term w)) (PyInt 12)) ;;
   ret (loan_amount, monthly_interest_rate, number_of_payments))%script.

(** Lines 48-153, inside the outer [try]. *)
Definition body (w : inputs) : script report :=
  (details <- loan_details w ;;
   let '(loan_amount, monthly_interest_rate, number_of_payments) := details in
   monthly_payment <-
     compute_monthly_payment loan_amount monthly_interest_rate
       number_of_payments ;;
   prepayment_amount <-
     eval (adjust_prepayment (PyInt (prepayment w)) (prepayment_frequency w)) ;;
   total_payments <- eval (py_mul monthly_payment number_of_payments) ;;
   total_interest <- eval (py_sub total_payments loan_amount) ;;
   show (st_metric "Monthly Repayments" monthly_payment) ;;
   show (st_metric "Total Repayments" total_payments) ;;
   show (st_metric "Total Interest" total_interest) ;;
   count <- eval (range_count number_of_payments) ;;
   vars <-
     schedule_loop monthly_interest_rate (PyInt (prepayment w)) count 1
       {| remaining_balance := loan_amount;
          monthly_payment := monthly_payment;
          schedule := [] |} ;;
   ret {| loan_amount := loan_amount;
          number_of_payments := number_of_payments;
          prepayment_amount := prepayment_amount;
          total_payments := total_payments;
          total_interest := total_interest;
          final := vars |})%script.

(** Lines 195-200: what the handlers of the outer [try] show. *)
Definition outer_handler (e : exn) : ui :=
  match e with
  | ZeroDivisionError => st_error msg_zero_division
  | OverflowError => st_error msg_overflow
  | _ => st_error_exn msg_unexpected e
  end.

(** The whole run: the body under the outer handlers.  The result is what
    was shown and, when the schedule was built, the script's variables. *)
Definition run (w : inputs) : list ui * option report :=
  match body w with
  | (shown, Next r) => (shown, Some r)
  | (shown, Stopped) => (shown, None)
  | (shown, Throw e) => (shown ++ [outer_handler e], None)
  end.

End Script.

(** ** The rent comparison (lines 171-193) *)

Definition msg_rent_increase : string :=
  "Rent increase percentage cannot be negative".
Definition msg_rent_error : string :=
  "Error in rent comparison calculation: ".

(** Lines 185-186: one year of the rent loop, on
    [(total_rent, current_rent)]. *)
Definition rent_year (rent_increase : pynum) (acc : pynum * pynum)
  : res (pynum * pynum) :=
  let '(total_rent, current_rent) := acc in
  (yearly <- py_mul current_rent (PyInt 12) ;;
   total_rent <- py_add total_rent yearly ;;
   pct <- py_truediv rent_increase (PyInt 100) ;;
   factor <- py_add (PyInt 1) pct ;;
   current_rent <- py_mul current_rent factor ;;
   Ok (total_rent, current_rent))%res.

(** Lines 184-186: [for year in range(1, loan_term + 1)], as the number of
    years left. *)
Fixpoint rent_loop (rent_increase : pynum) (years : nat) (acc : pynum * pynum)
  : res (pynum * pynum) :=
  match years with
  | O => Ok acc
  | S years' =>
      (acc' <- rent_year rent_increase acc ;;
       rent_loop rent_increase years' acc')%res
  end.

(** [st.metric(label, f"{v:,.0f}")]: the format converts an [int] to a double
    first (OverflowError when it is too large); the metric keeps the
    number. *)
Definition metric_f (label : string) (v : pynum) : script unit :=
  (eval (to_float v) ;; show (st_metric label v))%script.

(** Lines 174-193: the block under [if compare_renting], with its own
    [try ... except Exception].  [rent] and [rent_increase] are the values of
    the two sidebar widgets, an [int] and a [float]. *)
Definition rent_comparison (loan_term rent : Z) (rent_increase : f64)
    (total_payments : pynum) : script unit :=
  try_except
    ((if py_lt (PyFloat rent_increase) (PyInt 0)
      then show (st_error msg_rent_increase) ;; st_stop
      else ret tt) ;;
     acc <- eval (rent_loop (PyFloat rent_increase) (Z.to_nat loan_term)
                    (PyInt 0, PyInt rent)) ;;
     let total_rent := fst acc in
     metric_f "Total Rent Paid" total_rent ;;
     savings <- eval (py_sub total_rent total_payments) ;;
     metric_f "Savings by Buying" savings)%script
    any_exception
    (fun e => show (st_error_exn msg_rent_error e)).

(** * Notions used in the statements *)

(** ** Doubles *)

(** A finite double within the range of binary64. *)
Definition bounded (x : f64) : Prop :=
  match x with
  | Fin k => Z.abs k <= max_units
  | _ => True
  end.

(** A finite double that rounding leaves unchanged. *)
Definition representable (x : f64) : Prop :=
  match x with
  | Fin k => round_mag (Z.abs k) 1 = Z.abs k
  | _ => True
  end.

(** [0 < x]: [x] is [+inf] or a positive finite double. *)
Definition positive (x : f64) : Prop := F64.ltb (Fin 0) x = true.

(** [0 <= x]: [x] is not a NaN and not below zero. *)
Definition nonneg (x : f64) : Prop := F64.leb (Fin 0) x = true.

(** [x == 0]: [x] is [+0.0] or [-0.0]. *)
Definition is_zero (x : f64) : Prop := F64.eqb x (Fin 0) = true.

(** [x <= y] (false when one of them is a NaN). *)
Definition fle (x y : f64) : Prop := F64.leb x y = true.

(** The order on the doubles that are not NaN compares first the tier
    ([-inf], finite, [+inf]) and then the units. *)
Definition tier (x : f64) : Z :=
  match x with
  | NInf => -1
  | PInf => 1
  | _ => 0
  end.

(** The exact sum [s], in units, rounded to a double. *)
Definition sround (s : Z) : f64 := round (s <? 0) (Z.abs s) 1.

(** What [pack] can return. *)
Inductive packed (neg : bool) (k : Z) : f64 -> Prop :=
| packed_inf : max_units < k -> packed neg k (inf neg)
| packed_zero : k = 0 -> packed neg k (zero neg)
| packed_fin : 0 < k <= max_units -> packed neg k (Fin (if neg then - k else k)).

(** Equality of two numbers as Python objects (same type, same value; a
    NaN is equal to itself here). *)
Definition pynum_eqb (a b : pynum) : bool :=
  match a, b with
  | PyInt x, PyInt y => x =? y
  | PyFloat NaN, PyFloat NaN
  | PyFloat PInf, PyFloat PInf
  | PyFloat NInf, PyFloat NInf
  | PyFloat NZero, PyFloat NZero => true
  | PyFloat (Fin x), PyFloat (Fin y) => x =? y
  | _, _ => false
  end.

(** Doubles on which the operations are compared with the primitive
    floats: 0.1, 8.75, -1.5, 6000000, the smallest subnormal, -0.0, +inf
    and a NaN. *)
Definition hardware_samples : list PrimFloat.float :=
  [0x1.999999999999ap-4; 8.75; -1.5; 6000000; 0x1p-1074;
   -0; infinity; nan]%float.

(** The largest finite double, for the overflow of a sum and of a product. *)
Definition largest_double : PrimFloat.float := 0x1.fffffffffffffp+1023%float.

(** [op] on the images of [a] and [b] is the image of the primitive
    operation [prim_op] on [a] and [b]. *)
Definition agrees
    (prim_op : PrimFloat.float -> PrimFloat.float -> PrimFloat.float)
    (op : f64 -> f64 -> f64) (a b : PrimFloat.float) : bool :=
  pynum_eqb (PyFloat (of_prim (prim_op a b)))
            (PyFloat (op (of_prim a) (of_prim b))).

Definition agrees_on_samples
    (prim_op : PrimFloat.float -> PrimFloat.float -> PrimFloat.float)
    (op : f64 -> f64 -> f64) : bool :=
  forallb (fun a => forallb (agrees prim_op op a) hardware_samples)
    hardware_samples.

Definition comparisons_agree (a b : PrimFloat.float) : bool :=
  Bool.eqb (PrimFloat.ltb a b) (F64.ltb (of_prim a) (of_prim b)) &&
  Bool.eqb (PrimFloat.leb a b) (F64.leb (of_prim a) (of_prim b)) &&
  Bool.eqb (PrimFloat.eqb a b) (F64.eqb (of_prim a) (of_prim b)).

(** ** The script *)

(** Line 72 on the widget's [float]: [(interest_rate / 100) / 12]. *)
Definition monthly_rate (x : f64) : f64 :=
  F64.div (F64.div x (F64.of_Z 100)) (F64.of_Z 12).

(** Lines 76-84: the payment before the finiteness guard of line 89. *)
Definition payment_formula (float_pow : f64 -> f64 -> res f64)
    (L r n : pynum) : res pynum :=
  if py_eq r (PyInt 0) then py_truediv L n else annuity float_pow L r n.

(** Lines 114-115: the loop variables before the first month. *)
Definition initial_vars (L mp : pynum) : loop_vars :=
  {| remaining_balance := L; monthly_payment := mp; schedule := [] |}.

(** The rows are numbered [i], [i + 1], ... *)
Fixpoint months_from (i : Z) (rows : list entry) : Prop :=
  match rows with
  | [] => True
  | e :: rows' => month e = i /\ months_from (i + 1) rows'
  end.

(** The balance at the head of the loop: a positive [int] (before the
    first month) or a positive double, finite when the monthly rate
    [r0] is zero. *)
Definition balance_ok (r0 : f64) (rb : pynum) : Prop :=
  match rb with
  | PyInt z => 0 < z
  | PyFloat x => positive x /\ bounded x /\ (is_zero r0 -> is_finite x = true)
  end.

(** Every row built so far reports a balance that is not below zero. *)
Definition rows_nonneg (v : loop_vars) : Prop :=
  Forall (fun e => py_le (PyInt 0) (balance e) = true) (schedule v).

(** Lines 120-124 in terms of the balance [x] as a double: the principal
    before the clamp; the prepayment [p0] is added in the months divisible
    by 12 when it is positive. *)
Definition raw_principal (r0 m0 : f64) (p0 i : Z) (x : f64) : f64 :=
  if (0 <? p0) && (i mod 12 =? 0)
  then add (sub m0 (mul x r0)) (of_Z p0)
  else sub m0 (mul x r0).

(** The loop variables of a run with a smaller prepayment ([v1]) and of a
    run with a larger one ([v2]) at the head of the same month: the same
    payment [m0], and a balance of [v2] that is not above the one of
    [v1]. *)
Definition related (r0 m0 : f64) (v1 v2 : loop_vars) : Prop :=
  monthly_payment v1 = PyFloat m0 /\ monthly_payment v2 = PyFloat m0 /\
  balance_ok r0 (remaining_balance v1) /\
  balance_ok r0 (remaining_balance v2) /\
  rows_nonneg v1 /\ rows_nonneg v2 /\
  (remaining_balance v2 = remaining_balance v1 \/
   exists x1 x2, remaining_balance v1 = PyFloat x1 /\
     remaining_balance v2 = PyFloat x2 /\ fle x2 x1).

(** The inputs [w] with another choice of the radio button. *)
Definition with_frequency (w : inputs) (f : frequency) : inputs :=
  {| home_value := home_value w;
     deposit := deposit w;
     interest_rate := interest_rate w;
     loan_term := loan_term w;
     processing_fees := processing_fees w;
     prepayment := prepayment w;
     prepayment_frequency := f |}.

(** The inputs [w] with another prepayment. *)
Definition with_prepayment (w : inputs) (p : Z) (f : frequency) : inputs :=
  {| home_value := home_value w;
     deposit := deposit w;
     interest_rate := interest_rate w;
     loan_term := loan_term w;
     processing_fees := processing_fees w;
     prepayment := p;
     prepayment_frequency := f |}.

(** The same loan: only the prepayment, its frequency and the fees may
    differ. *)
Definition same_loan (w w' : inputs) : Prop :=
  home_value w' = home_value w /\ deposit w' = deposit w /\
  interest_rate w' = interest_rate w /\ loan_term w' = loan_term w.

(** The largest [int] that an integer [st.number_input] returns (Streamlit
    keeps integer inputs within JavaScript's exact integers). *)
Definition max_int_input : Z := 2 ^ 53 - 1.

(** The spec's aggregate (section 4.4): the sum of the rows' payments. *)
Definition sum_of_payments (rows : list entry) : res pynum :=
  py_sum (map payment rows).

(** What a run shows, with the totals and the loop variables it ends
    with; [prepayment_amount], which nothing reads, is left out. *)
Definition outcome (o : list ui * option report)
  : list ui * option (pynum * pynum * loop_vars) :=
  (fst o,
   option_map (fun r => (total_payments r, total_interest r, final r)) (snd o)).

Definition is_metric (u : ui) : Prop :=
  match u with
  | st_metric _ _ => True
  | _ => False
  end.

(** A loan of 600,000 at 8.75% over [years] years. *)
Definition demo (years p : Z) (f : frequency) : inputs :=
  {| home_value := 1000000;
     deposit := 400000;
     interest_rate := dyadic 35 (-2);
     loan_term := years;
     processing_fees := 10000;
     prepayment := p;
     prepayment_frequency := f |}.

(** The same loan over one year at an interest rate of 2^1000 percent. *)
Definition demo_huge_rate : inputs :=
  {| home_value := 1000000;
     deposit := 400000;
     interest_rate := dyadic 1 1000;
     loan_term := 1;
     processing_fees := 10000;
     prepayment := 0;
     prepayment_frequency := Yearly |}.

(** A deposit of twice the home value. *)
Definition demo_deposit_exceeds : inputs :=
  {| home_value := 1000000;
     deposit := 2000000;
     interest_rate := dyadic 35 (-2);
     loan_term := 20;
     processing_fees := 10000;
     prepayment := 0;
     prepayment_frequency := Yearly |}.

(** ** Notions of the further properties *)

(** The inputs [w] with other processing fees. *)
Definition with_fees (w : inputs) (fees : Z) : inputs :=
  {| home_value := home_value w;
     deposit := deposit w;
     interest_rate := interest_rate w;
     loan_term := loan_term w;
     processing_fees := fees;
     prepayment := prepayment w;
     prepayment_frequency := prepayment_frequency w |}.

(** The integer inputs are in the range of the widgets. *)
Definition in_widget_range (w : inputs) : Prop :=
  home_value w <= max_int_input /\
  loan_term w <= max_int_input /\
  prepayment w <= max_int_input.

(** What a run can show once the validation and the loan-amount guard are
    passed. *)
Definition late_element (u : ui) : Prop :=
  u = st_error msg_rate_overflow \/
  u = st_error msg_invalid_payment \/
  is_metric u \/
  (exists e, u = outer_handler e) \/
  (exists e, u = st_error_exn msg_schedule_error e).

(** The loop variables hold doubles, or an [int] that converts to one. *)
Definition float_state (v : loop_vars) : Prop :=
  (exists m, monthly_payment v = PyFloat m) /\
  (exists x, to_float (remaining_balance v) = Ok x).

(** The example loan at an interest rate of 2^-50 percent. *)
Definition demo_tiny_rate : inputs :=
  {| home_value := 1000000;
     deposit := 400000;
     interest_rate := dyadic 1 (-50);
     loan_term := 1;
     processing_fees := 10000;
     prepayment := 0;
     prepayment_frequency := Yearly |}.

(** A double that is finite and not negative: what a float widget with
    [min_value=0.0] returns. *)
Definition finite_nonneg (x : f64) : Prop :=
  nonneg x /\ is_finite x = true /\ bounded x.

(** [1 + rent_increase / 100]. *)
Definition rent_factor (rent_increase : f64) : f64 :=
  add (of_Z 1) (div rent_increase (of_Z 100)).

(** * Proofs *)

(** ** Binary64 against the primitive floats *)

Lemma pynum_eqb_refl (a : pynum) : pynum_eqb a a = true.
Proof. destruct a as [z|[| | | |k]]; cbn; auto using Z.eqb_refl. Qed.

Lemma pynum_eqb_false (a b : pynum) : pynum_eqb a b = false -> a <> b.
Proof. intros H ->. rewrite pynum_eqb_refl in H. discriminate. Qed.

Example add_agrees_with_hardware : agrees_on_samples PrimFloat.add F64.add = true.
Proof. vm_compute. reflexivity. Qed.

Example sub_agrees_with_hardware : agrees_on_samples PrimFloat.sub F64.sub = true.
Proof. vm_compute. reflexivity. Qed.

Example mul_agrees_with_hardware : agrees_on_samples PrimFloat.mul F64.mul = true.
Proof. vm_compute. reflexivity. Qed.

Example div_agrees_with_hardware : agrees_on_samples PrimFloat.div F64.div = true.
Proof. vm_compute. reflexivity. Qed.

Example comparisons_agree_with_hardware :
  forallb (fun a => forallb (comparisons_agree a) hardware_samples)
    hardware_samples = true.
Proof. vm_compute. reflexivity. Qed.

Example overflow_agrees_with_hardware :
  agrees PrimFloat.add F64.add largest_double largest_double &&
  agrees PrimFloat.add F64.add largest_double 8.75%float &&
  agrees PrimFloat.mul F64.mul largest_double 8.75%float &&
  agrees PrimFloat.mul F64.mul largest_double 0x1.999999999999ap-4%float = true.
Proof. vm_compute. reflexivity. Qed.

Example of_Z_agrees_with_hardware :
  pynum_eqb (PyFloat (of_prim (PrimFloat.of_uint63 (Uint63.of_Z 9007199254740993))))
            (PyFloat (F64.of_Z 9007199254740993)) = true.
Proof. vm_compute. reflexivity. Qed.

(** ** Rounding to nearest, ties to even *)

Lemma rne_div_cases (n d : Z) :
  0 < d ->
  exists q r, n = d * q + r /\ 0 <= r < d /\ q = n / d /\
    ((2 * r < d /\ rne_div n d = q) \/
     (2 * r > d /\ rne_div n d = q + 1) \/
     (2 * r = d /\ (rne_div n d = q \/ rne_div n d = q + 1))).
Proof.
  intros Hd. unfold rne_div.
  pose proof (Z_div_mod n d ltac:(lia)) as H.
  unfold Z.div. destruct (Z.div_eucl n d) as [q r]. destruct H as [H1 H2].
  exists q, r. repeat split; try lia.
  destruct (Z.compare_spec (2 * r) d); [right; right|left|right; left]; try (split; [lia|]); auto.
  destruct (Z.even q); auto.
Qed.

Lemma rne_div_mono (n n' d : Z) :
  0 < d -> n <= n' -> rne_div n d <= rne_div n' d.
Proof.
  intros Hd Hn.
  destruct (rne_div_cases n d Hd) as (q & r & E & Hr & Hq & C).
  destruct (rne_div_cases n' d Hd) as (q' & r' & E' & Hr' & Hq' & C').
  assert (q <= q') by (subst q q'; apply Z.div_le_mono; lia).
  destruct (Z.eq_dec q q') as [->|Hne].
  - assert (r <= r') by lia.
    destruct (Z.eq_dec r r') as [->|Hr2].
    + assert (n = n') by lia. subst. lia.
    + lia.
  - lia.
Qed.

Lemma rne_div_floor (n d : Z) :
  0 < d -> n / d <= rne_div n d <= n / d + 1.
Proof.
  intros Hd. destruct (rne_div_cases n d Hd) as (q & r & E & Hr & Hq & C). lia.
Qed.

Lemma rne_div_upper (n d m : Z) :
  0 < d -> n <= d * m -> rne_div n d <= m.
Proof.
  intros Hd H.
  destruct (rne_div_cases n d Hd) as (q & r & E & Hr & Hq & C).
  assert (q <= m) by nia.
  destruct (Z.eq_dec q m); [|lia].
  subst m. assert (r = 0) by nia. lia.
Qed.

Lemma rne_div_lower (n d m : Z) :
  0 < d -> d * m <= n -> m <= rne_div n d.
Proof.
  intros Hd H.
  destruct (rne_div_cases n d Hd) as (q & r & E & Hr & Hq & C).
  assert (m <= q) by nia. lia.
Qed.

Lemma ulp_exp_nonneg (n d : Z) : 0 <= ulp_exp n d.
Proof. unfold ulp_exp. lia. Qed.

Lemma round_mag_eq (n d : Z) :
  round_mag n d = rne_div n (d * 2 ^ ulp_exp n d) * 2 ^ ulp_exp n d.
Proof.
  unfold round_mag. pose proof (ulp_exp_nonneg n d).
  now rewrite !Z.shiftl_mul_pow2 by assumption.
Qed.

Lemma round_mag_nonneg (n d : Z) : 0 < d -> 0 <= n -> 0 <= round_mag n d.
Proof.
  intros Hd Hn. rewrite round_mag_eq.
  pose proof (ulp_exp_nonneg n d) as He.
  assert (0 < 2 ^ ulp_exp n d) by (apply Z.pow_pos_nonneg; lia).
  assert (0 <= rne_div n (d * 2 ^ ulp_exp n d)).
  { apply rne_div_lower; nia. }
  nia.
Qed.

Lemma ulp_exp_mono (n n' d : Z) :
  0 < d -> 0 <= n <= n' -> ulp_exp n d <= ulp_exp n' d.
Proof.
  intros Hd Hn. unfold ulp_exp.
  assert (n / d <= n' / d) by (apply Z.div_le_mono; lia).
  pose proof (Z.log2_le_mono _ _ H). lia.
Qed.

Lemma round_mag_mono (n n' d : Z) :
  0 < d -> 0 <= n <= n' -> round_mag n d <= round_mag n' d.
Proof.
  intros Hd Hn. rewrite !round_mag_eq.
  pose proof (ulp_exp_mono n n' d Hd Hn) as Hee.
  pose proof (ulp_exp_nonneg n d) as He.
  set (e := ulp_exp n d) in *. set (e' := ulp_exp n' d) in *.
  assert (P : 0 < 2 ^ e) by (apply Z.pow_pos_nonneg; lia).
  assert (P' : 0 < 2 ^ e') by (apply Z.pow_pos_nonneg; lia).
  destruct (Z.eq_dec e e') as [Heq|Hne].
  - rewrite <- Heq.
    pose proof (rne_div_mono n n' (d * 2 ^ e) ltac:(nia) ltac:(lia)). nia.
  - assert (Hlt : e < e') by lia.
    (* n lies below the end of its binade, n' at or above the start of its own *)
    assert (Hq : n / d < 2 ^ (e + 53)).
    { destruct (Z.eq_dec (n / d) 0) as [Hz|Hz].
      - rewrite Hz. apply Z.pow_pos_nonneg; lia.
      - assert (0 < n / d) by (pose proof (Z.div_pos n d); lia).
        apply Z.log2_lt_pow2; [lia|]. unfold e, ulp_exp. lia. }
    assert (Hq' : 2 ^ (e' + 52) <= n' / d).
    { assert (0 < n' / d).
      { destruct (Z.eq_dec (n' / d) 0) as [Hz|Hz].
        - exfalso. unfold e', ulp_exp in Hlt. rewrite Hz in Hlt. simpl in Hlt. lia.
        - pose proof (Z.div_pos n' d); lia. }
      assert (e' = Z.log2 (n' / d) - 52) by (unfold e', ulp_exp in *; lia).
      replace (e' + 52) with (Z.log2 (n' / d)) by lia.
      apply Z.log2_spec; lia. }
    assert (Hn1 : n < d * 2 ^ (e + 53)).
    { pose proof (Z.div_mod n d ltac:(lia)).
      pose proof (Z.mod_pos_bound n d Hd). nia. }
    assert (Hn2 : d * 2 ^ (e' + 52) <= n').
    { pose proof (Z.mul_div_le n' d Hd). nia. }
    rewrite Z.pow_add_r in Hn1 by lia. rewrite Z.pow_add_r in Hn2 by lia.
    assert (A : rne_div n (d * 2 ^ e) <= 2 ^ 53).
    { apply rne_div_upper; nia. }
    assert (B : 2 ^ 52 <= rne_div n' (d * 2 ^ e')).
    { apply rne_div_lower; nia. }
    assert (2 ^ e * 2 <= 2 ^ e').
    { replace e' with (e + 1 + (e' - e - 1)) by lia.
      rewrite !Z.pow_add_r by lia. change (2 ^ 1) with 2.
      assert (0 < 2 ^ (e' - e - 1)) by (apply Z.pow_pos_nonneg; lia). nia. }
    change (2 ^ 53) with (2 ^ 52 * 2) in A.
    assert (0 < 2 ^ 52) by reflexivity.
    nia.
Qed.

Lemma max_units_pos : 0 < max_units.
Proof. reflexivity. Qed.

Lemma one_units_pos : 0 < one_units.
Proof. reflexivity. Qed.

Lemma round_mag_0 (d : Z) : 0 < d -> round_mag 0 d = 0.
Proof.
  intros Hd. rewrite round_mag_eq.
  assert (ulp_exp 0 d = 0) as -> by (unfold ulp_exp; now rewrite Z.div_0_l by lia).
  rewrite Z.pow_0_r, !Z.mul_1_r.
  destruct (rne_div_cases 0 d Hd) as (q & r & E & Hr & Hq & C).
  assert (q = 0) by nia. subst q. lia.
Qed.

Lemma round_mag_max : round_mag max_units 1 = max_units.
Proof. vm_compute. reflexivity. Qed.

Lemma round_mag_pos (n : Z) : 0 < n -> 0 < round_mag n 1.
Proof.
  intros H. pose proof (round_mag_mono 1 n 1 ltac:(lia) ltac:(lia)).
  replace (round_mag 1 1) with 1 in H0 by (vm_compute; reflexivity). lia.
Qed.

Lemma round_mag_le_max (n : Z) : 0 <= n <= max_units -> round_mag n 1 <= max_units.
Proof.
  intros H. pose proof (round_mag_mono n max_units 1 ltac:(lia) H) as M.
  now rewrite round_mag_max in M.
Qed.

Lemma rne_div_exact (a d : Z) : 0 < d -> rne_div (a * d) d = a.
Proof.
  intros Hd. destruct (rne_div_cases (a * d) d Hd) as (q & r & E & Hr & Hq & C).
  assert (q = a /\ r = 0) as [-> ->].
  { rewrite Z.div_mul in Hq by lia. subst q. split; [reflexivity|]. nia. }
  lia.
Qed.

(** The quotient that [round_mag] rounds has at most 53 bits. *)
Lemma round_mag_quotient (n d : Z) :
  0 <= n -> 0 < d ->
  let e := ulp_exp n d in
  let q := rne_div n (d * 2 ^ e) in
  0 <= q <= 2 ^ 53 /\ (0 < e -> 2 ^ 52 <= q).
Proof.
  intros Hn Hd e q. pose proof (ulp_exp_nonneg n d) as He. fold e in He.
  assert (P : 0 < 2 ^ e) by (apply Z.pow_pos_nonneg; lia).
  assert (Q0 : 0 <= n / d) by (apply Z.div_pos; lia).
  assert (Hq : n / d < 2 ^ (e + 53)).
  { destruct (Z.eq_dec (n / d) 0) as [Hz|Hz].
    - rewrite Hz. apply Z.pow_pos_nonneg; lia.
    - apply Z.log2_lt_pow2; [lia|]. unfold e, ulp_exp. lia. }
  assert (Hn1 : n < d * 2 ^ (e + 53)).
  { pose proof (Z.div_mod n d ltac:(lia)).
    pose proof (Z.mod_pos_bound n d Hd). nia. }
  rewrite Z.pow_add_r in Hn1 by lia.
  split; [split|].
  - apply rne_div_lower; nia.
  - apply rne_div_upper; nia.
  - intros Hpos.
    assert (e = Z.log2 (n / d) - 52) by (unfold e, ulp_exp in *; lia).
    assert (0 < n / d).
    { destruct (Z.eq_dec (n / d) 0) as [Hz|Hz]; [|lia].
      rewrite Hz in H. simpl in H. lia. }
    assert (2 ^ (e + 52) <= n / d).
    { replace (e + 52) with (Z.log2 (n / d)) by lia. apply Z.log2_spec; lia. }
    rewrite Z.pow_add_r in H1 by lia.
    pose proof (Z.mul_div_le n d Hd).
    apply rne_div_lower; nia.
Qed.

Lemma round_mag_on_grid (q e : Z) :
  0 <= e -> 0 <= q <= 2 ^ 53 -> (0 < e -> 2 ^ 52 <= q) ->
  round_mag (q * 2 ^ e) 1 = q * 2 ^ e.
Proof.
  intros He Hq Hlow.
  assert (P : 0 < 2 ^ e) by (apply Z.pow_pos_nonneg; lia).
  assert (P52 : 0 < 2 ^ 52) by reflexivity.
  destruct (Z.eq_dec q 0) as [->|Hq0].
  { rewrite Z.mul_0_l. apply round_mag_0. lia. }
  rewrite round_mag_eq. rewrite Z.mul_1_l.
  unfold ulp_exp. rewrite Z.div_1_r.
  assert (L : Z.log2 (q * 2 ^ e) = Z.log2 q + e)
    by (rewrite Z.log2_mul_pow2 by lia; lia).
  rewrite L.
  destruct (Z.eq_dec q (2 ^ 53)) as [->|Hq53].
  - (* the quotient reached the next binade *)
    rewrite Z.log2_pow2 by lia.
    replace (Z.max 0 (53 + e - 52)) with (e + 1) by lia.
    replace (2 ^ 53 * 2 ^ e) with (2 ^ 52 * 2 ^ (e + 1)).
    2:{ rewrite Z.pow_add_r by lia. change (2 ^ 53) with (2 ^ 52 * 2 ^ 1). ring. }
    rewrite rne_div_exact; [reflexivity|]. apply Z.pow_pos_nonneg; lia.
  - assert (Z.log2 q <= 52).
    { assert (Z.log2 q < 53); [|lia]. apply Z.log2_lt_pow2; lia. }
    destruct (Z.eq_dec e 0) as [->|He0].
    + replace (Z.max 0 (Z.log2 q + 0 - 52)) with 0 by lia.
      rewrite Z.pow_0_r, Z.mul_1_r. now rewrite <- (Z.mul_1_r q) at 1; rewrite rne_div_exact by lia.
    + assert (52 <= Z.log2 q) by (apply Z.log2_le_pow2; lia).
      replace (Z.max 0 (Z.log2 q + e - 52)) with e by lia.
      now rewrite rne_div_exact.
Qed.

Lemma round_mag_idem (n d : Z) :
  0 <= n -> 0 < d -> round_mag (round_mag n d) 1 = round_mag n d.
Proof.
  intros Hn Hd. rewrite (round_mag_eq n d).
  destruct (round_mag_quotient n d Hn Hd) as [Hq Hlow].
  apply round_mag_on_grid; auto. apply ulp_exp_nonneg.
Qed.

(** ** Classes of doubles *)

Lemma pack_spec (neg : bool) (k : Z) : 0 <= k -> packed neg k (pack neg k).
Proof.
  intros Hk. unfold pack. pose proof max_units_pos.
  destruct (Z.ltb_spec max_units k); [now constructor|].
  destruct (Z.eqb_spec k 0); [now constructor|].
  constructor. lia.
Qed.

Lemma round_spec (neg : bool) (n d : Z) :
  0 <= n -> 0 < d -> packed neg (round_mag n d) (round neg n d).
Proof. intros. apply pack_spec. now apply round_mag_nonneg. Qed.

Lemma round_bounded (neg : bool) (n d : Z) :
  0 <= n -> 0 < d -> bounded (round neg n d).
Proof.
  intros Hn Hd. pose proof max_units_pos.
  destruct (round_spec neg n d Hn Hd); destruct neg; cbn [bounded inf zero];
    try exact I; lia.
Qed.

Lemma round_nonneg (n d : Z) : 0 <= n -> 0 < d -> nonneg (round false n d).
Proof.
  intros Hn Hd. unfold nonneg, F64.leb.
  generalize (round_spec false n d Hn Hd). generalize (round_mag n d) as k.
  intros k []; cbn [F64.compare units inf zero]; auto.
  destruct (Z.compare_spec 0 k); auto; lia.
Qed.

Lemma round_not_nan (neg : bool) (n d : Z) :
  0 <= n -> 0 < d -> round neg n d <> NaN.
Proof.
  intros Hn Hd. destruct (round_spec neg n d Hn Hd); destruct neg; discriminate.
Qed.

Lemma round_finite (neg : bool) (n d : Z) :
  0 <= n -> 0 < d -> round_mag n d <= max_units -> is_finite (round neg n d) = true.
Proof.
  intros Hn Hd H. destruct (round_spec neg n d Hn Hd); destruct neg; simpl; auto; lia.
Qed.

Lemma positive_cases (x : f64) :
  positive x <-> x = PInf \/ exists k, x = Fin k /\ 0 < k.
Proof.
  unfold positive, F64.ltb. destruct x; cbn [F64.compare units]; split; intros H; auto;
    try discriminate; try (destruct H as [H|(k' & H & _)]; discriminate).
  - right. exists k. split; auto. destruct (Z.compare_spec 0 k); try discriminate; lia.
  - destruct H as [H|(k' & H & Hk)]; [discriminate|]. inversion H; subst.
    destruct (Z.compare_spec 0 k'); auto; lia.
Qed.

Lemma nonneg_cases (x : f64) :
  nonneg x <-> x = PInf \/ x = NZero \/ exists k, x = Fin k /\ 0 <= k.
Proof.
  unfold nonneg, F64.leb. destruct x; cbn [F64.compare units]; split; intros H; auto;
    try discriminate;
    try (destruct H as [H|[H|(k' & H & _)]]; discriminate).
  - right. right. exists k. split; auto. destruct (Z.compare_spec 0 k); try discriminate; lia.
  - destruct H as [H|[H|(k' & H & Hk)]]; try discriminate. inversion H; subst.
    destruct (Z.compare_spec 0 k'); auto; lia.
Qed.

Lemma is_zero_cases (x : f64) : is_zero x <-> x = NZero \/ x = Fin 0.
Proof.
  unfold is_zero, F64.eqb. destruct x; cbn [F64.compare units]; split; intros H; auto;
    try discriminate; try (destruct H; discriminate).
  - right. destruct (Z.compare_spec k 0); try discriminate. now subst.
  - destruct H as [H|H]; [discriminate|]. inversion H. reflexivity.
Qed.

Lemma positive_nonneg (x : f64) : positive x -> nonneg x.
Proof.
  intros H. apply positive_cases in H. apply nonneg_cases.
  destruct H as [->|(k & -> & Hk)]; auto. right; right. exists k. split; auto; lia.
Qed.

Lemma positive_not_nan (x : f64) : positive x -> x <> NaN.
Proof. intros H ->. discriminate. Qed.

Lemma nonneg_not_nan (x : f64) : nonneg x -> x <> NaN.
Proof. intros H ->. discriminate. Qed.

Lemma nonneg_finite_or_inf (x : f64) : nonneg x -> x = PInf \/ is_finite x = true.
Proof.
  intros H. apply nonneg_cases in H. destruct H as [->|[->|(k & -> & _)]]; auto.
Qed.

Lemma is_zero_finite (x : f64) : is_zero x -> is_finite x = true.
Proof.
  intros H. apply is_zero_cases in H. destruct H as [->| ->]; reflexivity.
Qed.

Lemma is_zero_nonneg (x : f64) : is_zero x -> nonneg x.
Proof.
  intros H. apply is_zero_cases in H. destruct H as [->| ->]; reflexivity.
Qed.

Lemma opp_zero_nonneg (x : f64) : is_zero x -> nonneg (opp x).
Proof.
  intros H. apply is_zero_cases in H. destruct H as [->| ->]; reflexivity.
Qed.

Lemma round_representable (neg : bool) (n d : Z) :
  0 <= n -> 0 < d -> representable (round neg n d).
Proof.
  intros Hn Hd. unfold round.
  pose proof (round_mag_idem n d Hn Hd) as Hid.
  pose proof (round_mag_nonneg n d Hd Hn) as N.
  revert Hid N. generalize (round_mag n d) as k. intros k Hid N.
  destruct (pack_spec neg k N); destruct neg; cbn [inf zero representable];
    try exact I; try exact (round_mag_0 1 ltac:(lia)).
  - rewrite Z.abs_opp, Z.abs_eq by lia. exact Hid.
  - rewrite Z.abs_eq by lia. exact Hid.
Qed.

(** ** The operations on classes *)

Lemma add_fin (x y : f64) :
  is_finite x = true -> is_finite y = true ->
  add x y = NZero \/
  add x y = round (units x + units y <? 0) (Z.abs (units x + units y)) 1.
Proof.
  destruct x, y; try discriminate; intros _ _; cbn [add units]; auto.
Qed.

Lemma add_bounded (x y : f64) : bounded (add x y).
Proof.
  destruct x, y; cbn [add]; try exact I; apply round_bounded; lia.
Qed.

Lemma add_not_nan (x y : f64) :
  x <> NaN -> y <> NaN -> ~ (x = PInf /\ y = NInf) -> ~ (x = NInf /\ y = PInf) ->
  add x y <> NaN.
Proof.
  intros Hx Hy H1 H2.
  destruct x, y; cbn [add]; try congruence; try tauto;
    apply round_not_nan; lia.
Qed.

Lemma add_nonneg (x y : f64) : nonneg x -> nonneg y -> nonneg (add x y).
Proof.
  intros Hx Hy. apply nonneg_cases in Hx, Hy.
  destruct Hx as [->|[->|(a & -> & Ha)]], Hy as [->|[->|(b & -> & Hb)]];
    cbn [add units];
    lazymatch goal with
    | |- nonneg (round (?s <? 0) _ _) =>
        replace (s <? 0) with false by lia; apply round_nonneg; lia
    | |- _ => reflexivity
    end.
Qed.

Lemma mul_bounded (x y : f64) : bounded (mul x y).
Proof.
  pose proof one_units_pos.
  destruct x, y; cbn [mul units]; unfold inf;
    repeat match goal with
    | |- bounded (if ?c then _ else _) => destruct c
    end; try exact I; apply round_bounded; lia.
Qed.

Lemma mul_positive_nonneg (x r : f64) :
  positive x -> nonneg r -> is_finite r = true ->
  (x = PInf -> ~ is_zero r) ->
  nonneg (mul x r).
Proof.
  intros Hx Hr Hf Hz. pose proof one_units_pos.
  apply positive_cases in Hx. apply nonneg_cases in Hr.
  destruct Hx as [->|(a & -> & Ha)], Hr as [->|[->|(b & -> & Hb)]];
    try discriminate.
  - exfalso. apply Hz; reflexivity.
  - cbn [mul units signbit]. destruct (Z.eqb_spec b 0) as [->|Hb0].
    + exfalso. apply Hz; reflexivity.
    + replace (b <? 0) with false by lia. reflexivity.
  - cbn [mul units signbit]. rewrite Z.mul_0_r.
    unfold round. rewrite round_mag_0 by lia. 
    replace (a <? 0) with false by lia. reflexivity.
  - cbn [mul units signbit].
    replace (a <? 0) with false by lia. replace (b <? 0) with false by lia.
    apply round_nonneg; lia.
Qed.

Lemma mul_by_zero (a : Z) (r : f64) :
  is_zero r -> is_zero (mul (Fin a) r).
Proof.
  intros Hr. pose proof one_units_pos. apply is_zero_cases in Hr.
  destruct Hr as [->| ->]; cbn [mul units]; rewrite Z.mul_0_r; unfold round;
    rewrite round_mag_0 by lia; destruct (xorb _ _); reflexivity.
Qed.

Lemma opp_involutive_class (x : f64) :
  (opp x = NaN <-> x = NaN) /\ (opp x = PInf <-> x = NInf) /\
  (opp x = NInf <-> x = PInf).
Proof.
  destruct x as [| | | |[|k|k]]; cbn [opp]; repeat split; intros H; try discriminate; auto.
Qed.

Lemma opp_finite (x : f64) : is_finite (opp x) = is_finite x.
Proof. destruct x as [| | | |[|k|k]]; reflexivity. Qed.

Lemma units_opp (x : f64) : units (opp x) = - units x.
Proof. destruct x as [| | | |[|k|k]]; reflexivity. Qed.

Lemma sub_bounded (x y : f64) : bounded (sub x y).
Proof. apply add_bounded. Qed.

Lemma sub_self (k : Z) : k <> 0 -> sub (Fin k) (Fin k) = Fin 0.
Proof.
  intros Hk. unfold sub. destruct k as [|k|k]; [congruence| |];
    cbn [opp add units]; rewrite Z.add_opp_diag_r; reflexivity.
Qed.

(** A finite minuend and a subtrahend that is not a NaN. *)
Lemma sub_finite_l (m y : f64) :
  is_finite m = true -> y <> NaN ->
  sub m y <> NaN /\ (y = PInf -> sub m y = NInf) /\ (y = NInf -> sub m y = PInf).
Proof.
  intros Hm Hy. unfold sub.
  destruct (opp_involutive_class y) as (N & P & Q).
  split; [|split].
  - apply add_not_nan.
    + destruct m; discriminate || congruence.
    + intros E. apply N in E. congruence.
    + intros [-> _]. discriminate.
    + intros [-> _]. discriminate.
  - intros ->. destruct m; try discriminate; reflexivity.
  - intros ->. destruct m; try discriminate; reflexivity.
Qed.

(** The difference of two bounded doubles of the same sign is finite. *)
Lemma sub_finite_nonneg (x y : f64) :
  is_finite x = true -> is_finite y = true ->
  bounded x -> bounded y -> nonneg x -> nonneg y ->
  is_finite (sub x y) = true.
Proof.
  intros Fx Fy Bx By Nx Ny. unfold sub.
  destruct (add_fin x (opp y)) as [E|E]; [assumption|now rewrite opp_finite| |];
    rewrite E; [reflexivity|].
  rewrite units_opp.
  assert (0 <= units x <= max_units).
  { apply nonneg_cases in Nx. destruct Nx as [->|[->|(a & -> & Ha)]]; try discriminate;
      cbn [units bounded] in *. pose proof max_units_pos; lia. lia. }
  assert (0 <= units y <= max_units).
  { apply nonneg_cases in Ny. destruct Ny as [->|[->|(a & -> & Ha)]]; try discriminate;
      cbn [units bounded] in *. pose proof max_units_pos; lia. lia. }
  apply round_finite; try lia. apply round_mag_le_max. lia.
Qed.

Lemma mul_PInf_positive (r0 : f64) :
  nonneg r0 -> is_finite r0 = true -> ~ is_zero r0 -> mul PInf r0 = PInf.
Proof.
  intros N F Z0. apply nonneg_cases in N. destruct N as [->|[->|(k & -> & Hk)]];
    try discriminate.
  - exfalso. apply Z0. reflexivity.
  - cbn [mul units signbit]. destruct (Z.eqb_spec k 0) as [->|Hk0].
    + exfalso. apply Z0. reflexivity.
    + replace (k <? 0) with false by lia. reflexivity.
Qed.

Lemma add_NInf_finite (y : f64) : is_finite y = true -> add NInf y = NInf.
Proof. destruct y; try discriminate; reflexivity. Qed.

Lemma mul_finite_inv (a b : f64) :
  is_finite (mul a b) = true -> is_finite a = true /\ is_finite b = true.
Proof.
  destruct a, b; cbn [mul units is_finite]; unfold inf; auto;
    repeat match goal with
    | |- is_finite (if ?c then _ else _) = true -> _ => destruct c
    end; cbn [is_finite]; auto; discriminate.
Qed.

Lemma div_finite_inv (a b : f64) :
  is_finite (div a b) = true -> is_finite a = true.
Proof.
  destruct a, b; cbn [div units is_finite]; unfold inf; auto;
    repeat match goal with
    | |- is_finite (if ?c then _ else _) = true -> _ => destruct c
    end; cbn [is_finite]; auto; discriminate.
Qed.

Lemma div_nonneg_pos (a : f64) (c : Z) :
  nonneg a -> 0 < c -> nonneg (div a (Fin c)).
Proof.
  intros Na Hc. pose proof one_units_pos. apply nonneg_cases in Na.
  destruct Na as [->|[->|(k & -> & Hk)]]; cbn [div units signbit].
  - replace (c <? 0) with false by lia. reflexivity.
  - replace (c =? 0) with false by lia. replace (c <? 0) with false by lia.
    cbn [xorb Z.abs Z.mul]. unfold round. rewrite round_mag_0 by lia. reflexivity.
  - replace (c =? 0) with false by lia. replace (c <? 0) with false by lia.
    replace (k <? 0) with false by lia. apply round_nonneg; nia.
Qed.

Lemma add_representable (x y : f64) : representable (add x y).
Proof.
  destruct x, y; cbn [add]; try exact I; apply round_representable; lia.
Qed.

(** A bounded representable double is what its own value rounds to. *)
Lemma sround_units (k : Z) :
  k <> 0 -> bounded (Fin k) -> representable (Fin k) -> sround k = Fin k.
Proof.
  intros Hk B R. unfold sround, round. cbn [bounded representable] in *.
  rewrite R. unfold pack.
  destruct (Z.ltb_spec max_units (Z.abs k)); [lia|].
  destruct (Z.eqb_spec (Z.abs k) 0); [lia|].
  f_equal. destruct (Z.ltb_spec k 0); lia.
Qed.

Lemma of_Z_nonneg (z : Z) : 0 <= z -> nonneg (of_Z z).
Proof.
  intros Hz. unfold of_Z. pose proof one_units_pos.
  replace (z <? 0) with false by lia. apply round_nonneg; nia.
Qed.

Lemma of_Z_bounded (z : Z) : bounded (of_Z z).
Proof. pose proof one_units_pos. apply round_bounded; nia. Qed.

Lemma of_Z_positive (z : Z) :
  0 < z -> is_finite (of_Z z) = true -> positive (of_Z z).
Proof.
  intros Hz. unfold of_Z. pose proof one_units_pos.
  replace (z <? 0) with false by lia.
  assert (P : 0 < round_mag (Z.abs z * one_units) 1) by (apply round_mag_pos; nia).
  revert P. generalize (round_spec false (Z.abs z * one_units) 1 ltac:(nia) ltac:(lia)).
  generalize (round_mag (Z.abs z * one_units) 1) as k.
  intros k [] P F; try discriminate; [lia|].
  apply positive_cases. right. eauto.
Qed.

Lemma of_Z_100 : of_Z 100 = Fin (100 * one_units).
Proof. vm_compute. reflexivity. Qed.

Lemma of_Z_12 : of_Z 12 = Fin (12 * one_units).
Proof. vm_compute. reflexivity. Qed.

Lemma of_quot_nonneg (a b : Z) : 0 <= a -> 0 < b -> nonneg (of_quot a b).
Proof.
  intros Ha Hb. unfold of_quot. pose proof one_units_pos.
  replace (a <? 0) with false by lia. replace (b <? 0) with false by lia.
  apply round_nonneg; nia.
Qed.

Lemma of_quot_bounded (a b : Z) : b <> 0 -> bounded (of_quot a b).
Proof. intros Hb. pose proof one_units_pos. apply round_bounded; nia. Qed.

Lemma opp_nan (x : f64) : opp x = NaN <-> x = NaN.
Proof. destruct x as [| | | |[|k|k]]; cbn; split; congruence. Qed.

Lemma sub_balance_not_nan (x pr : f64) :
  positive x -> pr <> NaN -> (x = PInf -> pr = NInf) -> sub x pr <> NaN.
Proof.
  intros Px Np Inf. apply positive_cases in Px. destruct Px as [->|(k & -> & Hk)].
  - rewrite (Inf eq_refl). discriminate.
  - unfold sub. apply add_not_nan;
      [discriminate | now rewrite opp_nan
      | intros [E _]; discriminate | intros [E _]; discriminate].
Qed.

(** ** The order and the monotonicity of the operations *)

Lemma compare_antisym (x y : f64) :
  F64.compare y x = option_map CompOpp (F64.compare x y).
Proof.
  destruct x, y; cbn [F64.compare units option_map]; try reflexivity;
    f_equal; apply Z.compare_antisym.
Qed.

Lemma compare_PInf_r (y : f64) : F64.compare y PInf <> Some Gt.
Proof. destruct y; discriminate. Qed.

Lemma fle_Fin (a b : Z) : fle (Fin a) (Fin b) <-> a <= b.
Proof.
  unfold fle, F64.leb. cbn [F64.compare units].
  destruct (Z.compare_spec a b); split; intros; try discriminate; auto; lia.
Qed.

Lemma fle_not_nan (x y : f64) : fle x y -> x <> NaN /\ y <> NaN.
Proof. destruct x, y; unfold fle, F64.leb; cbn; split; congruence. Qed.

Lemma fle_refl (x : f64) : x <> NaN -> fle x x.
Proof.
  destruct x; unfold fle, F64.leb; cbn [F64.compare units]; try congruence;
    try reflexivity. now rewrite Z.compare_refl.
Qed.

Lemma fle_PInf (x : f64) : x <> NaN -> fle x PInf.
Proof. destruct x; unfold fle, F64.leb; cbn; congruence. Qed.

Lemma fle_NInf (x : f64) : x <> NaN -> fle NInf x.
Proof. destruct x; unfold fle, F64.leb; cbn; congruence. Qed.

Ltac cmp_cases :=
  repeat match goal with
  | |- context [?a ?= ?b] => destruct (Z.compare_spec a b)
  end.

Lemma fle_rank (x y : f64) :
  fle x y <->
  x <> NaN /\ y <> NaN /\
  (tier x < tier y \/ tier x = tier y /\ units x <= units y).
Proof.
  unfold fle, F64.leb.
  destruct x, y; cbn [F64.compare units tier]; cmp_cases;
    (split;
     [ intros HH; try discriminate HH; repeat split; try discriminate; lia
     | intros (HA & HB & HC); try congruence; try reflexivity; exfalso; lia ]).
Qed.

Lemma fle_trans (x y z : f64) : fle x y -> fle y z -> fle x z.
Proof. rewrite !fle_rank. intros (A & B & C) (D & E & F). repeat split; auto. lia. Qed.

Lemma ltb_rank (x y : f64) :
  F64.ltb x y = true <->
  x <> NaN /\ y <> NaN /\
  (tier x < tier y \/ tier x = tier y /\ units x < units y).
Proof.
  unfold F64.ltb.
  destruct x, y; cbn [F64.compare units tier]; cmp_cases;
    (split;
     [ intros HH; try discriminate HH; repeat split; try discriminate; lia
     | intros (HA & HB & HC); try congruence; try reflexivity; exfalso; lia ]).
Qed.

Lemma pack_false_mono (k k' : Z) :
  0 <= k <= k' -> fle (pack false k) (pack false k').
Proof.
  intros H. pose proof max_units_pos.
  destruct (pack_spec false k ltac:(lia)); destruct (pack_spec false k' ltac:(lia));
    cbn [inf zero]; try reflexivity; try lia; apply fle_Fin; lia.
Qed.

Lemma pack_true_antimono (k k' : Z) :
  0 <= k' <= k -> fle (pack true k) (pack true k').
Proof.
  intros H. pose proof max_units_pos.
  destruct (pack_spec true k ltac:(lia)); destruct (pack_spec true k' ltac:(lia));
    cbn [inf zero]; try reflexivity; try lia; apply fle_rank; cbn [tier units];
    repeat split; try discriminate; lia.
Qed.

Lemma pack_true_le_false (k k' : Z) :
  0 <= k -> 0 <= k' -> fle (pack true k) (pack false k').
Proof.
  intros H H'. pose proof max_units_pos.
  destruct (pack_spec true k ltac:(lia)); destruct (pack_spec false k' ltac:(lia));
    cbn [inf zero]; try reflexivity; apply fle_rank; cbn [tier units];
    repeat split; try discriminate; lia.
Qed.

Lemma sround_mono (s s' : Z) : s <= s' -> fle (sround s) (sround s').
Proof.
  intros H. unfold sround, round.
  destruct (Z.ltb_spec s 0); destruct (Z.ltb_spec s' 0); try lia.
  - apply pack_true_antimono. split.
    + apply round_mag_nonneg; lia.
    + apply round_mag_mono; lia.
  - apply pack_true_le_false; apply round_mag_nonneg; lia.
  - apply pack_false_mono. split.
    + apply round_mag_nonneg; lia.
    + apply round_mag_mono; lia.
Qed.

Lemma add_finite (x y : f64) :
  is_finite x = true -> is_finite y = true ->
  (x = NZero /\ y = NZero) \/
  add x y = sround (units x + units y).
Proof.
  destruct x, y; try discriminate; intros _ _; cbn [add units]; auto.
Qed.

Lemma sround_zero : sround 0 = Fin 0.
Proof. reflexivity. Qed.

Lemma fle_NZero_l (x : f64) : fle (Fin 0) x -> fle NZero x.
Proof. rewrite !fle_rank. cbn [tier units]. intuition discriminate. Qed.

Lemma fle_NZero_r (x : f64) : fle x (Fin 0) -> fle x NZero.
Proof. rewrite !fle_rank. cbn [tier units]. intuition discriminate. Qed.

Lemma add_finite_le (x y x' y' : f64) :
  is_finite x = true -> is_finite y = true ->
  is_finite x' = true -> is_finite y' = true ->
  units x + units y <= units x' + units y' ->
  fle (add x y) (add x' y').
Proof.
  intros Fx Fy Fx' Fy' H.
  destruct (add_finite x y Fx Fy) as [[-> ->]|E];
    destruct (add_finite x' y' Fx' Fy') as [[-> ->]|E']; try rewrite E; try rewrite E'.
  - reflexivity.
  - apply fle_NZero_l. rewrite <- sround_zero. apply sround_mono. exact H.
  - apply fle_NZero_r. rewrite <- sround_zero. apply sround_mono. exact H.
  - now apply sround_mono.
Qed.

Lemma tier_opp (x : f64) : tier (opp x) = - tier x.
Proof. destruct x as [| | | |[|k|k]]; reflexivity. Qed.

Lemma opp_antimono (x y : f64) : fle x y -> fle (opp y) (opp x).
Proof.
  rewrite !fle_rank, !tier_opp, !units_opp, !opp_nan.
  intros (A & B & C). repeat split; auto. lia.
Qed.

Lemma tier_finite (x : f64) : x <> NaN -> (tier x = 0 <-> is_finite x = true).
Proof. destruct x; cbn; intros; split; congruence || lia. Qed.

(** Addition is monotone wherever it is defined. *)
Lemma add_mono (a b c d : f64) :
  fle a b -> fle c d -> add a c <> NaN -> add b d <> NaN ->
  fle (add a c) (add b d).
Proof.
  intros Hab Hcd N1 N2.
  destruct (is_finite a && is_finite b && is_finite c && is_finite d) eqn:F.
  - apply andb_prop in F. destruct F as [F Fd].
    apply andb_prop in F. destruct F as [F Fc].
    apply andb_prop in F. destruct F as [Fa Fb].
    apply add_finite_le; auto.
    apply fle_rank in Hab, Hcd.
    destruct Hab as (A1 & A2 & A3), Hcd as (C1 & C2 & C3).
    apply (tier_finite a A1) in Fa. apply (tier_finite b A2) in Fb.
    apply (tier_finite c C1) in Fc. apply (tier_finite d C2) in Fd. lia.
  - apply fle_rank in Hab, Hcd.
    destruct Hab as (A1 & A2 & A3), Hcd as (C1 & C2 & C3).
    destruct a, b; try congruence; cbn [tier units] in A3; try lia;
    destruct c, d; try congruence; cbn [tier units] in C3; try lia;
    try discriminate F; cbn [add] in *; try congruence;
    first [ reflexivity
          | apply fle_PInf; assumption
          | apply fle_NInf; assumption ].
Qed.

Lemma sub_mono (a b c d : f64) :
  fle a b -> fle d c -> sub a c <> NaN -> sub b d <> NaN ->
  fle (sub a c) (sub b d).
Proof.
  intros Hab Hdc. unfold sub. apply add_mono; auto. now apply opp_antimono.
Qed.

Lemma of_Z_sround (z : Z) : of_Z z = sround (z * one_units).
Proof.
  unfold of_Z, sround. pose proof one_units_pos.
  rewrite Z.abs_mul, (Z.abs_eq one_units) by lia.
  f_equal. destruct (Z.ltb_spec z 0); destruct (Z.ltb_spec (z * one_units) 0); auto; nia.
Qed.

Lemma of_Z_mono (p q : Z) : p <= q -> fle (of_Z p) (of_Z q).
Proof.
  intros H. rewrite !of_Z_sround. apply sround_mono.
  pose proof one_units_pos. nia.
Qed.

(** Adding a double that is not below zero does not decrease. *)
Lemma fle_add_nonneg (b d : f64) :
  b <> NaN -> bounded b -> representable b -> nonneg d -> is_finite d = true ->
  fle b (add b d).
Proof.
  intros Nb Bb Rb Nd Fd.
  apply nonneg_cases in Nd. destruct Nd as [->|Nd]; [discriminate|].
  assert (Ud : 0 <= units d) by (destruct Nd as [->|(k & -> & Hk)]; cbn; lia).
  destruct b as [| | | |k]; try congruence.
  - destruct d; try discriminate Fd; reflexivity.
  - destruct d; try discriminate Fd; reflexivity.
  - destruct (add_finite NZero d eq_refl Fd) as [[_ ->]| ->]; [reflexivity|].
    apply fle_NZero_l. rewrite <- sround_zero. apply sround_mono. cbn [units]. lia.
  - destruct (Z.eq_dec k 0) as [->|Hk].
    + destruct (add_finite (Fin 0) d eq_refl Fd) as [[E _]| ->].
      * discriminate E.
      * rewrite <- sround_zero at 1. apply sround_mono. cbn [units]. lia.
    + destruct (add_finite (Fin k) d eq_refl Fd) as [[E _]| ->].
      * discriminate E.
      * rewrite <- (sround_units k Hk Bb Rb) at 1. apply sround_mono.
        cbn [units]. lia.
Qed.

Lemma mul_mono (x2 x1 r0 : f64) :
  positive x2 -> positive x1 -> fle x2 x1 ->
  nonneg r0 -> is_finite r0 = true ->
  (is_zero r0 -> is_finite x1 = true) ->
  fle (mul x2 r0) (mul x1 r0).
Proof.
  intros P2 P1 H Nr Fr Zr. pose proof one_units_pos as U.
  assert (Z2 : is_zero r0 -> is_finite x2 = true).
  { intros Z0. apply Zr in Z0. apply fle_rank in H.
    destruct x1; try discriminate; destruct x2; try reflexivity;
      cbn [tier units] in H; try lia; discriminate P2. }
  assert (N2 : mul x2 r0 <> NaN).
  { apply nonneg_not_nan. apply mul_positive_nonneg; auto.
    intros -> Z0. apply Z2 in Z0. discriminate. }
  destruct (proj1 (positive_cases _) P1) as [->|(a1 & -> & H1)].
  - (* the larger balance is infinite *)
    assert (Z0 : ~ is_zero r0) by (intros Z0; apply Zr in Z0; discriminate).
    rewrite (mul_PInf_positive r0 Nr Fr Z0). now apply fle_PInf.
  - destruct (proj1 (positive_cases _) P2) as [->|(a2 & -> & H2)].
    + apply fle_rank in H. cbn [tier units] in H. lia.
    + apply fle_Fin in H.
      apply nonneg_cases in Nr. destruct Nr as [->|[->|(c & -> & Hc)]];
        try discriminate.
      * cbn [mul units signbit]. rewrite !Z.mul_0_r.
        replace (a1 <? 0) with false by lia. replace (a2 <? 0) with false by lia.
        apply fle_refl. apply round_not_nan; lia.
      * cbn [mul units signbit].
        replace (a1 <? 0) with false by lia. replace (a2 <? 0) with false by lia.
        replace (c <? 0) with false by lia. cbn [xorb]. unfold round.
        apply pack_false_mono. split.
        -- apply round_mag_nonneg; nia.
        -- apply round_mag_mono; nia.
Qed.

Lemma ltb_fle_trans (a b c d : f64) :
  fle a b -> F64.ltb b c = true -> fle c d -> F64.ltb a d = true.
Proof. rewrite !fle_rank, !ltb_rank. intros (A&B&C) (Dd&E&F) (G&Hh&I). repeat split; auto. lia. Qed.

Lemma positive_fle (y2 y1 : f64) : positive y2 -> fle y2 y1 -> positive y1.
Proof.
  unfold positive. rewrite !ltb_rank, fle_rank. cbn [tier units].
  intros (A&B&C) (Dd&E&F). repeat split; auto. lia.
Qed.

(** ** Python numbers *)

Lemma res_bind_Ok {A B : Type} (r : res A) (k : A -> res B) (b : B) :
  res_bind r k = Ok b -> exists a, r = Ok a /\ k a = Ok b.
Proof. destruct r; simpl; [eauto | discriminate]. Qed.

Lemma py_le_int (a b : Z) : py_le (PyInt a) (PyInt b) = (a <=? b).
Proof.
  unfold py_le, py_compare, Z.leb. now destruct (a ?= b).
Qed.

Lemma py_lt_int (a b : Z) : py_lt (PyInt a) (PyInt b) = (a <? b).
Proof.
  unfold py_lt, py_compare, Z.ltb. now destruct (a ?= b).
Qed.

Lemma py_gt_int (a b : Z) : py_gt (PyInt a) (PyInt b) = (b <? a).
Proof.
  unfold py_gt, py_compare. rewrite Z.ltb_antisym, Z.leb_compare.
  now destruct (a ?= b).
Qed.

Lemma to_float_100 : to_float (PyInt 100) = Ok (F64.of_Z 100).
Proof. vm_compute. reflexivity. Qed.

Lemma to_float_12 : to_float (PyInt 12) = Ok (F64.of_Z 12).
Proof. vm_compute. reflexivity. Qed.

Lemma truediv_100 (x : f64) :
  py_truediv (PyFloat x) (PyInt 100) = Ok (PyFloat (F64.div x (F64.of_Z 100))).
Proof.
  unfold py_truediv. rewrite to_float_100. cbn [to_float res_bind].
  replace (F64.eqb (of_Z 100) (Fin 0)) with false by (vm_compute; reflexivity).
  reflexivity.
Qed.

Lemma truediv_12 (x : f64) :
  py_truediv (PyFloat x) (PyInt 12) = Ok (PyFloat (F64.div x (F64.of_Z 12))).
Proof.
  unfold py_truediv. rewrite to_float_12. cbn [to_float res_bind].
  replace (F64.eqb (of_Z 12) (Fin 0)) with false by (vm_compute; reflexivity).
  reflexivity.
Qed.

Lemma py_compare_antisym (a b : pynum) :
  py_compare b a = option_map CompOpp (py_compare a b).
Proof.
  destruct a, b; unfold py_compare; try apply compare_antisym.
  cbn [option_map]. f_equal. apply Z.compare_antisym.
Qed.

Lemma py_gt_lt (a b : pynum) : py_gt a b = py_lt b a.
Proof.
  unfold py_gt, py_lt. rewrite (py_compare_antisym a b).
  now destruct (py_compare a b) as [[]|].
Qed.

Lemma py_lt_le (a b : pynum) : py_lt a b = true -> py_le a b = true.
Proof. unfold py_lt, py_le. now destruct (py_compare a b) as [[]|]. Qed.

Lemma to_float_inv (v : pynum) (x : f64) :
  to_float v = Ok x ->
  v = PyFloat x \/ exists z, v = PyInt z /\ x = of_Z z /\ is_finite x = true.
Proof.
  destruct v as [z|y]; cbn [to_float].
  - destruct (is_finite (of_Z z)) eqn:F; [|discriminate].
    intros H; inversion H; subst. right. eauto.
  - intros H; inversion H; auto.
Qed.

Lemma py_arith_float_r (iop : Z -> Z -> Z) (fop : f64 -> f64 -> f64)
    (a : pynum) (y : f64) :
  py_arith iop fop a (PyFloat y) =
    (x <- to_float a ;; Ok (PyFloat (fop x y)))%res.
Proof. destruct a; reflexivity. Qed.

Lemma py_arith_float_l (iop : Z -> Z -> Z) (fop : f64 -> f64 -> f64)
    (x : f64) (b : pynum) :
  py_arith iop fop (PyFloat x) b =
    (y <- to_float b ;; Ok (PyFloat (fop x y)))%res.
Proof. destruct b; reflexivity. Qed.

Lemma py_gt_PInf_r (a : pynum) : py_gt a (PyFloat PInf) = false.
Proof.
  unfold py_gt, py_compare. destruct a; cbn [exact]; 
  match goal with |- context [F64.compare ?y PInf] =>
    pose proof (compare_PInf_r y); destruct (F64.compare y PInf) as [[]|]; congruence end.
Qed.

Lemma py_gt_PInf_l (b : pynum) :
  exact b <> PInf -> exact b <> NaN -> py_gt (PyFloat PInf) b = true.
Proof.
  unfold py_gt, py_compare. destruct b as [z|y]; cbn [exact]; intros H1 H2.
  - reflexivity.
  - destruct y; congruence || reflexivity.
Qed.

(** [max(y, 0)] of a double that is not a NaN is not below zero. *)
Lemma py_max_nonneg (y : f64) :
  y <> NaN -> py_le (PyInt 0) (py_max (PyFloat y) (PyInt 0)) = true.
Proof.
  intros Hy. unfold py_max.
  destruct (py_gt (PyInt 0) (PyFloat y)) eqn:G; [reflexivity|].
  revert G. unfold py_gt, py_le, py_compare. cbn [exact]. change (0 * one_units) with 0.
  destruct y; try congruence; cbn [F64.compare units]; try reflexivity;
    try discriminate.
  destruct (0 ?= k); congruence.
Qed.

Lemma py_le_0_false (y : f64) :
  y <> NaN -> py_le (PyFloat y) (PyInt 0) = false -> positive y.
Proof.
  intros Hy. unfold py_le, py_compare, positive, F64.ltb. cbn [exact].
  change (0 * one_units) with 0.
  rewrite (compare_antisym y (Fin 0)).
  destruct (F64.compare y (Fin 0)) as [[]|] eqn:E; cbn; try congruence.
  destruct y; try congruence; discriminate.
Qed.


Lemma py_gt_float (a : f64) (b : pynum) :
  py_gt (PyFloat a) b = F64.ltb (exact b) a.
Proof.
  unfold py_gt, F64.ltb.
  replace (py_compare (PyFloat a) b) with (F64.compare a (exact b))
    by (destruct b; reflexivity).
  rewrite (compare_antisym (exact b) a).
  now destruct (F64.compare (exact b) a) as [[]|].
Qed.

Lemma positive_py_le (y : f64) : positive y -> py_le (PyFloat y) (PyInt 0) = false.
Proof.
  intros P. unfold py_le, py_compare. cbn [exact]. change (0 * one_units) with 0.
  apply positive_cases in P. destruct P as [->|(k & -> & Hk)]; [reflexivity|].
  cbn [F64.compare units]. destruct (Z.compare_spec k 0); auto; lia.
Qed.

Lemma py_gt_irrefl (a : pynum) : py_gt a a = false.
Proof.
  unfold py_gt. pose proof (py_compare_antisym a a) as H.
  destruct (py_compare a a) as [[]|]; cbn in H; congruence.
Qed.

Lemma monthly_rate_nonneg (ir : f64) : positive ir -> nonneg (monthly_rate ir).
Proof.
  intros P. unfold monthly_rate. rewrite of_Z_100, of_Z_12.
  pose proof one_units_pos.
  apply div_nonneg_pos; [|lia]. apply div_nonneg_pos; [|lia].
  now apply positive_nonneg.
Qed.

Lemma monthly_rate_finite_inv (ir : f64) :
  is_finite (monthly_rate ir) = true -> is_finite ir = true.
Proof.
  intros F. unfold monthly_rate in F. now do 2 apply div_finite_inv in F.
Qed.

Lemma py_eq_zero (x : f64) : py_eq (PyFloat x) (PyInt 0) = true <-> is_zero x.
Proof. reflexivity. Qed.

Lemma yearly_share_finite (p : Z) :
  0 < p <= max_int_input -> is_finite (of_quot p 12) = true.
Proof.
  intros Hp. unfold of_quot. pose proof one_units_pos.
  change (Z.abs 12) with 12.
  apply round_finite; [nia|lia|].
  pose proof (round_mag_mono (Z.abs p * one_units) (max_int_input * one_units) 12
                ltac:(lia) ltac:(nia)) as M.
  assert (round_mag (max_int_input * one_units) 12 <= max_units).
  { apply Z.leb_le. vm_compute. reflexivity. }
  lia.
Qed.

Lemma adjust_prepayment_ok (p : Z) (f : frequency) :
  p <= max_int_input -> exists pa, adjust_prepayment (PyInt p) f = Ok pa.
Proof.
  intros Hp. unfold adjust_prepayment. rewrite py_gt_int.
  destruct (Z.ltb_spec 0 p); [|eauto]. destruct f; [|eauto].
  cbn [py_truediv]. change (12 =? 0) with false. cbn match.
  rewrite yearly_share_finite by lia. eauto.
Qed.

(** ** Validation *)

Lemma in_append_if (m : string) (c : bool) (m' : string) (l : list string) :
  In m (append_if c m' l) <-> In m l \/ (c = true /\ m = m').
Proof.
  unfold append_if. destruct c.
  - rewrite in_app_iff. simpl. intuition congruence.
  - intuition congruence.
Qed.

Lemma in_validate_inputs (m : string) (hv d ir lt pf pp : pynum) :
  In m (validate_inputs hv d ir lt pf pp) <->
    (py_le hv (PyInt 0) = true /\ m = msg_home_value) \/
    (py_lt d (PyInt 0) = true /\ m = msg_deposit_negative) \/
    (py_gt d hv = true /\ m = msg_deposit_exceeds) \/
    (py_le ir (PyInt 0) = true /\ m = msg_interest_rate) \/
    (py_le lt (PyInt 0) = true /\ m = msg_loan_term) \/
    (py_lt pf (PyInt 0) = true /\ m = msg_processing_fees) \/
    (py_lt pp (PyInt 0) = true /\ m = msg_prepayment).
Proof.
  unfold validate_inputs. rewrite !in_append_if. simpl. tauto.
Qed.

Lemma validation_passed (w : inputs) :
  validation_errors w = [] ->
  0 < home_value w /\ 0 <= deposit w <= home_value w /\
  py_le (PyFloat (interest_rate w)) (PyInt 0) = false /\
  0 < loan_term w /\ 0 <= processing_fees w /\ 0 <= prepayment w.
Proof.
  intros H.
  assert (N : forall m, ~ In m (validation_errors w)) by (intros m; rewrite H; auto).
  unfold validation_errors in N.
  pose proof (fun m => proj2 (in_validate_inputs m (PyInt (home_value w))
    (PyInt (deposit w)) (PyFloat (interest_rate w)) (PyInt (loan_term w))
    (PyInt (processing_fees w)) (PyInt (prepayment w)))) as V.
  assert (C1 : py_le (PyInt (home_value w)) (PyInt 0) = false).
  { apply not_true_is_false. intros E. eapply N, V; left; split; [exact E|reflexivity]. }
  assert (C2 : py_lt (PyInt (deposit w)) (PyInt 0) = false).
  { apply not_true_is_false. intros E.
    eapply N, V; right; left; split; [exact E|reflexivity]. }
  assert (C3 : py_gt (PyInt (deposit w)) (PyInt (home_value w)) = false).
  { apply not_true_is_false. intros E.
    eapply N, V; do 2 right; left; split; [exact E|reflexivity]. }
  assert (C4 : py_le (PyFloat (interest_rate w)) (PyInt 0) = false).
  { apply not_true_is_false. intros E.
    eapply N, V; do 3 right; left; split; [exact E|reflexivity]. }
  assert (C5 : py_le (PyInt (loan_term w)) (PyInt 0) = false).
  { apply not_true_is_false. intros E.
    eapply N, V; do 4 right; left; split; [exact E|reflexivity]. }
  assert (C6 : py_lt (PyInt (processing_fees w)) (PyInt 0) = false).
  { apply not_true_is_false. intros E.
    eapply N, V; do 5 right; left; split; [exact E|reflexivity]. }
  assert (C7 : py_lt (PyInt (prepayment w)) (PyInt 0) = false).
  { apply not_true_is_false. intros E.
    eapply N, V; do 6 right; split; [exact E|reflexivity]. }
  rewrite py_le_int in C1, C5. rewrite py_lt_int in C2, C6, C7. rewrite py_gt_int in C3.
  apply Z.leb_gt in C1, C5. apply Z.ltb_ge in C2, C3, C6, C7.
  split; [lia|]. split; [lia|]. split; [exact C4|]. lia.
Qed.

(** ** The shape of a run *)

Lemma bind_Next {A B : Type} (m : script A) (k : A -> script B)
    (shown : list ui) (b : B) :
  bind m k = (shown, Next b) ->
  exists s1 a s2, m = (s1, Next a) /\ k a = (s2, Next b) /\ shown = s1 ++ s2.
Proof.
  destruct m as [s1 [a|e|]]; simpl; try discriminate.
  destruct (k a) as [s2 f] eqn:E. intros H. inversion H; subst.
  exists s1, a, s2. auto.
Qed.

Lemma bind_ret {A B : Type} (a : A) (k : A -> script B) :
  bind (ret a) k = k a.
Proof. unfold bind, ret. now destruct (k a). Qed.

Lemma eval_Next {A : Type} (r : res A) (shown : list ui) (a : A) :
  eval r = (shown, Next a) -> r = Ok a /\ shown = [].
Proof. destruct r; simpl; intros H; inversion H; auto. Qed.

Lemma loan_details_cases (w : inputs) :
  loan_details w =
    match validation_errors w with
    | [] =>
        if home_value w - deposit w <=? 0
        then ([st_error msg_loan_amount], Stopped)
        else ret (PyInt (home_value w - deposit w),
                  PyFloat (monthly_rate (interest_rate w)),
                  PyInt (loan_term w * 12))
    | errors => (map st_error errors, Stopped)
    end.
Proof.
  unfold loan_details. destruct (validation_errors w); [|reflexivity].
  cbn [bind ret eval py_sub py_arith py_mul].
  rewrite py_le_int. destruct (home_value w - deposit w <=? 0); [reflexivity|].
  rewrite truediv_100. cbn [bind ret eval app show st_stop].
  rewrite truediv_12. reflexivity.
Qed.

Section RunShape.
Variable float_pow : f64 -> f64 -> res f64.

Lemma compute_monthly_payment_cases (L r n : pynum) :
  compute_monthly_payment float_pow L r n =
    match payment_formula float_pow L r n with
    | Ok v =>
        match math_isfinite v with
        | Ok true => ret v
        | Ok false => ([st_error msg_invalid_payment], Stopped)
        | Raise e => ([], Throw e)
        end
    | Raise e =>
        if negb (py_eq r (PyInt 0)) && is_overflow e
        then ([st_error msg_rate_overflow], Stopped)
        else ([], Throw e)
    end.
Proof.
  unfold compute_monthly_payment, payment_formula.
  destruct (py_eq r (PyInt 0)).
  - destruct (py_truediv L n) as [v|e]; [|reflexivity].
    cbn [eval bind ret]. destruct (math_isfinite v) as [[|]|e]; reflexivity.
  - destruct (annuity float_pow L r n) as [v|e].
    + cbn [eval bind ret try_except]. destruct (math_isfinite v) as [[|]|e]; reflexivity.
    + cbn [eval try_except negb andb]. destruct (is_overflow e); reflexivity.
Qed.

Lemma compute_monthly_payment_Next (L r n mp : pynum) (shown : list ui) :
  compute_monthly_payment float_pow L r n = (shown, Next mp) ->
  shown = [] /\ payment_formula float_pow L r n = Ok mp /\ math_isfinite mp = Ok true.
Proof.
  rewrite compute_monthly_payment_cases.
  destruct (payment_formula float_pow L r n) as [v|e].
  - destruct (math_isfinite v) as [[|]|e] eqn:F; intros H; inversion H; subst; auto.
  - destruct (negb (py_eq r (PyInt 0)) && is_overflow e); discriminate.
Qed.

Lemma schedule_loop_Next (r p : pynum) (todo : nat) (i : Z) (v v' : loop_vars)
    (shown : list ui) :
  schedule_loop r p todo i v = (shown, Next v') -> shown = [].
Proof.
  revert i v. induction todo as [|todo IH]; intros i v; simpl.
  - intros H; inversion H; auto.
  - destruct (month_step r p i v) as [[v1 [|]]|e]; try discriminate.
    + intros H; inversion H; auto.
    + apply IH.
Qed.

Lemma run_Some (w : inputs) (rep : report) :
  snd (run float_pow w) = Some rep ->
  let L := PyInt (home_value w - deposit w) in
  let r := PyFloat (monthly_rate (interest_rate w)) in
  let n := PyInt (loan_term w * 12) in
  let p := PyInt (prepayment w) in
  validation_errors w = [] /\ 0 < home_value w - deposit w /\
  exists mp, 
    compute_monthly_payment float_pow L r n = ([], Next mp) /\
    adjust_prepayment p (prepayment_frequency w) = Ok (prepayment_amount rep) /\
    py_mul mp n = Ok (total_payments rep) /\
    py_sub (total_payments rep) L = Ok (total_interest rep) /\
    schedule_loop r p (Z.to_nat (loan_term w * 12)) 1
      (initial_vars L mp) = ([], Next (final rep)) /\
    loan_amount rep = L /\ number_of_payments rep = n /\
    fst (run float_pow w) =
      [st_metric "Monthly Repayments" mp;
       st_metric "Total Repayments" (total_payments rep);
       st_metric "Total Interest" (total_interest rep)].
Proof.
  intros H L r n p. unfold run in *.
  destruct (body float_pow w) as [shown fl] eqn:B.
  assert (fl = Next rep) as ->.
  { destruct fl as [a|e|]; simpl in H; congruence. }
  clear H. unfold body in B. rewrite loan_details_cases in B.
  destruct (validation_errors w); [|discriminate].
  destruct (Z.leb_spec (home_value w - deposit w) 0); [discriminate|].
  split; [reflexivity|]. split; [assumption|].
  rewrite bind_ret in B. fold L r n p in B.
  apply bind_Next in B. destruct B as (s1 & mp & s2 & E1 & B & ->).
  destruct (compute_monthly_payment_Next _ _ _ _ _ E1) as (-> & _ & _).
  exists mp. split; [assumption|].
  apply bind_Next in B. destruct B as (s3 & pa & s4 & E2 & B & ->).
  apply eval_Next in E2. destruct E2 as [E2 ->].
  apply bind_Next in B. destruct B as (s5 & tp & s6 & E3 & B & ->).
  apply eval_Next in E3. destruct E3 as [E3 ->].
  apply bind_Next in B. destruct B as (s7 & ti & s8 & E4 & B & ->).
  apply eval_Next in E4. destruct E4 as [E4 ->].
  cbn [show bind app] in B.
  destruct (range_count n) eqn:R; [|discriminate]. cbn [eval bind ret app] in B.
  simpl in R. inversion R; subst a. clear R.
  destruct (schedule_loop r p (Z.to_nat (loan_term w * 12)) 1 _) as [s9 [vars|e|]] eqn:SL;
    try discriminate.
  pose proof (schedule_loop_Next _ _ _ _ _ _ _ SL) as ->.
  cbn in B. inversion B; subst. cbn. auto 10.
Qed.

End RunShape.

(** ** The schedule loop *)

Lemma month_step_inv (r p : pynum) (i : Z) (v v' : loop_vars) (b : bool) :
  month_step r p i v = Ok (v', b) ->
  exists ip pr0 pr mp' rb' y,
    accrue r p i v = Ok (ip, pr0) /\
    (if py_gt pr0 (remaining_balance v)
     then pr = remaining_balance v /\ py_add (remaining_balance v) ip = Ok mp'
     else pr = pr0 /\ mp' = monthly_payment v) /\
    py_sub (remaining_balance v) pr = Ok rb' /\
    v' = {| remaining_balance := rb';
            monthly_payment := mp';
            schedule := schedule v ++
              [{| month := i; payment := mp'; principal := pr; interest := ip;
                  balance := py_max rb' (PyInt 0); year := y |}] |} /\
    b = py_le rb' (PyInt 0).
Proof.
  unfold month_step. intros H.
  apply res_bind_Ok in H. destruct H as ([ip pr0] & E1 & H).
  apply res_bind_Ok in H. destruct H as ([pr mp'] & E2 & H).
  apply res_bind_Ok in H. destruct H as (rb' & E3 & H).
  apply res_bind_Ok in H. destruct H as (q & E4 & H).
  apply res_bind_Ok in H. destruct H as (y & E5 & H).
  inversion H; subst. clear H.
  exists ip, pr0, pr, mp', rb', y. repeat split; auto.
  destruct (py_gt pr0 (remaining_balance v)).
  - apply res_bind_Ok in E2. destruct E2 as (m & E2 & H). inversion H; subst. auto.
  - inversion E2; subst. auto.
Qed.

(** An invariant of the loop head, and a property of the variables after
    each step. *)
Lemma schedule_loop_invariant (r p : pynum) (I : Z -> loop_vars -> Prop)
    (Q : loop_vars -> Prop) :
  (forall i v v' b, I i v -> month_step r p i v = Ok (v', b) ->
     Q v' /\ (b = false -> I (i + 1) v')) ->
  forall todo i v shown v',
    I i v -> Q v -> schedule_loop r p todo i v = (shown, Next v') -> Q v'.
Proof.
  intros Hstep. induction todo as [|todo IH]; intros i v shown v' HI HQ; simpl.
  - intros H; inversion H; subst; auto.
  - destruct (month_step r p i v) as [[v1 b]|e] eqn:E; [|discriminate].
    destruct (Hstep _ _ _ _ HI E) as [Q1 I1].
    destruct b.
    + intros H; inversion H; subst; auto.
    + apply IH; auto.
Qed.

Lemma schedule_loop_rows (r p : pynum) (todo : nat) (i : Z) (v v' : loop_vars)
    (shown : list ui) :
  schedule_loop r p todo i v = (shown, Next v') ->
  exists rows,
    schedule v' = schedule v ++ rows /\
    months_from i rows /\
    Forall (fun e => py_le (balance e) (PyInt 0) = false) (removelast rows) /\
    (List.length rows = todo \/
     (List.length rows < todo)%nat /\ rows <> [] /\
       py_le (remaining_balance v') (PyInt 0) = true).
Proof.
  revert i v. induction todo as [|todo IH]; intros i v; simpl.
  - intros H; inversion H; subst. exists []. rewrite app_nil_r. simpl. auto.
  - destruct (month_step r p i v) as [[v1 b]|e] eqn:E; [|discriminate].
    destruct (month_step_inv _ _ _ _ _ _ E) as (ip & pr0 & pr & mp' & rb' & y & _ & _ & _ & -> & ->).
    destruct (py_le rb' (PyInt 0)) eqn:Hb.
    + intros H; inversion H; subst. eexists [_]. simpl. repeat split; auto.
      destruct todo; [left; reflexivity | right]. simpl. repeat split; auto; [lia|discriminate].
    + intros H. apply IH in H. destruct H as (rows & E1 & M & F & C).
      simpl in E1. rewrite <- app_assoc in E1. simpl in E1.
      eexists (_ :: rows). split; [exact E1|]. split; [simpl; auto|]. split.
      * destruct rows as [|e1 rows]; [constructor|]. 
        change (removelast (?a :: e1 :: rows)) with (a :: removelast (e1 :: rows)).
        constructor; [|exact F]. simpl.
        unfold py_max. destruct (py_gt (PyInt 0) rb') eqn:E0; [|exact Hb].
        rewrite py_gt_lt in E0. apply py_lt_le in E0. congruence.
      * simpl. destruct C as [C|(C1 & C2 & C3)]; [left; lia | right].
        repeat split; auto; [lia | discriminate].
Qed.


(** A clamped month always ends the loop. *)
Lemma clamp_breaks (pr rb rb' : pynum) :
  py_le rb (PyInt 0) = false -> py_gt pr rb = true ->
  py_sub rb rb = Ok rb' -> py_le rb' (PyInt 0) = true.
Proof.
  intros Hle Hgt Hs. destruct rb as [z|x].
  - cbn in Hs. inversion Hs. rewrite Z.sub_diag. reflexivity.
  - cbn in Hs. inversion Hs; subst rb'. clear Hs.
    destruct x as [| | | |k].
    + exfalso. revert Hgt. unfold py_gt.
      replace (py_compare pr (PyFloat NaN)) with (@None comparison);
        [discriminate|].
      unfold py_compare. destruct pr as [z|y]; [reflexivity|].
      cbn [exact]. now destruct y.
    + rewrite py_gt_PInf_r in Hgt. discriminate.
    + discriminate.
    + discriminate.
    + destruct (Z.eq_dec k 0) as [->|Hk]; [discriminate|].
      rewrite sub_self by assumption. reflexivity.
Qed.

Lemma month_step_payment (r p : pynum) (i : Z) (v v' : loop_vars) :
  py_le (remaining_balance v) (PyInt 0) = false ->
  month_step r p i v = Ok (v', false) ->
  monthly_payment v' = monthly_payment v /\
  py_le (remaining_balance v') (PyInt 0) = false /\
  exists e, schedule v' = schedule v ++ [e] /\ payment e = monthly_payment v.
Proof.
  intros Hle H.
  destruct (month_step_inv _ _ _ _ _ _ H)
    as (ip & pr0 & pr & mp' & rb' & y & _ & Hc & Hs & -> & Hb).
  cbn. destruct (py_gt pr0 (remaining_balance v)) eqn:G.
  - destruct Hc as [-> _]. rewrite (clamp_breaks _ _ _ Hle G Hs) in Hb. discriminate.
  - destruct Hc as [-> ->]. repeat split; eauto.
Qed.

Lemma schedule_loop_payments (r p : pynum) (todo : nat) (i : Z)
    (v v' : loop_vars) (shown : list ui) :
  py_le (remaining_balance v) (PyInt 0) = false ->
  Forall (fun e => payment e = monthly_payment v) (schedule v) ->
  schedule_loop r p todo i v = (shown, Next v') ->
  Forall (fun e => payment e = monthly_payment v) (removelast (schedule v')) \/
  v' = v.
Proof.
  revert i v. induction todo as [|todo IH]; intros i v Hle F; simpl.
  - intros H; inversion H; auto.
  - destruct (month_step r p i v) as [[v1 b]|e] eqn:E; [|discriminate].
    destruct b.
    + intros H; inversion H; subst. left.
      destruct (month_step_inv _ _ _ _ _ _ E)
        as (ip & pr0 & pr & mp' & rb' & y & _ & _ & _ & -> & _).
      cbn. now rewrite removelast_last.
    + destruct (month_step_payment _ _ _ _ _ Hle E) as (M & Hle' & e & S & P).
      intros H. apply IH in H; auto.
      * rewrite M in H. destruct H as [H| ->]; auto.
        left. rewrite S, removelast_last. assumption.
      * rewrite M, S. apply Forall_app. split; auto.
Qed.

(** ** The balance in the loop *)

Lemma accrue_inv (r0 : f64) (p0 : Z) (m0 : f64) (i : Z) (v : loop_vars)
    (ip pr : pynum) :
  monthly_payment v = PyFloat m0 ->
  accrue (PyFloat r0) (PyInt p0) i v = Ok (ip, pr) ->
  exists x,
    to_float (remaining_balance v) = Ok x /\
    ip = PyFloat (mul x r0) /\
    (pr = PyFloat (sub m0 (mul x r0)) \/
     exists pf, 0 < p0 /\ i mod 12 = 0 /\ to_float (PyInt p0) = Ok pf /\
       pr = PyFloat (add (sub m0 (mul x r0)) pf)).
Proof.
  intros Hm. unfold accrue. rewrite Hm. unfold py_mul, py_sub, py_add.
  rewrite py_arith_float_r. intros H.
  apply res_bind_Ok in H. destruct H as (ip' & E1 & H).
  apply res_bind_Ok in E1. destruct E1 as (x & E1 & E1'). inversion E1'; subst ip'. clear E1'.
  rewrite py_arith_float_r in H. cbn [to_float res_bind] in H.
  exists x. split; [assumption|].
  rewrite py_gt_int in H.
  destruct (Z.ltb_spec 0 p0); destruct (Z.eqb_spec (i mod 12) 0); cbn [andb res_bind] in H.
  - rewrite py_arith_float_l in H.
    apply res_bind_Ok in H. destruct H as (pr' & E2 & H). inversion H; subst. clear H.
    apply res_bind_Ok in E2. destruct E2 as (pf & E2 & E2'). inversion E2'; subst.
    split; [reflexivity|]. right. exists pf. auto.
  - inversion H; subst. auto.
  - inversion H; subst. auto.
  - inversion H; subst. auto.
Qed.

Lemma accrue_raw (r0 : f64) (p0 : Z) (m0 : f64) (i : Z) (v : loop_vars)
    (ip pr : pynum) :
  monthly_payment v = PyFloat m0 ->
  accrue (PyFloat r0) (PyInt p0) i v = Ok (ip, pr) ->
  exists x,
    to_float (remaining_balance v) = Ok x /\
    ip = PyFloat (mul x r0) /\
    pr = PyFloat (raw_principal r0 m0 p0 i x) /\
    ((0 <? p0) && (i mod 12 =? 0) = true -> is_finite (of_Z p0) = true).
Proof.
  intros Hm. unfold accrue, raw_principal. rewrite Hm. unfold py_mul, py_sub, py_add.
  rewrite py_arith_float_r. intros H.
  apply res_bind_Ok in H. destruct H as (ip' & E1 & H).
  apply res_bind_Ok in E1. destruct E1 as (x & E1 & E1'). inversion E1'; subst ip'. clear E1'.
  rewrite py_arith_float_r in H. cbn [to_float res_bind] in H.
  exists x. split; [assumption|].
  rewrite py_gt_int in H.
  destruct ((0 <? p0) && (i mod 12 =? 0)); cbn [res_bind] in H.
  - rewrite py_arith_float_l in H.
    apply res_bind_Ok in H. destruct H as (pr' & E2 & H). inversion H; subst. clear H.
    apply res_bind_Ok in E2. destruct E2 as (pf & E2 & E2'). inversion E2'; subst.
    apply to_float_inv in E2. destruct E2 as [E2|(z & E2 & -> & F)]; [discriminate|].
    inversion E2; subst z. auto.
  - inversion H; subst. repeat split; auto. discriminate.
Qed.

Lemma balance_ok_py_le (r0 : f64) (rb : pynum) :
  balance_ok r0 rb -> py_le rb (PyInt 0) = false.
Proof.
  destruct rb as [z|x]; cbn [balance_ok].
  - intros H. rewrite py_le_int. apply Z.leb_gt. lia.
  - intros (P & _). now apply positive_py_le.
Qed.

Lemma balance_ok_exact (r0 : f64) (rb : pynum) :
  balance_ok r0 rb -> exact rb <> NaN.
Proof.
  destruct rb as [z|x]; cbn [balance_ok exact]; [discriminate|].
  intros (P & _). now apply positive_not_nan.
Qed.

Section Loop.

Variables (r0 : f64) (p0 : Z) (m0 : f64).
Hypothesis rate_nonneg : nonneg r0.
Hypothesis rate_finite : is_finite r0 = true.
Hypothesis prepay_nonneg : 0 <= p0.
Hypothesis pay_finite : is_finite m0 = true.
Hypothesis zero_rate : is_zero r0 -> nonneg m0 /\ bounded m0.

Lemma balance_as_float (rb : pynum) (x : f64) :
  balance_ok r0 rb -> to_float rb = Ok x ->
  positive x /\ bounded x /\ (is_zero r0 -> is_finite x = true) /\
  (x = PInf -> rb = PyFloat PInf).
Proof.
  intros B T. apply to_float_inv in T. destruct T as [->|(z & -> & -> & F)].
  - cbn in B. destruct B as (P & Bd & Z0). repeat split; auto. now intros ->.
  - cbn in B. repeat split; auto.
    + now apply of_Z_positive.
    + apply of_Z_bounded.
    + intros E. rewrite E in F. discriminate.
Qed.

(** The principal before the clamp is not a NaN, and it is [-inf] when the
    balance is [+inf]. *)
Lemma raw_principal_class (x pf : f64) (with_prepayment : bool) :
  positive x -> (is_zero r0 -> is_finite x = true) ->
  nonneg pf -> is_finite pf = true ->
  let pr := if with_prepayment then add (sub m0 (mul x r0)) pf
            else sub m0 (mul x r0) in
  pr <> NaN /\ (x = PInf -> pr = NInf).
Proof.
  intros Px Zx Npf Fpf.
  assert (Ni : nonneg (mul x r0)).
  { apply mul_positive_nonneg; auto. intros -> Z0. apply Zx in Z0. discriminate. }
  destruct (sub_finite_l m0 (mul x r0) pay_finite (nonneg_not_nan _ Ni)) as (S1 & S2 & S3).
  assert (x = PInf -> sub m0 (mul x r0) = NInf).
  { intros ->. apply S2. apply mul_PInf_positive; auto.
    intros Z0. apply Zx in Z0. discriminate. }
  destruct with_prepayment; cbn zeta; [|auto].
  split.
  - apply add_not_nan; auto.
    + intros ->. discriminate.
    + intros [_ ->]. discriminate.
    + intros [_ ->]. discriminate.
  - intros E. rewrite (H E). now apply add_NInf_finite.
Qed.

(** With a zero rate the principal before the clamp is not below zero. *)
Lemma raw_principal_zero_rate (x pf : f64) (with_prepayment : bool) :
  is_zero r0 -> is_finite x = true ->
  nonneg pf ->
  let pr := if with_prepayment then add (sub m0 (mul x r0)) pf
            else sub m0 (mul x r0) in
  nonneg pr /\ bounded pr.
Proof.
  intros Z0 Fx Npf. destruct (zero_rate Z0) as [Nm Bm].
  assert (Zi : is_zero (mul x r0)).
  { destruct x; try discriminate.
    - apply is_zero_cases in Z0. destruct Z0 as [->| ->]; reflexivity.
    - now apply mul_by_zero. }
  assert (N0 : nonneg (sub m0 (mul x r0))).
  { unfold sub. apply add_nonneg; auto. now apply opp_zero_nonneg. }
  destruct with_prepayment; cbn zeta.
  - split; [now apply add_nonneg | apply add_bounded].
  - split; [assumption | apply sub_bounded].
Qed.

Lemma month_step_balance (i : Z) (v v' : loop_vars) (b : bool) :
  monthly_payment v = PyFloat m0 ->
  balance_ok r0 (remaining_balance v) ->
  rows_nonneg v ->
  month_step (PyFloat r0) (PyInt p0) i v = Ok (v', b) ->
  rows_nonneg v' /\
  (b = false ->
   monthly_payment v' = PyFloat m0 /\ balance_ok r0 (remaining_balance v')).
Proof.
  intros Hm Hb Hrows Hstep.
  destruct (month_step_inv _ _ _ _ _ _ Hstep)
    as (ip & pr0 & pr & mp' & rb' & y & Ha & Hc & Hs & -> & ->).
  destruct (accrue_inv _ _ _ _ _ _ _ Hm Ha) as (x & Tx & -> & Hpr).
  destruct (balance_as_float _ _ Hb Tx) as (Px & Bx & Zx & Ix).
  (* the principal before the clamp, as a double *)
  assert (exists pf (wp : bool), nonneg pf /\ is_finite pf = true /\
            pr0 = PyFloat (if wp then add (sub m0 (mul x r0)) pf
                           else sub m0 (mul x r0))) as (pf & wp & Npf & Fpf & ->).
  { destruct Hpr as [->|(pf & Hp & _ & Tp & ->)].
    - exists (Fin 0), false. repeat split; reflexivity.
    - exists pf, true. apply to_float_inv in Tp.
      destruct Tp as [Tp|(z & Tp & -> & F)]; [discriminate|]. inversion Tp; subst z.
      repeat split; auto. apply of_Z_nonneg. lia. }
  set (pr1 := if wp then add (sub m0 (mul x r0)) pf else sub m0 (mul x r0)) in *.
  destruct (raw_principal_class x pf wp Px Zx Npf Fpf) as (Nn & Inf).
  fold pr1 in Nn, Inf.
  unfold rows_nonneg in *. cbn [schedule remaining_balance monthly_payment balance].
  destruct (py_gt (PyFloat pr1) (remaining_balance v)) eqn:G.
  - (* clamped: the new balance is zero and the loop stops *)
    destruct Hc as [-> Hc].
    assert (rb' = PyInt 0 \/ rb' = PyFloat (Fin 0)) as Hz.
    { destruct (remaining_balance v) as [z|x'] eqn:R.
      - cbn in Hs. inversion Hs. left. f_equal. lia.
      - cbn in Tx. inversion Tx; subst x'. cbn in Hs. inversion Hs. right. f_equal.
        apply positive_cases in Px. destruct Px as [->|(k & -> & Hk)].
        + rewrite py_gt_PInf_r in G. discriminate.
        + apply sub_self. lia. }
    split.
    + apply Forall_app. split; [assumption|]. constructor; [|constructor].
      cbn [balance]. destruct Hz as [-> | ->]; reflexivity.
    + destruct Hz as [-> | ->]; discriminate.
  - destruct Hc as [-> ->].
    unfold py_sub in Hs. rewrite py_arith_float_r, Tx in Hs.
    cbn [res_bind] in Hs. inversion Hs; subst rb'. clear Hs.
    assert (Ny : sub x pr1 <> NaN).
    { apply positive_cases in Px. destruct Px as [->|(k & -> & Hk)].
      - rewrite (Inf eq_refl). discriminate.
      - unfold sub. destruct (opp_involutive_class pr1) as (O1 & O2 & O3).
        apply add_not_nan;
          [discriminate | intros E; apply O1 in E; contradiction
          | intros [E _]; discriminate | intros [E _]; discriminate]. }
    split.
    + apply Forall_app. split; [assumption|]. constructor; [|constructor].
      cbn [balance]. now apply py_max_nonneg.
    + intros Hle. split; [exact Hm|].
      cbn [balance_ok]. split; [now apply py_le_0_false|]. split; [apply sub_bounded|].
      intros Z0. pose proof (Zx Z0) as Fx.
      destruct (raw_principal_zero_rate x pf wp Z0 Fx Npf) as (N1 & B1).
      fold pr1 in N1, B1.
      destruct (nonneg_finite_or_inf _ N1) as [E|F1].
      * (* an infinite principal would have been clamped *)
        exfalso. rewrite E in G. rewrite py_gt_PInf_l in G; [discriminate| |].
        -- intros E'. destruct (remaining_balance v) as [z|x'] eqn:R; [discriminate|].
           cbn in E'. subst x'. cbn in Tx. inversion Tx; subst x. discriminate.
        -- intros E'. destruct (remaining_balance v) as [z|x'] eqn:R; [discriminate|].
           cbn in E'. subst x'. cbn in Tx. inversion Tx; subst x. discriminate.
      * apply sub_finite_nonneg; auto. now apply positive_nonneg.
Qed.

End Loop.

Section PaymentFacts.
Variable float_pow : f64 -> f64 -> res f64.

Lemma annuity_float (L : pynum) (r0 : f64) (n mp : pynum) :
  annuity float_pow L (PyFloat r0) n = Ok mp ->
  exists lf pv dv,
    to_float L = Ok lf /\
    mp = PyFloat (div (mul lf (mul r0 pv)) dv).
Proof.
  unfold annuity, py_add, py_mul, py_sub. intros H.
  apply res_bind_Ok in H. destruct H as (g & E1 & H).
  rewrite py_arith_float_r in E1.
  apply res_bind_Ok in E1. destruct E1 as (o & _ & E1). inversion E1; subst g. clear E1.
  apply res_bind_Ok in H. destruct H as (p & E2 & H).
  assert (exists pv, p = PyFloat pv) as (pv & ->).
  { unfold py_pow in E2.
    assert (forall q, (x <- to_float (PyFloat (add o r0)) ;; y <- to_float n ;;
              v <- float_pow x y ;; Ok (PyFloat v))%res = Ok q -> exists pv, q = PyFloat pv).
    { intros q Q. apply res_bind_Ok in Q. destruct Q as (x & _ & Q).
      apply res_bind_Ok in Q. destruct Q as (y & _ & Q).
      apply res_bind_Ok in Q. destruct Q as (v & _ & Q). inversion Q. eauto. }
    destruct n; eauto. }
  rewrite py_arith_float_l in H. cbn [to_float res_bind] in H.
  rewrite py_arith_float_r in H.
  apply res_bind_Ok in H. destruct H as (num & E3 & H).
  apply res_bind_Ok in E3. destruct E3 as (lf & E3 & E3'). inversion E3'; subst num. clear E3'.
  apply res_bind_Ok in H. destruct H as (g' & _ & H).
  apply res_bind_Ok in H. destruct H as (p' & _ & H).
  apply res_bind_Ok in H. destruct H as (den & _ & H).
  exists lf, pv. unfold py_truediv in H. cbn [to_float res_bind] in H.
  apply res_bind_Ok in H. destruct H as (dv & _ & H).
  destruct (F64.eqb dv (Fin 0)); [discriminate|]. inversion H. eauto.
Qed.

(** What the guards of lines 61-91 leave for the schedule loop. *)
Lemma payment_facts (l nn : Z) (ir : f64) (mp : pynum) :
  0 < l -> 0 < nn -> py_le (PyFloat ir) (PyInt 0) = false ->
  payment_formula float_pow (PyInt l) (PyFloat (monthly_rate ir)) (PyInt nn) = Ok mp ->
  math_isfinite mp = Ok true ->
  exists m0, mp = PyFloat m0 /\ is_finite m0 = true /\
    nonneg (monthly_rate ir) /\ is_finite (monthly_rate ir) = true /\
    (is_zero (monthly_rate ir) -> nonneg m0 /\ bounded m0).
Proof.
  intros Hl Hn Hir. unfold payment_formula.
  destruct (py_eq (PyFloat (monthly_rate ir)) (PyInt 0)) eqn:Z0.
  - apply py_eq_zero in Z0. cbn [py_truediv].
    replace (nn =? 0) with false by lia.
    destruct (is_finite (of_quot l nn)) eqn:F; [|discriminate].
    intros H _. inversion H; subst mp.
    exists (of_quot l nn).
    split; [reflexivity|]. split; [assumption|].
    split; [now apply is_zero_nonneg|]. split; [now apply is_zero_finite|].
    intros _. split; [apply of_quot_nonneg; lia | apply of_quot_bounded; lia].
  - intros H F. apply annuity_float in H. destruct H as (lf & pv & dv & _ & ->).
    cbn [math_isfinite to_float res_bind] in F. injection F as F'.
    exists (div (mul lf (mul (monthly_rate ir) pv)) dv).
    assert (Fr : is_finite (monthly_rate ir) = true).
    { apply div_finite_inv, mul_finite_inv in F'. destruct F' as [_ F'].
      apply mul_finite_inv in F'. tauto. }
    split; [reflexivity|]. split; [assumption|]. split; [|split; [assumption|]].
    + apply monthly_rate_nonneg. apply monthly_rate_finite_inv in Fr.
      apply py_le_0_false; [|assumption]. intros ->. discriminate.
    + intros Z1. apply py_eq_zero in Z1. congruence.
Qed.

End PaymentFacts.

Section BalanceRows.
Variable float_pow : f64 -> f64 -> res f64.

Lemma rows_never_negative (w : inputs) (rep : report) :
  snd (run float_pow w) = Some rep ->
  Forall (fun e => py_le (PyInt 0) (balance e) = true) (schedule (final rep)).
Proof.
  intros H. apply run_Some in H. cbn zeta in H.
  destruct H as (V & HL & mp & C & _ & _ & _ & Loop & _).
  destruct (validation_passed w V) as (_ & _ & Hir & Hlt & _ & Hp).
  apply compute_monthly_payment_Next in C. destruct C as (_ & PF & Fin).
  destruct (payment_facts float_pow (home_value w - deposit w)
              (loan_term w * 12) (interest_rate w) mp HL ltac:(lia) Hir PF Fin)
    as (m0 & -> & Fm & Nr & Fr & Zr).
  set (r0 := monthly_rate (interest_rate w)) in *.
  apply (schedule_loop_invariant (PyFloat r0) (PyInt (prepayment w))
           (fun _ v => monthly_payment v = PyFloat m0 /\
                       balance_ok r0 (remaining_balance v) /\ rows_nonneg v)
           rows_nonneg) in Loop; auto.
  - intros i v v' b (I1 & I2 & I3) St.
    destruct (month_step_balance r0 (prepayment w) m0 Nr Fr Hp Fm Zr i v v' b I1 I2 I3 St)
      as (Q1 & Q2).
    split; [assumption|]. intros Hb. destruct (Q2 Hb). auto.
  - repeat split; auto. constructor.
  - constructor.
Qed.

End BalanceRows.

(** ** Two runs that differ in the prepayment *)

Section TwoRuns.

Variables (r0 m0 : f64) (p1 p2 : Z).
Hypothesis rate_nonneg : nonneg r0.
Hypothesis rate_finite : is_finite r0 = true.
Hypothesis prepay_nonneg : 0 <= p1.
Hypothesis prepay_le : p1 <= p2.
Hypothesis pay_finite : is_finite m0 = true.
Hypothesis zero_rate : is_zero r0 -> nonneg m0 /\ bounded m0.

Lemma raw_principal_mono (i : Z) (x1 x2 : f64) :
  positive x1 -> positive x2 -> fle x2 x1 ->
  (is_zero r0 -> is_finite x1 = true) ->
  (is_zero r0 -> is_finite x2 = true) ->
  ((0 <? p1) && (i mod 12 =? 0) = true -> is_finite (of_Z p1) = true) ->
  ((0 <? p2) && (i mod 12 =? 0) = true -> is_finite (of_Z p2) = true) ->
  let a1 := raw_principal r0 m0 p1 i x1 in
  let a2 := raw_principal r0 m0 p2 i x2 in
  fle a1 a2 /\ (x1 = PInf -> a1 = NInf) /\ (x2 = PInf -> a2 = NInf).
Proof.
  intros P1 P2 H Z1 Z2 F1 F2.
  assert (B : fle (sub m0 (mul x1 r0)) (sub m0 (mul x2 r0))).
  { assert (N1 : nonneg (mul x1 r0)).
    { apply mul_positive_nonneg; auto. intros -> Z0. apply Z1 in Z0. discriminate. }
    assert (N2 : nonneg (mul x2 r0)).
    { apply mul_positive_nonneg; auto. intros -> Z0. apply Z2 in Z0. discriminate. }
    apply sub_mono.
    - apply fle_refl. intros ->. discriminate.
    - now apply mul_mono.
    - apply (sub_finite_l m0 _ pay_finite (nonneg_not_nan _ N1)).
    - apply (sub_finite_l m0 _ pay_finite (nonneg_not_nan _ N2)). }
  unfold raw_principal.
  destruct ((0 <? p1) && (i mod 12 =? 0)) eqn:W1;
    destruct ((0 <? p2) && (i mod 12 =? 0)) eqn:W2.
  - pose proof (raw_principal_class r0 m0 rate_nonneg rate_finite pay_finite
                  x1 (of_Z p1) true P1 Z1 (of_Z_nonneg p1 ltac:(lia)) (F1 eq_refl)) as (C1 & D1).
    pose proof (raw_principal_class r0 m0 rate_nonneg rate_finite pay_finite
                  x2 (of_Z p2) true P2 Z2 (of_Z_nonneg p2 ltac:(lia)) (F2 eq_refl)) as (C2 & D2).
    cbn zeta in *. split; [|auto]. apply add_mono; auto. now apply of_Z_mono.
  - exfalso. apply andb_prop in W1. destruct W1 as [W1 W1'].
    rewrite W1' in W2. rewrite andb_true_r in W2.
    apply Z.ltb_lt in W1. apply Z.ltb_ge in W2. lia.
  - pose proof (raw_principal_class r0 m0 rate_nonneg rate_finite pay_finite
                  x1 (Fin 0) false P1 Z1 eq_refl eq_refl) as (C1 & D1).
    pose proof (raw_principal_class r0 m0 rate_nonneg rate_finite pay_finite
                  x2 (of_Z p2) true P2 Z2 (of_Z_nonneg p2 ltac:(lia)) (F2 eq_refl)) as (C2 & D2).
    cbn zeta in *. split; [|auto].
    apply (fle_trans _ _ _ B). apply fle_add_nonneg.
    + apply (fle_not_nan _ _ B).
    + apply sub_bounded.
    + apply add_representable.
    + apply of_Z_nonneg. lia.
    + now apply F2.
  - pose proof (raw_principal_class r0 m0 rate_nonneg rate_finite pay_finite
                  x1 (Fin 0) false P1 Z1 eq_refl eq_refl) as (C1 & D1).
    pose proof (raw_principal_class r0 m0 rate_nonneg rate_finite pay_finite
                  x2 (Fin 0) false P2 Z2 eq_refl eq_refl) as (C2 & D2).
    cbn zeta in *. auto.
Qed.

Lemma month_step_mono (i : Z) (v1 v2 v1' v2' : loop_vars) (b1 b2 : bool) :
  related r0 m0 v1 v2 ->
  month_step (PyFloat r0) (PyInt p1) i v1 = Ok (v1', b1) ->
  month_step (PyFloat r0) (PyInt p2) i v2 = Ok (v2', b2) ->
  b2 = false ->
  b1 = false /\ related r0 m0 v1' v2'.
Proof.
  intros (M1 & M2 & B1 & B2 & R1 & R2 & Rel) S1 S2 ->.
  destruct (month_step_balance r0 p1 m0 rate_nonneg rate_finite prepay_nonneg
              pay_finite zero_rate i v1 v1' b1 M1 B1 R1 S1) as (Q1 & K1).
  destruct (month_step_balance r0 p2 m0 rate_nonneg rate_finite ltac:(lia)
              pay_finite zero_rate i v2 v2' false M2 B2 R2 S2) as (Q2 & K2).
  destruct (K2 eq_refl) as (M2' & B2').
  destruct (month_step_inv _ _ _ _ _ _ S1)
    as (ip1 & a1 & pr1 & mp1' & rb1' & y1 & A1 & C1 & U1 & E1 & Hb1).
  destruct (month_step_inv _ _ _ _ _ _ S2)
    as (ip2 & a2 & pr2 & mp2' & rb2' & y2 & A2 & C2 & U2 & E2 & Hb2).
  destruct (accrue_raw _ _ _ _ _ _ _ M1 A1) as (x1 & T1 & -> & -> & F1).
  destruct (accrue_raw _ _ _ _ _ _ _ M2 A2) as (x2 & T2 & -> & -> & F2).
  destruct (balance_as_float r0 _ _ B1 T1) as (P1 & _ & Z1 & _).
  destruct (balance_as_float r0 _ _ B2 T2) as (P2 & _ & Z2 & _).
  assert (X : fle x2 x1 /\ fle (exact (remaining_balance v2)) (exact (remaining_balance v1))).
  { destruct Rel as [E|(z1 & z2 & E1' & E2' & L)].
    - rewrite E in T2. rewrite T1 in T2. inversion T2; subst x2.
      split; [apply fle_refl; now apply positive_not_nan|].
      rewrite E. apply fle_refl. now apply (balance_ok_exact r0).
    - rewrite E1' in T1. rewrite E2' in T2. cbn in T1, T2.
      inversion T1; inversion T2; subst. rewrite E1', E2'. cbn [exact]. auto. }
  destruct X as [X Xe].
  destruct (raw_principal_mono i x1 x2 P1 P2 X Z1 Z2 F1 F2) as (Le & I1 & I2).
  set (a1 := raw_principal r0 m0 p1 i x1) in *.
  set (a2 := raw_principal r0 m0 p2 i x2) in *.
  (* the run with the larger prepayment was not clamped *)
  destruct (py_gt (PyFloat a2) (remaining_balance v2)) eqn:G2.
  { exfalso. destruct C2 as [-> _].
    rewrite (clamp_breaks _ _ _ (balance_ok_py_le r0 _ B2) G2 U2) in Hb2. discriminate. }
  destruct C2 as [-> ->].
  (* hence neither was the other run *)
  destruct (py_gt (PyFloat a1) (remaining_balance v1)) eqn:G1.
  { exfalso. rewrite py_gt_float in G1, G2.
    rewrite (ltb_fle_trans _ _ _ _ Xe G1 Le) in G2. discriminate. }
  destruct C1 as [-> ->].
  unfold py_sub in U1, U2. rewrite py_arith_float_r in U1, U2.
  rewrite T1 in U1. rewrite T2 in U2. cbn [res_bind] in U1, U2.
  inversion U1; subst rb1'. inversion U2; subst rb2'. clear U1 U2.
  assert (L' : fle (sub x2 a2) (sub x1 a1)).
  { apply sub_mono; auto.
    - apply sub_balance_not_nan; auto. apply (fle_not_nan _ _ Le).
    - apply sub_balance_not_nan; auto. apply (fle_not_nan _ _ Le). }
  assert (Pos2 : positive (sub x2 a2)).
  { apply py_le_0_false; [apply (fle_not_nan _ _ L')|]. now rewrite <- Hb2. }
  assert (Hb1' : b1 = false).
  { rewrite Hb1. apply positive_py_le. exact (positive_fle _ _ Pos2 L'). }
  split; [exact Hb1'|].
  destruct (K1 Hb1') as (M1' & B1').
  unfold related. subst v1' v2'. cbn [remaining_balance monthly_payment] in *.
  split; [exact M1'|]. split; [exact M2'|]. split; [exact B1'|].
  split; [exact B2'|]. split; [exact Q1|]. split; [exact Q2|].
  right. exists (sub x1 a1), (sub x2 a2). auto.
Qed.

Lemma schedule_loop_mono (todo : nat) :
  forall (i : Z) (v1 v2 v1' v2' : loop_vars) (s1 s2 : list ui),
    related r0 m0 v1 v2 ->
    schedule_loop (PyFloat r0) (PyInt p1) todo i v1 = (s1, Next v1') ->
    schedule_loop (PyFloat r0) (PyInt p2) todo i v2 = (s2, Next v2') ->
    (List.length (schedule v2') + List.length (schedule v1) <=
     List.length (schedule v1') + List.length (schedule v2))%nat.
Proof.
  induction todo as [|todo IH]; intros i v1 v2 v1' v2' s1 s2 Rel; simpl.
  - intros H1 H2. inversion H1; inversion H2; subst. lia.
  - destruct (month_step (PyFloat r0) (PyInt p1) i v1) as [[u1 b1]|e1] eqn:S1;
      [|discriminate].
    destruct (month_step (PyFloat r0) (PyInt p2) i v2) as [[u2 b2]|e2] eqn:S2;
      [|intros _; destruct b1; discriminate].
    assert (L1 : List.length (schedule u1) = S (List.length (schedule v1))).
    { destruct (month_step_inv _ _ _ _ _ _ S1)
        as (? & ? & ? & ? & ? & ? & _ & _ & _ & -> & _).
      cbn. rewrite length_app. cbn. lia. }
    assert (L2 : List.length (schedule u2) = S (List.length (schedule v2))).
    { destruct (month_step_inv _ _ _ _ _ _ S2)
        as (? & ? & ? & ? & ? & ? & _ & _ & _ & -> & _).
      cbn. rewrite length_app. cbn. lia. }
    destruct b2.
    + intros H1 H2. inversion H2; subst v2'.
      assert (List.length (schedule u1) <= List.length (schedule v1'))%nat; [|lia].
      destruct b1.
      * inversion H1; subst. lia.
      * destruct (schedule_loop_rows _ _ _ _ _ _ _ H1) as (rows & E & _).
        rewrite E, length_app. lia.
    + destruct (month_step_mono i v1 v2 u1 u2 b1 false Rel S1 S2 eq_refl) as (-> & Rel').
      intros H1 H2. pose proof (IH _ _ _ _ _ _ _ Rel' H1 H2). lia.
Qed.

End TwoRuns.

(** ** The claims *)

Section Claims.
Variable float_pow : f64 -> f64 -> res f64.

(** C1 (amended): for every run that builds the schedule, the totals shown
    are the closed form: "Total Repayments" is the monthly payment times
    [loan_term * 12] and "Total Interest" is that total minus the loan
    amount; they are the same for every prepayment and frequency, and every
    row of the schedule but the last carries that monthly payment. *)
Theorem totals_closed_form (w : inputs) (rep : report) :
  snd (run float_pow w) = Some rep ->
  exists mp,
    fst (run float_pow w) =
      [st_metric "Monthly Repayments" mp;
       st_metric "Total Repayments" (total_payments rep);
       st_metric "Total Interest" (total_interest rep)] /\
    py_mul mp (PyInt (loan_term w * 12)) = Ok (total_payments rep) /\
    py_sub (total_payments rep) (PyInt (home_value w - deposit w)) =
      Ok (total_interest rep) /\
    Forall (fun e => payment e = mp) (removelast (schedule (final rep))) /\
    forall w' rep',
      same_loan w w' -> snd (run float_pow w') = Some rep' ->
      total_payments rep' = total_payments rep /\
      total_interest rep' = total_interest rep.
Proof.
  intros H. apply run_Some in H. cbn zeta in H.
  destruct H as (V & HL & mp & C & _ & TP & TI & Loop & _ & _ & Shown).
  exists mp. repeat split; auto.
  - apply schedule_loop_payments in Loop.
    + destruct Loop as [F| ->]; [exact F | constructor].
    + cbn [initial_vars remaining_balance]. rewrite py_le_int.
      apply Z.leb_gt. lia.
    + constructor.
  - destruct H as (E1 & E2 & E3 & E4). apply run_Some in H0. cbn zeta in H0.
    destruct H0 as (_ & _ & mp' & C' & _ & TP' & _).
    rewrite E1, E2, E3, E4 in *. congruence.
  - destruct H as (E1 & E2 & E3 & E4). apply run_Some in H0. cbn zeta in H0.
    destruct H0 as (_ & _ & mp' & C' & _ & TP' & TI' & _).
    rewrite E1, E2, E3, E4 in *. congruence.
Qed.

Lemma run_invalid (w : inputs) :
  validation_errors w <> [] ->
  run float_pow w = (map st_error (validation_errors w), None).
Proof.
  intros H. unfold run, body. rewrite loan_details_cases.
  destruct (validation_errors w) as [|e es]; [congruence|]. reflexivity.
Qed.

(** C3 (amended): validate_inputs returns the message of every one of its
    seven checks that fails, and no other; for a deposit above the home value
    it contains "Deposit cannot exceed home value" and not the loan-amount
    message, which belongs to a later guard: the run stops on the validation
    errors alone. *)
Theorem validation_collects_seven_checks (w : inputs) :
  home_value w < deposit w ->
  In msg_deposit_exceeds (validation_errors w) /\
  ~ In msg_loan_amount (validation_errors w) /\
  run float_pow w = (map st_error (validation_errors w), None) /\
  forall m hv d ir lt pf pp,
    In m (validate_inputs hv d ir lt pf pp) <->
      (py_le hv (PyInt 0) = true /\ m = msg_home_value) \/
      (py_lt d (PyInt 0) = true /\ m = msg_deposit_negative) \/
      (py_gt d hv = true /\ m = msg_deposit_exceeds) \/
      (py_le ir (PyInt 0) = true /\ m = msg_interest_rate) \/
      (py_le lt (PyInt 0) = true /\ m = msg_loan_term) \/
      (py_lt pf (PyInt 0) = true /\ m = msg_processing_fees) \/
      (py_lt pp (PyInt 0) = true /\ m = msg_prepayment).
Proof.
  intros H.
  assert (I : In msg_deposit_exceeds (validation_errors w)).
  { apply in_validate_inputs. do 2 right; left. split; [|reflexivity].
    rewrite py_gt_int. now apply Z.ltb_lt. }
  split; [exact I|]. split; [|split].
  - intros N. apply in_validate_inputs in N.
    repeat destruct N as [N|N]; destruct N as [_ N]; discriminate.
  - apply run_invalid. intros E. rewrite E in I. exact I.
  - intros. apply in_validate_inputs.
Qed.

(** C4 (amended): validate_inputs reports the loan-term message exactly
    when [loan_term <= 0]; for an [int] term, which is what the widget
    returns, that is exactly when the term is below 1. *)
Theorem invalid_term_iff_not_positive (hv d ir lt pf pp : pynum) (z : Z) :
  (In msg_loan_term (validate_inputs hv d ir lt pf pp) <->
     py_le lt (PyInt 0) = true) /\
  (In msg_loan_term (validate_inputs hv d ir (PyInt z) pf pp) <-> z < 1).
Proof.
  assert (G : forall t, In msg_loan_term (validate_inputs hv d ir t pf pp) <->
                        py_le t (PyInt 0) = true).
  { intros t. rewrite in_validate_inputs. split.
    - intros N. repeat destruct N as [N|N]; destruct N as [N E];
        try discriminate; exact N.
    - intros N. do 4 right; left. auto. }
  split; [apply G|]. rewrite G, py_le_int. rewrite Z.leb_le. lia.
Qed.

(** C5: with a monthly rate equal to zero the payment is
    [loan_amount / number_of_payments] (Python's true division of the two
    [int]s, with its exceptions); for 120000 and 12 it is exactly 10000.0. *)
Theorem zero_rate_payment (L n : Z) (r : pynum) :
  py_eq r (PyInt 0) = true ->
  compute_monthly_payment float_pow (PyInt L) r (PyInt n) =
    eval (py_truediv (PyInt L) (PyInt n)) /\
  compute_monthly_payment float_pow (PyInt 120000) r (PyInt 12) =
    ret (PyFloat (Fin (10000 * one_units))).
Proof.
  intros Hr.
  assert (G : forall a b, compute_monthly_payment float_pow (PyInt a) r (PyInt b) =
                          eval (py_truediv (PyInt a) (PyInt b))).
  { intros a b. rewrite compute_monthly_payment_cases. unfold payment_formula.
    rewrite Hr. cbn [py_truediv]. destruct (b =? 0); [reflexivity|].
    destruct (is_finite (of_quot a b)) eqn:F; [|reflexivity].
    cbn [math_isfinite to_float res_bind]. rewrite F. reflexivity. }
  split; [apply G|]. rewrite G. vm_compute. reflexivity.
Qed.

Lemma run_payment_stopped (w : inputs) (L r n : pynum) (shown : list ui) :
  loan_details w = ([], Next (L, r, n)) ->
  compute_monthly_payment float_pow L r n = (shown, Stopped) ->
  run float_pow w = (shown, None).
Proof.
  intros D C. unfold run, body. rewrite D. cbn [bind]. now rewrite C.
Qed.

Lemma run_payment_throw (w : inputs) (L r n : pynum) (shown : list ui) (e : exn) :
  loan_details w = ([], Next (L, r, n)) ->
  compute_monthly_payment float_pow L r n = (shown, Throw e) ->
  run float_pow w = (shown ++ [outer_handler e], None).
Proof.
  intros D C. unfold run, body. rewrite D. cbn [bind]. now rewrite C.
Qed.

Lemma outer_handler_not_metric (e : exn) : ~ is_metric (outer_handler e).
Proof. destruct e; exact (fun f => f). Qed.

(** C6: once the loan details are computed and the rate is not zero, an
    OverflowError of the annuity formula ends the run with the overflow
    message alone, a result that is not finite ends it with the
    invalid-payment message alone, and a run that shows a metric or builds
    the schedule has computed a finite monthly payment. *)
Theorem nonfinite_payment_stops (w : inputs) (L r n : pynum) :
  loan_details w = ([], Next (L, r, n)) ->
  py_eq r (PyInt 0) = false ->
  (annuity float_pow L r n = Raise OverflowError ->
   run float_pow w = ([st_error msg_rate_overflow], None)) /\
  (forall v, annuity float_pow L r n = Ok v -> math_isfinite v = Ok false ->
   run float_pow w = ([st_error msg_invalid_payment], None)) /\
  ((exists u, In u (fst (run float_pow w)) /\ is_metric u) \/
   (exists rep, snd (run float_pow w) = Some rep) ->
   exists mp, annuity float_pow L r n = Ok mp /\ math_isfinite mp = Ok true).
Proof.
  intros D Hr.
  pose proof (compute_monthly_payment_cases float_pow L r n) as C.
  unfold payment_formula in C. rewrite Hr in C. cbn [negb andb] in C.
  split; [|split].
  - intros A. rewrite A in C. cbn [is_overflow] in C.
    exact (run_payment_stopped w L r n _ D C).
  - intros v A F. rewrite A, F in C. exact (run_payment_stopped w L r n _ D C).
  - intros Out. destruct (annuity float_pow L r n) as [v|e] eqn:A.
    + destruct (math_isfinite v) as [[|]|e] eqn:F; [exists v; auto| |]; exfalso.
      * rewrite (run_payment_stopped w L r n _ D C) in Out.
        destruct Out as [(u & [<-|[]] & M)|(rep & R)]; [exact M|discriminate].
      * rewrite (run_payment_throw w L r n _ _ D C) in Out.
        destruct Out as [(u & [<-|[]] & M)|(rep & R)];
          [exact (outer_handler_not_metric _ M)|discriminate].
    + exfalso. destruct (is_overflow e).
      * rewrite (run_payment_stopped w L r n _ D C) in Out.
        destruct Out as [(u & [<-|[]] & M)|(rep & R)]; [exact M|discriminate].
      * rewrite (run_payment_throw w L r n _ _ D C) in Out.
        destruct Out as [(u & [<-|[]] & M)|(rep & R)];
          [exact (outer_handler_not_metric _ M)|discriminate].
Qed.


End Claims.

Section Clamp.
Variable float_pow : f64 -> f64 -> res f64.

(** C7: every row of a schedule that a run builds reports a balance that is
    not below zero; and in every month the new row has the balance
    [max(remaining_balance, 0)], and when the principal before the clamp
    exceeds the balance, the row's principal is that balance and its payment
    is principal plus interest. *)
Theorem balance_never_negative (w : inputs) (rep : report) :
  snd (run float_pow w) = Some rep ->
  Forall (fun e => py_le (PyInt 0) (balance e) = true) (schedule (final rep)) /\
  forall r p i v v' b ip pr0,
    accrue r p i v = Ok (ip, pr0) ->
    month_step r p i v = Ok (v', b) ->
    exists e,
      schedule v' = schedule v ++ [e] /\
      interest e = ip /\
      balance e = py_max (remaining_balance v') (PyInt 0) /\
      py_sub (remaining_balance v) (principal e) = Ok (remaining_balance v') /\
      if py_gt pr0 (remaining_balance v)
      then principal e = remaining_balance v /\
           py_add (principal e) (interest e) = Ok (payment e)
      else principal e = pr0 /\ payment e = monthly_payment v.
Proof.
  intros H. split; [exact (rows_never_negative float_pow w rep H)|].
  intros r p i v v' b ip pr0 A S.
  destruct (month_step_inv _ _ _ _ _ _ S)
    as (ip' & a & pr & mp' & rb' & y & A' & C & U & -> & _).
  rewrite A in A'. inversion A'; subst ip' a.
  eexists. cbn [schedule remaining_balance]. split; [reflexivity|].
  cbn [interest balance principal payment].
  split; [reflexivity|]. split; [reflexivity|]. split; [exact U|].
  destruct (py_gt pr0 (remaining_balance v)); destruct C as [-> C]; auto.
Qed.

End Clamp.

Section Monotonicity.
Variable float_pow : f64 -> f64 -> res f64.

(** C9: of two runs that differ only in the prepayment and both build a
    schedule, the one with the larger prepayment reports the same total
    interest (hence not a larger one) and builds a schedule that is not
    longer. *)
Theorem prepayment_monotone (w : inputs) (p1 p2 : Z) (f : frequency)
    (rep1 rep2 : report) :
  p1 <= p2 ->
  snd (run float_pow (with_prepayment w p1 f)) = Some rep1 ->
  snd (run float_pow (with_prepayment w p2 f)) = Some rep2 ->
  total_interest rep2 = total_interest rep1 /\
  py_gt (total_interest rep2) (total_interest rep1) = false /\
  (List.length (schedule (final rep2)) <= List.length (schedule (final rep1)))%nat.
Proof.
  intros Hp H1 H2.
  apply run_Some in H1, H2. cbn zeta in H1, H2.
  cbn [with_prepayment home_value deposit interest_rate loan_term prepayment
       prepayment_frequency] in H1, H2.
  destruct H1 as (V1 & HL & mp1 & C1 & _ & TP1 & TI1 & Loop1 & _).
  destruct H2 as (V2 & _ & mp2 & C2 & _ & TP2 & TI2 & Loop2 & _).
  rewrite C1 in C2. inversion C2; subst mp2. clear C2.
  assert (E : total_interest rep2 = total_interest rep1) by congruence.
  split; [exact E|]. split; [rewrite E; apply py_gt_irrefl|].
  destruct (validation_passed _ V1) as (_ & _ & Hir & Hlt & _ & Hp1).
  cbn [with_prepayment home_value deposit interest_rate loan_term prepayment] in *.
  apply compute_monthly_payment_Next in C1. destruct C1 as (_ & PF & Fin).
  destruct (payment_facts float_pow (home_value w - deposit w)
              (loan_term w * 12) (interest_rate w) mp1 HL ltac:(lia) Hir PF Fin)
    as (m0 & -> & Fm & Nr & Fr & Zr).
  assert (Rel : related (monthly_rate (interest_rate w)) m0
                  (initial_vars (PyInt (home_value w - deposit w)) (PyFloat m0))
                  (initial_vars (PyInt (home_value w - deposit w)) (PyFloat m0))).
  { unfold related, rows_nonneg. cbn [initial_vars monthly_payment
      remaining_balance schedule balance_ok].
    repeat split; auto. }
  pose proof (schedule_loop_mono (monthly_rate (interest_rate w)) m0 p1 p2
                Nr Fr Hp1 Hp Fm Zr _ 1 _ _ _ _ _ _ Rel Loop1 Loop2) as M.
  cbn [initial_vars schedule List.length] in M. lia.
Qed.

End Monotonicity.

Section Frequency.
Variable float_pow : f64 -> f64 -> res f64.

Lemma run_frequency (w : inputs) (f f' : frequency) (pa pa' : pynum) :
  adjust_prepayment (PyInt (prepayment w)) f = Ok pa ->
  adjust_prepayment (PyInt (prepayment w)) f' = Ok pa' ->
  outcome (run float_pow (with_frequency w f)) =
  outcome (run float_pow (with_frequency w f')).
Proof.
  intros A A'. unfold outcome, run, body.
  change (loan_details (with_frequency w f)) with (loan_details w).
  change (loan_details (with_frequency w f')) with (loan_details w).
  cbn [prepayment prepayment_frequency with_frequency].
  rewrite A, A'.
  destruct (loan_details w) as [s0 [[[L r] n]|e|]]; cbn [bind]; try reflexivity.
  destruct (compute_monthly_payment float_pow L r n) as [s1 [mp|e|]]; cbn [bind];
    try reflexivity.
  cbn [eval ret bind app].
  destruct (py_mul mp n) as [tp|e]; cbn [eval ret bind app]; try reflexivity.
  destruct (py_sub tp L) as [ti|e]; cbn [eval ret bind app show]; try reflexivity.
  destruct (range_count n) as [c|e]; cbn [eval ret bind app]; try reflexivity.
  destruct (schedule_loop r (PyInt (prepayment w)) c 1 _) as [s2 [vars|e|]];
    cbn [bind ret app]; reflexivity.
Qed.

(** C10: for a prepayment that the widget can return, the runs with the
    Yearly and with the Monthly frequency show the same elements and end with
    the same totals and the same schedule. *)
Theorem frequency_never_used (w : inputs) :
  prepayment w <= max_int_input ->
  outcome (run float_pow (with_frequency w Yearly)) =
  outcome (run float_pow (with_frequency w Monthly)).
Proof.
  intros Hp.
  destruct (adjust_prepayment_ok (prepayment w) Yearly Hp) as [pa A].
  destruct (adjust_prepayment_ok (prepayment w) Monthly Hp) as [pa' A'].
  exact (run_frequency w Yearly Monthly pa pa' A A').
Qed.

End Frequency.

(** ** The claims on concrete inputs *)

(** C1, counterexample: with a yearly prepayment of 400,000 the two-year
    loan is paid off in month 12, and the reported total (24 monthly
    payments) is not the sum of the twelve payments of the schedule. *)
Lemma totals_differ_from_schedule_sum :
  exists rep total,
    snd (run pow_integral (demo 2 400000 Yearly)) = Some rep /\
    List.length (schedule (final rep)) = 12%nat /\
    sum_of_payments (schedule (final rep)) = Ok total /\
    total <> total_payments rep.
Proof.
  eexists. eexists. split; [vm_compute; reflexivity|].
  split; [vm_compute; reflexivity|]. split; [vm_compute; reflexivity|].
  apply pynum_eqb_false. vm_compute. reflexivity.
Qed.

(** C1, the amended claim on the two-year loan with a yearly prepayment of
    400,000. *)
Lemma totals_closed_form_witness :
  exists rep mp,
    snd (run pow_integral (demo 2 400000 Yearly)) = Some rep /\
    py_mul mp (PyInt 24) = Ok (total_payments rep) /\
    Forall (fun e => payment e = mp) (removelast (schedule (final rep))).
Proof.
  destruct (snd (run pow_integral (demo 2 400000 Yearly))) as [rep|] eqn:E.
  - destruct (totals_closed_form pow_integral _ rep E) as (mp & _ & T & _ & F & _).
    exists rep, mp. split; [reflexivity|]. split; [exact T|exact F].
  - exfalso. revert E. vm_compute. discriminate.
Defined.

(** C2, the code at the failing input: with the Monthly frequency and a
    prepayment of 50,000, the principal of month 1 is the payment minus the
    interest, without the prepayment. *)
Lemma monthly_prepayment_not_applied :
  exists rep e rows,
    snd (run pow_integral (demo 1 50000 Monthly)) = Some rep /\
    schedule (final rep) = e :: rows /\ month e = 1 /\
    py_sub (payment e) (interest e) = Ok (principal e) /\
    py_lt (principal e) (PyInt 50000) = true.
Proof.
  eexists. eexists. eexists. split; [vm_compute; reflexivity|].
  split; [vm_compute; reflexivity|]. 
  split; [vm_compute; reflexivity|]. 
  split; vm_compute; reflexivity.
Qed.

(** C3, counterexample: a deposit above the home value is reported by
    validate_inputs and by the run as the only error; the loan-amount message
    is not shown. *)
Lemma deposit_exceeds_reports_one_error :
  home_value demo_deposit_exceeds < deposit demo_deposit_exceeds /\
  validation_errors demo_deposit_exceeds = [msg_deposit_exceeds] /\
  run pow_integral demo_deposit_exceeds =
    ([st_error msg_deposit_exceeds], None) /\
  ~ (In (st_error msg_deposit_exceeds)
       (fst (run pow_integral demo_deposit_exceeds)) /\
     In (st_error msg_loan_amount)
       (fst (run pow_integral demo_deposit_exceeds))).
Proof.
  split; [reflexivity|]. split; [vm_compute; reflexivity|].
  split; [vm_compute; reflexivity|].
  replace (fst (run pow_integral demo_deposit_exceeds))
    with [st_error msg_deposit_exceeds] by (vm_compute; reflexivity).
  intros [_ [H|[]]]. discriminate H.
Qed.

(** C3, the amended claim on a deposit of twice the home value. *)
Lemma validation_collects_seven_checks_witness :
  home_value demo_deposit_exceeds < deposit demo_deposit_exceeds /\
  In msg_deposit_exceeds (validation_errors demo_deposit_exceeds) /\
  ~ In msg_loan_amount (validation_errors demo_deposit_exceeds) /\
  run pow_integral demo_deposit_exceeds =
    (map st_error (validation_errors demo_deposit_exceeds), None).
Proof.
  assert (H : home_value demo_deposit_exceeds < deposit demo_deposit_exceeds)
    by reflexivity.
  destruct (validation_collects_seven_checks pow_integral demo_deposit_exceeds H)
    as (A & B & C & _).
  split; [exact H|]. split; [exact A|]. split; [exact B|exact C].
Defined.

(** C4, counterexample: a term of half a year is below 1 and
    validate_inputs does not report it. *)
Lemma fractional_term_accepted :
  let half := PyFloat (dyadic 1 (-1)) in
  py_lt half (PyInt 1) = true /\
  ~ In msg_loan_term
      (validate_inputs (PyInt 1000000) (PyInt 400000) (PyFloat (dyadic 35 (-2)))
         half (PyInt 10000) (PyInt 0)).
Proof.
  cbn zeta. split; [vm_compute; reflexivity|].
  replace (validate_inputs _ _ _ _ _ _) with (@nil string)
    by (vm_compute; reflexivity).
  intros [].
Qed.

(** C5 at the rate [+0.0]. *)
Lemma zero_rate_payment_witness :
  py_eq (PyFloat (Fin 0)) (PyInt 0) = true /\
  compute_monthly_payment pow_integral (PyInt 120000) (PyFloat (Fin 0)) (PyInt 12) =
    ret (PyFloat (Fin (10000 * one_units))).
Proof.
  split; [reflexivity|].
  exact (proj2 (zero_rate_payment pow_integral 120000 12 (PyFloat (Fin 0)) eq_refl)).
Defined.

(** C6 at an interest rate of 2^1000 percent: the power overflows and the
    run shows the overflow message only. *)
Lemma nonfinite_payment_stops_witness :
  let L := PyInt 600000 in
  let r := PyFloat (monthly_rate (dyadic 1 1000)) in
  let n := PyInt 12 in
  loan_details demo_huge_rate = ([], Next (L, r, n)) /\
  py_eq r (PyInt 0) = false /\
  annuity pow_integral L r n = Raise OverflowError /\
  run pow_integral demo_huge_rate = ([st_error msg_rate_overflow], None).
Proof.
  intros L r n.
  assert (D : loan_details demo_huge_rate = ([], Next (L, r, n)))
    by (vm_compute; reflexivity).
  assert (Hr : py_eq r (PyInt 0) = false) by (vm_compute; reflexivity).
  assert (A : annuity pow_integral L r n = Raise OverflowError)
    by (vm_compute; reflexivity).
  split; [exact D|]. split; [exact Hr|]. split; [exact A|].
  exact (proj1 (nonfinite_payment_stops pow_integral demo_huge_rate L r n D Hr) A).
Defined.

(** C7 on the one-year loan with a prepayment of 50,000. *)
Lemma balance_never_negative_witness :
  exists rep,
    snd (run pow_integral (demo 1 50000 Yearly)) = Some rep /\
    Forall (fun e => py_le (PyInt 0) (balance e) = true) (schedule (final rep)).
Proof.
  destruct (snd (run pow_integral (demo 1 50000 Yearly))) as [rep|] eqn:E.
  - exists rep. split; [reflexivity|].
    exact (proj1 (balance_never_negative pow_integral _ rep E)).
  - exfalso. revert E. vm_compute. discriminate.
Defined.


(** C9 on the one-year loan, without prepayment and with 50,000. *)
Lemma prepayment_monotone_witness :
  exists rep1 rep2,
    0 <= 50000 /\
    snd (run pow_integral (with_prepayment (demo 1 0 Yearly) 0 Yearly)) = Some rep1 /\
    snd (run pow_integral (with_prepayment (demo 1 0 Yearly) 50000 Yearly)) = Some rep2 /\
    total_interest rep2 = total_interest rep1 /\
    (List.length (schedule (final rep2)) <= List.length (schedule (final rep1)))%nat.
Proof.
  destruct (snd (run pow_integral (with_prepayment (demo 1 0 Yearly) 0 Yearly)))
    as [rep1|] eqn:E1.
  - destruct (snd (run pow_integral (with_prepayment (demo 1 0 Yearly) 50000 Yearly)))
      as [rep2|] eqn:E2.
    + exists rep1, rep2. split; [lia|]. split; [reflexivity|]. split; [reflexivity|].
      destruct (prepayment_monotone pow_integral (demo 1 0 Yearly) 0 50000 Yearly
                  rep1 rep2 ltac:(lia) E1 E2) as (T & _ & L).
      split; assumption.
    + exfalso. revert E2. vm_compute. discriminate.
  - exfalso. revert E1. vm_compute. discriminate.
Defined.

(** C10 on the one-year loan with a prepayment of 50,000. *)
Lemma frequency_never_used_witness :
  prepayment (demo 1 50000 Yearly) <= max_int_input /\
  outcome (run pow_integral (with_frequency (demo 1 50000 Yearly) Yearly)) =
  outcome (run pow_integral (with_frequency (demo 1 50000 Yearly) Monthly)).
Proof.
  assert (H : prepayment (demo 1 50000 Yearly) <= max_int_input)
    by (vm_compute; discriminate).
  split; [exact H|]. exact (frequency_never_used pow_integral _ H).
Defined.

(** * Further properties of the code *)

(** ** The inputs that pass the validation *)

Lemma append_if_nil (c : bool) (m : string) (errors : list string) :
  append_if c m errors = [] <-> c = false /\ errors = [].
Proof.
  unfold append_if. destruct c.
  - split; [|intros [H _]; discriminate H].
    destruct errors; discriminate.
  - tauto.
Qed.

Lemma validate_inputs_nil (hv d ir lt pf pp : pynum) :
  validate_inputs hv d ir lt pf pp = [] <->
  py_le hv (PyInt 0) = false /\ py_lt d (PyInt 0) = false /\
  py_gt d hv = false /\ py_le ir (PyInt 0) = false /\
  py_le lt (PyInt 0) = false /\ py_lt pf (PyInt 0) = false /\
  py_lt pp (PyInt 0) = false.
Proof.
  unfold validate_inputs. cbv zeta. rewrite !append_if_nil. tauto.
Qed.

Lemma py_le_float_zero (x : f64) :
  py_le (PyFloat x) (PyInt 0) = false <-> positive x \/ x = NaN.
Proof.
  unfold py_le, py_compare, positive, F64.ltb. cbn [exact Z.mul].
  destruct x as [| | | |k]; cbn [F64.compare units]; try (split; [auto|reflexivity]).
  - split; [discriminate|]. intros [H|H]; discriminate H.
  - split; [discriminate|]. intros [H|H]; discriminate H.
  - rewrite (Z.compare_antisym k 0). destruct (k ?= 0); cbn [CompOpp];
      split; auto; try discriminate; intros [H|H]; discriminate H.
Qed.

(** X1: the inputs that pass the validation. *)
Theorem validation_accepts_iff (w : inputs) :
  validation_errors w = [] <->
  0 < home_value w /\ 0 <= deposit w <= home_value w /\
  (positive (interest_rate w) \/ interest_rate w = NaN) /\
  0 < loan_term w /\ 0 <= processing_fees w /\ 0 <= prepayment w.
Proof.
  unfold validation_errors. rewrite validate_inputs_nil.
  rewrite !py_le_int, !py_lt_int, py_gt_int, py_le_float_zero.
  rewrite !Z.leb_gt, !Z.ltb_ge. tauto.
Qed.

(** ** The guards of a run and the processing fees *)

Lemma schedule_loop_shown (r p : pynum) (todo : nat) (i : Z) (v : loop_vars)
    (shown : list ui) (f : flow loop_vars) :
  schedule_loop r p todo i v = (shown, f) ->
  (shown = [] /\ exists v', f = Next v') \/
  (exists e, shown = [st_error_exn msg_schedule_error e] /\ f = Stopped).
Proof.
  revert i v. induction todo as [|todo IH]; intros i v; simpl.
  - intros H. inversion H. left. eauto.
  - destruct (month_step r p i v) as [[v1 [|]]|e].
    + intros H. inversion H. left. eauto.
    + apply IH.
    + intros H. inversion H. right. eauto.
Qed.

Section RunCases.
Variable float_pow : f64 -> f64 -> res f64.

Lemma compute_monthly_payment_shown (L r n : pynum) (shown : list ui)
    (f : flow pynum) :
  compute_monthly_payment float_pow L r n = (shown, f) ->
  (shown = [] /\ f <> Stopped) \/
  (f = Stopped /\
   (shown = [st_error msg_rate_overflow] \/ shown = [st_error msg_invalid_payment])).
Proof.
  rewrite compute_monthly_payment_cases.
  destruct (payment_formula float_pow L r n) as [v|e].
  - destruct (math_isfinite v) as [[|]|e]; intros H; inversion H; subst;
      try (left; split; [reflexivity|discriminate]).
    right. auto.
  - destruct (negb (py_eq r (PyInt 0)) && is_overflow e);
      intros H; inversion H; subst.
    + right. auto.
    + left. split; [reflexivity|discriminate].
Qed.

Lemma run_valid_shown (w : inputs) :
  validation_errors w = [] -> deposit w < home_value w ->
  Forall late_element (fst (run float_pow w)).
Proof.
  intros V HL. unfold run, body. rewrite loan_details_cases, V.
  destruct (Z.leb_spec (home_value w - deposit w) 0) as [Hle|_]; [lia|].
  rewrite bind_ret.
  assert (Handler : forall e, late_element (outer_handler e)).
  { intros e. do 3 right. left. eauto. }
  assert (Metrics : forall l a, late_element (st_metric l a)).
  { intros l a. do 2 right. left. exact I. }
  assert (Sched : forall e, late_element (st_error_exn msg_schedule_error e)).
  { intros e. do 4 right. eauto. }
  assert (Over : late_element (st_error msg_rate_overflow))
    by (left; reflexivity).
  assert (Inval : late_element (st_error msg_invalid_payment))
    by (right; left; reflexivity).
  destruct (compute_monthly_payment float_pow _ _ _) as [s1 f1] eqn:C.
  apply compute_monthly_payment_shown in C.
  assert (Late1 : Forall late_element s1).
  { destruct C as [[-> _]|[_ [-> | ->]]]; auto. }
  destruct f1 as [mp|e|]; cbn [bind fst].
  2:{ apply Forall_app. auto. }
  2:{ exact Late1. }
  destruct C as [[-> _]|[C _]]; [|discriminate C].
  destruct (adjust_prepayment _ _) as [pa|e]; cbn [eval ret bind app fst];
    [|auto].
  destruct (py_mul mp _) as [tp|e]; cbn [eval ret bind app fst]; [|auto].
  destruct (py_sub tp _) as [ti|e]; cbn [eval ret bind app fst show]; [|auto].
  destruct (range_count _) as [c|e]; cbn [eval ret bind app fst]; [|auto 6].
  destruct (schedule_loop _ _ c 1 _) as [s2 f2] eqn:S.
  apply schedule_loop_shown in S.
  destruct S as [(-> & v' & ->)|(e & -> & ->)]; cbn [bind ret app fst]; auto 6.
Qed.

Lemma late_element_not_loan_amount : ~ late_element (st_error msg_loan_amount).
Proof.
  intros [H|[H|[H|[[e H]|[e H]]]]]; try discriminate H; try exact H.
  destruct e; discriminate H.
Qed.

Lemma run_loan_amount_guard (w : inputs) :
  validation_errors w = [] -> deposit w = home_value w ->
  run float_pow w = ([st_error msg_loan_amount], None).
Proof.
  intros V E. unfold run, body. rewrite loan_details_cases, V.
  destruct (Z.leb_spec (home_value w - deposit w) 0); [reflexivity|lia].
Qed.

(** X2: the loan-amount guard (lines 67-70) fires exactly for a valid input
    whose deposit equals the home value, and the run then shows that error
    alone. *)
Theorem loan_amount_error_iff (w : inputs) :
  (In (st_error msg_loan_amount) (fst (run float_pow w)) <->
   validation_errors w = [] /\ deposit w = home_value w) /\
  (validation_errors w = [] -> deposit w = home_value w ->
   run float_pow w = ([st_error msg_loan_amount], None)).
Proof.
  pose proof (run_loan_amount_guard w) as G.
  split; [|exact G]. split.
  - intros H. destruct (validation_errors w) as [|m ms] eqn:V.
    + split; [reflexivity|].
      destruct (validation_passed w V) as (_ & Hd & _).
      destruct (Z.eq_dec (deposit w) (home_value w)) as [E|N]; [exact E|].
      exfalso. apply late_element_not_loan_amount.
      pose proof (run_valid_shown w V ltac:(lia)) as F.
      rewrite Forall_forall in F. apply F. exact H.
    + exfalso. rewrite run_invalid in H by (rewrite V; discriminate).
      cbn [fst] in H. apply in_map_iff in H. destruct H as (m' & E & M).
      inversion E; subst m'. unfold validation_errors in M.
      apply in_validate_inputs in M.
      repeat destruct M as [M|M]; destruct M as [_ M]; discriminate M.
  - intros [V E]. rewrite (G V E). left. reflexivity.
Qed.

(** X3: the processing fees are validated and then never read: two runs that
    differ only in a (non-negative) fee show and compute the same. *)
Theorem processing_fees_never_used (w : inputs) (fees1 fees2 : Z) :
  0 <= fees1 -> 0 <= fees2 ->
  run float_pow (with_fees w fees1) = run float_pow (with_fees w fees2).
Proof.
  intros H1 H2.
  assert (V : validation_errors (with_fees w fees1) =
              validation_errors (with_fees w fees2)).
  { unfold validation_errors, validate_inputs.
    cbn [with_fees home_value deposit interest_rate loan_term processing_fees
         prepayment].
    rewrite !(py_lt_int fees1), !(py_lt_int fees2).
    destruct (Z.ltb_spec fees1 0); [lia|]. destruct (Z.ltb_spec fees2 0); [lia|].
    reflexivity. }
  unfold run, body. rewrite !loan_details_cases, V. reflexivity.
Qed.

End RunCases.

(** X3, an instance: the processing fees on the example loan: none, or 10,000. *)
Lemma processing_fees_never_used_witness :
  0 <= 0 /\ 0 <= 10000 /\
  run pow_integral (with_fees (demo 1 0 Yearly) 0) =
  run pow_integral (with_fees (demo 1 0 Yearly) 10000).
Proof.
  split; [lia|]. split; [lia|].
  apply (processing_fees_never_used pow_integral (demo 1 0 Yearly) 0 10000); lia.
Defined.

(** ** The schedule loop never raises *)

Lemma of_Z_finite (z : Z) :
  Z.abs z <= 12 * max_int_input -> is_finite (of_Z z) = true.
Proof.
  intros Hz. unfold of_Z. pose proof one_units_pos.
  apply round_finite; [nia|lia|].
  pose proof (round_mag_mono (Z.abs z * one_units)
                (12 * max_int_input * one_units) 1 ltac:(lia) ltac:(nia)) as M.
  assert (round_mag (12 * max_int_input * one_units) 1 <= max_units).
  { apply Z.leb_le. vm_compute. reflexivity. }
  lia.
Qed.

Lemma to_float_int (z : Z) :
  Z.abs z <= 12 * max_int_input -> to_float (PyInt z) = Ok (of_Z z).
Proof. intros Hz. cbn [to_float]. now rewrite of_Z_finite. Qed.

Lemma res_bind_ret {A B : Type} (a : A) (k : A -> res B) :
  res_bind (Ok a) k = k a.
Proof. reflexivity. Qed.

Lemma to_float_1 : to_float (PyInt 1) = Ok (of_Z 1).
Proof. apply to_float_int; unfold max_int_input; lia. Qed.

Lemma py_add_1_float (x : f64) :
  py_add (PyInt 1) (PyFloat x) = Ok (PyFloat (add (of_Z 1) x)).
Proof. unfold py_add. rewrite py_arith_float_r, to_float_1. reflexivity. Qed.

Lemma py_add_to_float (a : pynum) (x y : f64) :
  to_float a = Ok x -> py_add a (PyFloat y) = Ok (PyFloat (add x y)).
Proof. intros H. unfold py_add. rewrite py_arith_float_r, H. reflexivity. Qed.

Lemma py_sub_to_float (a : pynum) (x y : f64) :
  to_float a = Ok x -> py_sub a (PyFloat y) = Ok (PyFloat (sub x y)).
Proof. intros H. unfold py_sub. rewrite py_arith_float_r, H. reflexivity. Qed.

Lemma py_mul_to_float (a : pynum) (x y : f64) :
  to_float a = Ok x -> py_mul a (PyFloat y) = Ok (PyFloat (mul x y)).
Proof. intros H. unfold py_mul. rewrite py_arith_float_r, H. reflexivity. Qed.

Lemma py_mul_float_12 (x : f64) :
  py_mul (PyFloat x) (PyInt 12) = Ok (PyFloat (mul x (of_Z 12))).
Proof. unfold py_mul. rewrite py_arith_float_l, to_float_12. reflexivity. Qed.

Lemma py_mul_floats (x y : f64) :
  py_mul (PyFloat x) (PyFloat y) = Ok (PyFloat (mul x y)).
Proof. reflexivity. Qed.

Lemma month_number_finite (i : Z) :
  0 <= i <= 12 * max_int_input -> is_finite (of_quot i 12) = true.
Proof.
  intros Hi. unfold of_quot. pose proof one_units_pos.
  change (Z.abs 12) with 12.
  apply round_finite; [nia|lia|].
  pose proof (round_mag_mono (Z.abs i * one_units)
                (12 * max_int_input * one_units) 12 ltac:(lia) ltac:(nia)) as M.
  assert (round_mag (12 * max_int_input * one_units) 12 <= max_units).
  { apply Z.leb_le. vm_compute. reflexivity. }
  lia.
Qed.

Lemma math_ceil_finite (x : f64) :
  is_finite x = true -> exists y, math_ceil (PyFloat x) = Ok (PyInt y).
Proof. destruct x; try discriminate; cbn [math_ceil]; eauto. Qed.

Lemma py_arith_floats (iop : Z -> Z -> Z) (fop : f64 -> f64 -> f64)
    (a b : pynum) (x y : f64) :
  to_float a = Ok x -> to_float b = Ok y ->
  exists v, py_arith iop fop a b = Ok v /\
            (v = PyFloat (fop x y) \/ exists n, v = PyInt n /\ exists m, a = PyInt m).
Proof.
  intros A B. destruct b as [n|b].
  - destruct a as [m|a].
    + eexists. split; [reflexivity|]. right. eauto.
    + rewrite py_arith_float_l, B. cbn [res_bind]. cbn [to_float] in A.
      inversion A; subst. eexists. split; [reflexivity|]. auto.
  - rewrite py_arith_float_r, A. cbn [res_bind]. cbn [to_float] in B.
    inversion B; subst. eexists. split; [reflexivity|]. auto.
Qed.

(** One iteration cannot raise when the loop variables are doubles, the
    prepayment converts to a double and the month number is in range. *)
Lemma month_step_ok (r0 : f64) (p0 i : Z) (v : loop_vars) :
  float_state v ->
  Z.abs p0 <= 12 * max_int_input ->
  0 <= i <= 12 * max_int_input ->
  exists v' b,
    month_step (PyFloat r0) (PyInt p0) i v = Ok (v', b) /\
    (b = false -> float_state v').
Proof.
  intros [[m0 Hm] [x Hx]] Hp Hi. unfold month_step, accrue.
  rewrite Hm. unfold py_mul at 1. rewrite py_arith_float_r, Hx.
  cbn [res_bind]. unfold py_sub at 1. cbn [py_arith to_float res_bind].
  set (ip := mul x r0). set (pr1 := sub m0 ip).
  assert (P : exists pr0,
             (if py_gt (PyInt p0) (PyInt 0) && (i mod 12 =? 0)
              then py_add (PyFloat pr1) (PyInt p0)
              else Ok (PyFloat pr1)) = Ok (PyFloat pr0)).
  { destruct (py_gt (PyInt p0) (PyInt 0) && (i mod 12 =? 0)); [|eauto].
    unfold py_add. rewrite py_arith_float_l, to_float_int by exact Hp.
    cbn [res_bind]. eauto. }
  destruct P as [pr0 ->]. cbn [res_bind].
  assert (Q : exists q y, py_truediv (PyInt i) (PyInt 12) = Ok (PyFloat q) /\
                          math_ceil (PyFloat q) = Ok (PyInt y)).
  { cbn [py_truediv]. change (12 =? 0) with false. cbn match.
    rewrite month_number_finite by exact Hi.
    destruct (math_ceil_finite (of_quot i 12) (month_number_finite i Hi)) as [y Y].
    eauto. }
  destruct Q as (q & y & Q1 & Q2).
  destruct (py_gt (PyFloat pr0) (remaining_balance v)).
  - unfold py_add. rewrite py_arith_float_r, Hx. cbn [res_bind].
    destruct (py_arith_floats Z.sub sub _ _ x x Hx Hx) as (rb' & S & _).
    unfold py_sub. rewrite S. cbn [res_bind]. rewrite Q1. cbn [res_bind].
    rewrite Q2. cbn [res_bind]. do 2 eexists. split; [reflexivity|].
    intros _. split; cbn [monthly_payment remaining_balance]; [eauto|].
    destruct (remaining_balance v) as [z|y0]; cbn [py_arith] in S.
    + inversion S; subst. rewrite Z.sub_diag.
      rewrite to_float_int by (unfold max_int_input; lia). eauto.
    + cbn [to_float res_bind] in S. inversion S; subst. cbn [to_float]. eauto.
  - cbn [res_bind]. unfold py_sub. rewrite py_arith_float_r, Hx. cbn [res_bind].
    rewrite Q1. cbn [res_bind]. rewrite Q2. cbn [res_bind].
    do 2 eexists. split; [reflexivity|].
    intros _. split; cbn [monthly_payment remaining_balance to_float]; eauto.
Qed.

(** The loop runs to its end or to its [break]; it shows nothing. *)
Lemma schedule_loop_ok (r0 : f64) (p0 : Z) (todo : nat) (i : Z) (v : loop_vars) :
  float_state v ->
  Z.abs p0 <= 12 * max_int_input ->
  0 <= i -> i + Z.of_nat todo <= 12 * max_int_input + 1 ->
  exists v', schedule_loop (PyFloat r0) (PyInt p0) todo i v = ([], Next v').
Proof.
  revert i v. induction todo as [|todo IH]; intros i v Fs Hp Hi Hn.
  - cbn [schedule_loop]. unfold ret. eauto.
  - cbn [schedule_loop].
    destruct (month_step_ok r0 p0 i v Fs Hp ltac:(lia)) as (v1 & b & -> & Fs').
    destruct b; [unfold ret; eauto|].
    apply IH; auto; lia.
Qed.

Section Progress.
Variable float_pow : f64 -> f64 -> res f64.

Lemma run_payment_next (w : inputs) (mp : pynum) :
  in_widget_range w ->
  validation_errors w = [] -> deposit w < home_value w ->
  compute_monthly_payment float_pow (PyInt (home_value w - deposit w))
    (PyFloat (monthly_rate (interest_rate w))) (PyInt (loan_term w * 12)) =
    ([], Next mp) ->
  exists tp ti rep,
    run float_pow w =
      ([st_metric "Monthly Repayments" mp;
        st_metric "Total Repayments" tp;
        st_metric "Total Interest" ti], Some rep).
Proof.
  intros (Rh & Rt & Rp) V HL C.
  destruct (validation_passed w V) as (Hh & Hd & Hir & Hlt & _ & Hp).
  pose proof C as C'. apply compute_monthly_payment_Next in C'.
  destruct C' as (_ & PF & Fin).
  destruct (payment_facts float_pow (home_value w - deposit w) (loan_term w * 12)
              (interest_rate w) mp ltac:(lia) ltac:(lia) Hir PF Fin)
    as (m0 & -> & _).
  unfold max_int_input in *.
  unfold run, body. rewrite loan_details_cases, V.
  destruct (Z.leb_spec (home_value w - deposit w) 0) as [Hle|_]; [lia|].
  rewrite bind_ret, C. cbn [bind].
  destruct (adjust_prepayment_ok (prepayment w) (prepayment_frequency w) Rp)
    as [pa ->].
  cbn [eval ret bind app]. unfold py_mul, py_sub.
  rewrite py_arith_float_l, to_float_int by (unfold max_int_input; lia).
  cbn [res_bind eval ret bind app].
  rewrite py_arith_float_l, to_float_int by (unfold max_int_input; lia).
  cbn [res_bind eval ret bind app show range_count].
  destruct (schedule_loop_ok (monthly_rate (interest_rate w)) (prepayment w)
              (Z.to_nat (loan_term w * 12)) 1
              {| remaining_balance := PyInt (home_value w - deposit w);
                 monthly_payment := PyFloat m0;
                 schedule := [] |}) as [v' ->].
  - split; cbn [monthly_payment remaining_balance]; [eauto|].
    rewrite to_float_int by (unfold max_int_input; lia). eauto.
  - unfold max_int_input. lia.
  - lia.
  - unfold max_int_input. lia.
  - cbn [bind ret app]. eauto.
Qed.

Lemma outer_handler_not_schedule_error (e e' : exn) :
  outer_handler e <> st_error_exn msg_schedule_error e'.
Proof. destruct e; discriminate. Qed.

(** X4: for inputs in the range of the widgets the schedule loop never raises:
    the message of its handler (line 147) is never shown, and a run that
    shows a metric also builds the schedule. *)
Theorem schedule_loop_never_fails (w : inputs) :
  in_widget_range w ->
  (forall e, ~ In (st_error_exn msg_schedule_error e) (fst (run float_pow w))) /\
  ((exists u, In u (fst (run float_pow w)) /\ is_metric u) ->
   exists rep, snd (run float_pow w) = Some rep).
Proof.
  intros R.
  destruct (validation_errors w) as [|m ms] eqn:V.
  2:{ rewrite run_invalid by (rewrite V; discriminate). cbn [fst]. split.
      - intros e H. apply in_map_iff in H. destruct H as (? & H & _).
        discriminate H.
      - intros (u & H & M). apply in_map_iff in H. destruct H as (? & <- & _).
        destruct M. }
  destruct (validation_passed w V) as (_ & Hd & _).
  destruct (Z.eq_dec (deposit w) (home_value w)) as [E|N].
  { rewrite (run_loan_amount_guard float_pow w V E). cbn [fst]. split.
    - intros e [H|[]]. discriminate H.
    - intros (u & [<-|[]] & M). destruct M. }
  destruct (compute_monthly_payment float_pow (PyInt (home_value w - deposit w))
              (PyFloat (monthly_rate (interest_rate w)))
              (PyInt (loan_term w * 12))) as [s1 f1] eqn:C.
  pose proof (compute_monthly_payment_shown float_pow _ _ _ _ _ C) as Sh.
  assert (D : loan_details w =
              ([], Next (PyInt (home_value w - deposit w),
                         PyFloat (monthly_rate (interest_rate w)),
                         PyInt (loan_term w * 12)))).
  { rewrite loan_details_cases, V.
    destruct (Z.leb_spec (home_value w - deposit w) 0); [lia|reflexivity]. }
  destruct f1 as [mp|e|].
  - destruct Sh as [[-> _]|[Sh _]]; [|discriminate Sh].
    destruct (run_payment_next w mp R V ltac:(lia) C) as (tp & ti & rep & ->).
    cbn [fst snd]. split; [|eauto].
    intros e H. repeat destruct H as [H|H]; try discriminate H. destruct H.
  - rewrite (run_payment_throw float_pow w _ _ _ _ _ D C). cbn [fst].
    destruct Sh as [[-> _]|[Sh _]]; [|discriminate Sh]. cbn [app]. split.
    + intros e' [H|[]]. exact (outer_handler_not_schedule_error _ _ H).
    + intros (u & [<-|[]] & M). destruct (outer_handler_not_metric _ M).
  - rewrite (run_payment_stopped float_pow w _ _ _ _ D C). cbn [fst].
    destruct Sh as [[_ Sh]|[_ [-> | ->]]]; [now destruct Sh| |]; split;
      try (intros e [H|[]]; discriminate H);
      intros (u & [<-|[]] & M); destruct M.
Qed.

End Progress.

(** X4, an instance: the example loan is in the range of the widgets. *)
Lemma schedule_loop_never_fails_witness :
  in_widget_range (demo 1 50000 Yearly) /\
  forall e, ~ In (st_error_exn msg_schedule_error e)
              (fst (run pow_integral (demo 1 50000 Yearly))).
Proof.
  assert (R : in_widget_range (demo 1 50000 Yearly)).
  { unfold in_widget_range, max_int_input. cbn [demo home_value loan_term prepayment].
    lia. }
  split; [exact R|].
  exact (proj1 (schedule_loop_never_fails pow_integral _ R)).
Defined.

(** ** The rows of the schedule *)

Lemma rne_div_scale (c n d : Z) :
  0 < c -> 0 < d -> rne_div (c * n) (c * d) = rne_div n d.
Proof.
  intros Hc Hd. unfold rne_div.
  pose proof (Z.div_eucl_eq n d ltac:(lia)) as E1.
  pose proof (Z.mod_pos_bound n d Hd) as B1.
  pose proof (Z.div_mul_cancel_l n d c ltac:(lia) ltac:(lia)) as Q.
  pose proof (Z.mul_mod_distr_l n d c ltac:(lia) ltac:(lia)) as M.
  unfold Z.div, Z.modulo in *.
  destruct (Z.div_eucl (c * n) (c * d)) as [q' r'].
  destruct (Z.div_eucl n d) as [q r]. cbn [fst snd] in *. subst q' r'.
  replace (2 * (c * r)) with (c * (2 * r)) by ring.
  destruct (Z.compare_spec (c * (2 * r)) (c * d)) as [A|A|A],
    (Z.compare_spec (2 * r) d) as [B|B|B]; try reflexivity; exfalso; nia.
Qed.

Lemma round_mag_scale (c n d : Z) :
  0 < c -> 0 < d -> round_mag (c * n) (c * d) = round_mag n d.
Proof.
  intros Hc Hd. rewrite !round_mag_eq. unfold ulp_exp.
  rewrite Z.div_mul_cancel_l by lia.
  rewrite <- Z.mul_assoc. rewrite rne_div_scale; [reflexivity|lia|].
  apply Z.mul_pos_pos; [lia|]. apply Z.pow_pos_nonneg; lia.
Qed.

(** An integer of at most 53 bits times a power of two is a double. *)
Lemma round_mag_exact (a e : Z) :
  0 <= a <= 2 ^ 53 -> 0 <= e -> round_mag (a * 2 ^ e) 1 = a * 2 ^ e.
Proof.
  intros Ha He.
  destruct (Z.eq_dec a 0) as [->|Na]; [apply round_mag_0; lia|].
  destruct (Z_le_gt_dec (2 ^ 52) a) as [Hbig|Hsmall].
  { apply round_mag_on_grid; lia. }
  pose proof (Z.log2_spec a ltac:(lia)) as L.
  pose proof (Z.log2_nonneg a) as L0.
  assert (L52 : Z.log2 a < 52).
  { apply Z.log2_lt_pow2; lia. }
  set (s := 52 - Z.log2 a) in *.
  destruct (Z_le_gt_dec e s) as [Hes|Hes].
  - replace (a * 2 ^ e) with ((a * 2 ^ e) * 2 ^ 0) by (rewrite Z.pow_0_r; ring).
    apply round_mag_on_grid; [lia| |lia].
    split; [apply Z.mul_nonneg_nonneg; [lia|apply Z.pow_nonneg; lia]|].
    assert (a * 2 ^ e < 2 ^ (Z.log2 a + 1) * 2 ^ e).
    { apply Z.mul_lt_mono_pos_r; [apply Z.pow_pos_nonneg; lia|lia]. }
    rewrite <- Z.pow_add_r in H by lia.
    assert (2 ^ (Z.log2 a + 1 + e) <= 2 ^ 53).
    { apply Z.pow_le_mono_r; lia. }
    lia.
  - replace (a * 2 ^ e) with ((a * 2 ^ s) * 2 ^ (e - s)).
    2:{ rewrite <- Z.mul_assoc, <- Z.pow_add_r by lia. f_equal. f_equal. lia. }
    assert (Lo : 2 ^ 52 <= a * 2 ^ s).
    { replace (2 ^ 52) with (2 ^ Z.log2 a * 2 ^ s).
      - apply Z.mul_le_mono_nonneg_r; [apply Z.pow_nonneg; lia|lia].
      - rewrite <- Z.pow_add_r by lia. f_equal. lia. }
    assert (Hi : a * 2 ^ s < 2 ^ 53).
    { replace (2 ^ 53) with (2 ^ (Z.log2 a + 1) * 2 ^ s).
      - apply Z.mul_lt_mono_pos_r; [apply Z.pow_pos_nonneg; lia|lia].
      - rewrite <- Z.pow_add_r by lia. f_equal. lia. }
    apply round_mag_on_grid; lia.
Qed.

Lemma one_units_pow : one_units = 2 ^ 1074.
Proof. reflexivity. Qed.

Lemma round_mag_int (z : Z) :
  0 <= z <= 2 ^ 53 -> round_mag (z * one_units) 1 = z * one_units.
Proof. intros Hz. rewrite one_units_pow. apply round_mag_exact; lia. Qed.

(** [ceil(i / 12)] in doubles is the integer ceiling, for every month number
    of at most 52 bits. *)
Lemma ceil_twelfth (i : Z) :
  0 < i < 2 ^ 52 ->
  py_truediv (PyInt i) (PyInt 12) = Ok (PyFloat (of_quot i 12)) /\
  math_ceil (PyFloat (of_quot i 12)) = Ok (PyInt ((i + 11) / 12)).
Proof.
  intros Hi.
  assert (Fin : is_finite (of_quot i 12) = true).
  { apply month_number_finite. unfold max_int_input. lia. }
  split.
  { cbn [py_truediv]. change (12 =? 0) with false. cbn match. now rewrite Fin. }
  pose proof one_units_pos as U.
  set (q := i / 12). set (r := i mod 12).
  assert (E : i = 12 * q + r) by (apply Z.div_mod; lia).
  assert (Hr : 0 <= r < 12) by (apply Z.mod_pos_bound; lia).
  assert (Hq : 0 <= q) by (apply Z.div_pos; lia).
  assert (Hq' : 16 * q + 16 <= 2 ^ 53).
  { assert (q < 2 ^ 52 / 12 + 1).
    { apply Z.lt_succ_r. apply Z.div_le_mono; lia. }
    change (2 ^ 52 / 12) with 375299968947541 in H. lia. }
  unfold of_quot in *. change (Z.abs 12) with 12 in *.
  replace (xorb (i <? 0) (12 <? 0)) with false in *
    by (destruct (Z.ltb_spec i 0); [lia|reflexivity]).
  rewrite Z.abs_eq in * by lia.
  set (k := round_mag (i * one_units) 12) in *.
  assert (Up : k <= (q + 1) * one_units).
  { rewrite <- (round_mag_int (q + 1)) by lia.
    rewrite <- (round_mag_scale 12 ((q + 1) * one_units) 1) by lia.
    rewrite Z.mul_1_r. apply round_mag_mono; nia. }
  assert (Lo : r = 0 /\ k = q * one_units \/ 0 < r /\ q * one_units < k).
  { destruct (Z.eq_dec r 0) as [R0|R0].
    - left. split; [exact R0|]. unfold k. rewrite E, R0, Z.add_0_r.
      rewrite <- Z.mul_assoc.
      rewrite <- (Z.mul_1_r 12) at 2. rewrite round_mag_scale by lia.
      apply round_mag_int. lia.
    - right. split; [lia|].
      assert (G : (16 * q + 1) * 2 ^ 1070 <= k).
      { rewrite <- (round_mag_exact (16 * q + 1) 1070) by lia.
        rewrite <- (round_mag_scale 12 ((16 * q + 1) * 2 ^ 1070) 1) by lia.
        rewrite Z.mul_1_r. apply round_mag_mono; [lia|].
        split; [apply Z.mul_nonneg_nonneg; [lia|]; apply Z.mul_nonneg_nonneg; lia|].
        rewrite one_units_pow.
        replace (2 ^ 1074) with (16 * 2 ^ 1070) by reflexivity.
        assert (0 < 2 ^ 1070) by (apply Z.pow_pos_nonneg; lia). nia. }
      rewrite one_units_pow.
      replace (2 ^ 1074) with (16 * 2 ^ 1070) by reflexivity.
      assert (0 < 2 ^ 1070) by (apply Z.pow_pos_nonneg; lia). nia. }
  assert (Kpos : 0 < k) by (destruct Lo as [[? ->]|[? ?]]; nia).
  revert Fin.
  generalize (round_spec false (i * one_units) 12 ltac:(nia) ltac:(lia)).
  fold k. generalize (round false (i * one_units) 12) as x.
  intros x P Fin. destruct P as [Big|Z0|Kb]; [discriminate Fin|lia|].
  cbn [math_ceil]. unfold ceil. cbn [units].
  do 2 f_equal.
  assert (T : (i + 11) / 12 = if r =? 0 then q else q + 1).
  { destruct (Z.eqb_spec r 0) as [R0|R0].
    - symmetry. apply Z.div_unique with (r := 11); lia.
    - symmetry. apply Z.div_unique with (r := r - 1); lia. }
  rewrite T. destruct Lo as [[R0 Kq]|[R0 Kq]].
  - rewrite R0, Kq. cbn [Z.eqb].
    rewrite <- Z.mul_opp_l, Z.div_mul by lia. lia.
  - destruct (Z.eqb_spec r 0); [lia|].
    assert (- k / one_units = - (q + 1)); [|lia].
    symmetry. apply Z.div_unique with (r := (q + 1) * one_units - k); lia.
Qed.

Lemma month_step_row (r p : pynum) (i : Z) (v v' : loop_vars) (b : bool) :
  month_step r p i v = Ok (v', b) ->
  exists e q ip pr0,
    schedule v' = schedule v ++ [e] /\
    month e = i /\
    py_truediv (PyInt i) (PyInt 12) = Ok q /\
    math_ceil q = Ok (year e) /\
    accrue r p i v = Ok (ip, pr0) /\
    interest e = ip.
Proof.
  unfold month_step. intros H.
  apply res_bind_Ok in H. destruct H as ([ip pr0] & E1 & H).
  apply res_bind_Ok in H. destruct H as ([pr mp'] & E2 & H).
  apply res_bind_Ok in H. destruct H as (rb' & E3 & H).
  apply res_bind_Ok in H. destruct H as (q & E4 & H).
  apply res_bind_Ok in H. destruct H as (y & E5 & H).
  inversion H; subst. clear H.
  eexists. exists q, ip, pr0. cbn [schedule month year interest]. auto 8.
Qed.

Lemma months_from_bounds (rows : list entry) (i : Z) :
  months_from i rows ->
  Forall (fun e => i <= month e < i + Z.of_nat (List.length rows)) rows.
Proof.
  revert i. induction rows as [|e rows IH]; intros i; [constructor|].
  cbn [months_from List.length]. intros [M R]. constructor; [lia|].
  apply IH in R. revert R. apply Forall_impl. intros e'. lia.
Qed.

Section Rows.
Variable float_pow : f64 -> f64 -> res f64.

(** X5: the rows of a run, for every prepayment: there are at most
    [loan_term * 12] of them, numbered from 1 without a gap, and the Year of
    month [i] is the integer ceiling of [i / 12]: the division in doubles
    does not misplace a month. *)
Theorem schedule_rows_numbered (w : inputs) (rep : report) :
  loan_term w * 12 < 2 ^ 52 ->
  snd (run float_pow w) = Some rep ->
  let rows := schedule (final rep) in
  Z.of_nat (List.length rows) <= loan_term w * 12 /\
  months_from 1 rows /\
  Forall (fun e => year e = PyInt ((month e + 11) / 12)) rows.
Proof.
  intros Hn H rows. apply run_Some in H. cbn zeta in H.
  destruct H as (V & HL & mp & _ & _ & _ & _ & Loop & _).
  destruct (validation_passed w V) as (_ & _ & _ & Hlt & _).
  destruct (schedule_loop_rows _ _ _ _ _ _ _ Loop) as (rs & E & M & _ & C).
  cbn in E. subst rs. fold rows in M, C.
  assert (Len : Z.of_nat (List.length rows) <= loan_term w * 12).
  { destruct C as [C|(C & _)]; lia. }
  split; [exact Len|]. split; [exact M|].
  apply (schedule_loop_invariant _ _
           (fun _ v => Forall (fun e => 0 < month e < 2 ^ 52 ->
                                        year e = PyInt ((month e + 11) / 12))
                         (schedule v))
           (fun v => Forall (fun e => 0 < month e < 2 ^ 52 ->
                                      year e = PyInt ((month e + 11) / 12))
                       (schedule v))) in Loop.
  - fold rows in Loop. apply months_from_bounds in M.
    rewrite Forall_forall in *. intros e He. apply Loop; [exact He|].
    specialize (M e He). lia.
  - intros i v v' b Inv St.
    destruct (month_step_row _ _ _ _ _ _ St) as (e & q & _ & _ & -> & Me & Q & Y & _).
    assert (G : Forall (fun e => 0 < month e < 2 ^ 52 ->
                                 year e = PyInt ((month e + 11) / 12))
                  (schedule v ++ [e])).
    { apply Forall_app. split; [exact Inv|]. constructor; [|constructor].
      rewrite Me. intros Hi. destruct (ceil_twelfth i Hi) as [Q' Y'].
      rewrite Q' in Q. inversion Q; subst q. rewrite Y' in Y.
      inversion Y. reflexivity. }
    auto.
  - constructor.
  - constructor.
Qed.

(** X6: the interest of every row is a number that is not negative. *)
Theorem interest_never_negative (w : inputs) (rep : report) :
  snd (run float_pow w) = Some rep ->
  Forall (fun e => py_le (PyInt 0) (interest e) = true) (schedule (final rep)).
Proof.
  intros H. apply run_Some in H. cbn zeta in H.
  destruct H as (V & HL & mp & C & _ & _ & _ & Loop & _).
  destruct (validation_passed w V) as (_ & _ & Hir & Hlt & _ & Hp).
  apply compute_monthly_payment_Next in C. destruct C as (_ & PF & Fin).
  destruct (payment_facts float_pow (home_value w - deposit w)
              (loan_term w * 12) (interest_rate w) mp HL ltac:(lia) Hir PF Fin)
    as (m0 & -> & Fm & Nr & Fr & Zr).
  set (r0 := monthly_rate (interest_rate w)) in *.
  set (Q := fun v => Forall (fun e => py_le (PyInt 0) (interest e) = true)
                       (schedule v)).
  apply (schedule_loop_invariant (PyFloat r0) (PyInt (prepayment w))
           (fun _ v => monthly_payment v = PyFloat m0 /\
                       balance_ok r0 (remaining_balance v) /\ rows_nonneg v /\
                       Q v)
           Q) in Loop; auto.
  - intros i v v' b (I1 & I2 & I3 & I4) St.
    destruct (month_step_balance r0 (prepayment w) m0 Nr Fr Hp Fm Zr i v v' b
                I1 I2 I3 St) as (Q1 & Q2).
    assert (G : Q v').
    { destruct (month_step_row _ _ _ _ _ _ St)
        as (e & q & ip & pr0 & E & _ & _ & _ & A & Ie).
      unfold Q. rewrite E. apply Forall_app. split; [exact I4|].
      constructor; [|constructor]. rewrite Ie.
      destruct (accrue_inv r0 (prepayment w) m0 i v ip pr0 I1 A)
        as (x & X & -> & _).
      destruct (balance_as_float r0 _ x I2 X) as (Px & _ & Zx & _).
      assert (N : nonneg (mul x r0)).
      { apply mul_positive_nonneg; auto.
        intros -> Z0. specialize (Zx Z0). discriminate Zx. }
      exact N. }
    split; [exact G|]. intros Hb. destruct (Q2 Hb). auto.
  - repeat split; auto; constructor.
  - constructor.
Qed.

End Rows.

(** The one-year loan with a prepayment of 50,000 builds its schedule. *)
Lemma demo_schedule_built :
  exists rep, snd (run pow_integral (demo 1 50000 Yearly)) = Some rep.
Proof.
  assert (R : in_widget_range (demo 1 50000 Yearly)).
  { unfold in_widget_range, max_int_input.
    cbn [demo home_value loan_term prepayment]. lia. }
  assert (V : validation_errors (demo 1 50000 Yearly) = [])
    by (vm_compute; reflexivity).
  assert (C : exists mp,
             compute_monthly_payment pow_integral (PyInt (1000000 - 400000))
               (PyFloat (monthly_rate (dyadic 35 (-2)))) (PyInt (1 * 12)) =
               ([], Next mp)) by (eexists; vm_compute; reflexivity).
  destruct C as [mp C].
  destruct (run_payment_next pow_integral (demo 1 50000 Yearly) mp R V
              ltac:(cbn [demo home_value deposit]; lia) C) as (tp & ti & rep & E).
  exists rep. rewrite E. reflexivity.
Qed.

(** X5, an instance: the rows of the one-year loan with a prepayment of 50,000. *)
Lemma schedule_rows_numbered_witness :
  exists rep,
    loan_term (demo 1 50000 Yearly) * 12 < 2 ^ 52 /\
    snd (run pow_integral (demo 1 50000 Yearly)) = Some rep /\
    months_from 1 (schedule (final rep)) /\
    Forall (fun e => year e = PyInt ((month e + 11) / 12)) (schedule (final rep)).
Proof.
  destruct demo_schedule_built as [rep E].
  exists rep. split; [reflexivity|]. split; [exact E|].
  destruct (schedule_rows_numbered pow_integral (demo 1 50000 Yearly) rep
              eq_refl E) as (_ & M & Y).
  split; assumption.
Defined.

(** X6, an instance: the interest column of the same loan. *)
Lemma interest_never_negative_witness :
  exists rep,
    snd (run pow_integral (demo 1 50000 Yearly)) = Some rep /\
    Forall (fun e => py_le (PyInt 0) (interest e) = true) (schedule (final rep)).
Proof.
  destruct demo_schedule_built as [rep E].
  exists rep. split; [exact E|].
  exact (interest_never_negative pow_integral _ rep E).
Defined.

(** ** A rate below the resolution of the doubles *)

Lemma of_Z_1 : of_Z 1 = Fin one_units.
Proof. vm_compute. reflexivity. Qed.

Section TinyRate.
Variable float_pow : f64 -> f64 -> res f64.

Lemma annuity_divides_by_zero (l nn : Z) (r0 : f64) :
  Z.abs l <= 12 * max_int_input -> Z.abs nn <= 12 * max_int_input ->
  add (of_Z 1) r0 = of_Z 1 ->
  float_pow (of_Z 1) (of_Z nn) = Ok (of_Z 1) ->
  annuity float_pow (PyInt l) (PyFloat r0) (PyInt nn) = Raise ZeroDivisionError.
Proof.
  intros Hl Hn Hone Hpow.
  pose proof (to_float_int l Hl) as Tl. pose proof (to_float_int nn Hn) as Tn.
  assert (P : py_pow float_pow (PyFloat (of_Z 1)) (PyInt nn) = Ok (PyFloat (of_Z 1))).
  { unfold py_pow. rewrite Tn.
    change (to_float (PyFloat (of_Z 1))) with (Ok (of_Z 1)).
    rewrite res_bind_ret, res_bind_ret, Hpow, res_bind_ret. reflexivity. }
  assert (D : py_sub (PyFloat (of_Z 1)) (PyInt 1) = Ok (PyFloat (Fin 0))).
  { unfold py_sub. rewrite py_arith_float_l, to_float_1, res_bind_ret.
    rewrite of_Z_1, sub_self by (pose proof one_units_pos; lia). reflexivity. }
  unfold annuity.
  rewrite py_add_1_float, res_bind_ret, Hone, P, res_bind_ret.
  rewrite py_mul_floats, res_bind_ret.
  rewrite (py_mul_to_float _ _ _ Tl), res_bind_ret, res_bind_ret.
  rewrite P, res_bind_ret, D, res_bind_ret. reflexivity.
Qed.

(** X7: a positive rate so small that [1 + monthly_interest_rate == 1.0] makes
    the denominator of the annuity formula zero: the run ends in the handler
    of line 195, with the division-by-zero message alone. *)
Theorem tiny_rate_divides_by_zero (w : inputs) :
  in_widget_range w ->
  validation_errors w = [] ->
  deposit w < home_value w ->
  py_eq (PyFloat (monthly_rate (interest_rate w))) (PyInt 0) = false ->
  add (of_Z 1) (monthly_rate (interest_rate w)) = of_Z 1 ->
  float_pow (of_Z 1) (of_Z (loan_term w * 12)) = Ok (of_Z 1) ->
  run float_pow w = ([st_error msg_zero_division], None).
Proof.
  intros (Rh & Rt & _) V HL Hr Hone Hpow.
  destruct (validation_passed w V) as (Hh & Hd & _ & Hlt & _).
  unfold max_int_input in *.
  assert (D : loan_details w =
              ([], Next (PyInt (home_value w - deposit w),
                         PyFloat (monthly_rate (interest_rate w)),
                         PyInt (loan_term w * 12)))).
  { rewrite loan_details_cases, V.
    destruct (Z.leb_spec (home_value w - deposit w) 0); [lia|reflexivity]. }
  apply (run_payment_throw float_pow w _ _ _ [] ZeroDivisionError D).
  rewrite compute_monthly_payment_cases. unfold payment_formula. rewrite Hr.
  rewrite annuity_divides_by_zero; auto; unfold max_int_input; lia.
Qed.

End TinyRate.

(** X7, an instance: the example loan at a rate of 2^-50 percent. *)
Lemma tiny_rate_divides_by_zero_witness :
  in_widget_range demo_tiny_rate /\
  validation_errors demo_tiny_rate = [] /\
  py_eq (PyFloat (monthly_rate (interest_rate demo_tiny_rate))) (PyInt 0) = false /\
  add (of_Z 1) (monthly_rate (interest_rate demo_tiny_rate)) = of_Z 1 /\
  run pow_integral demo_tiny_rate = ([st_error msg_zero_division], None).
Proof.
  assert (R : in_widget_range demo_tiny_rate).
  { unfold in_widget_range, max_int_input.
    cbn [demo_tiny_rate home_value loan_term prepayment]. lia. }
  assert (V : validation_errors demo_tiny_rate = []) by (vm_compute; reflexivity).
  assert (Hr : py_eq (PyFloat (monthly_rate (interest_rate demo_tiny_rate)))
                 (PyInt 0) = false) by (vm_compute; reflexivity).
  assert (Hone : add (of_Z 1) (monthly_rate (interest_rate demo_tiny_rate)) = of_Z 1)
    by (vm_compute; reflexivity).
  split; [exact R|]. split; [exact V|]. split; [exact Hr|]. split; [exact Hone|].
  apply (tiny_rate_divides_by_zero pow_integral demo_tiny_rate R V);
    [reflexivity|exact Hr|exact Hone|vm_compute; reflexivity].
Defined.

(** ** The comparison with renting *)

(** X8: the rent comparison keeps its exceptions to itself: whatever the inputs,
    no exception leaves the block, and the block stops the script exactly
    when the rent increase is negative, after showing that error alone. *)
Theorem rent_comparison_contained (loan_term rent : Z) (rent_increase : f64)
    (total_payments : pynum) :
  (forall e, snd (rent_comparison loan_term rent rent_increase total_payments)
               <> Throw e) /\
  (snd (rent_comparison loan_term rent rent_increase total_payments) = Stopped <->
   py_lt (PyFloat rent_increase) (PyInt 0) = true) /\
  (py_lt (PyFloat rent_increase) (PyInt 0) = true ->
   rent_comparison loan_term rent rent_increase total_payments =
     ([st_error msg_rent_increase], Stopped)).
Proof.
  unfold rent_comparison, metric_f.
  destruct (py_lt (PyFloat rent_increase) (PyInt 0)).
  { cbn. repeat split; auto; discriminate. }
  rewrite bind_ret.
  assert (G : forall (m : script unit) (h : exn -> ui),
             snd m <> Stopped ->
             let out := try_except m any_exception (fun e => show (h e)) in
             (forall e, snd out <> Throw e) /\ snd out <> Stopped).
  { intros [s [a|e|]] h N; cbn; [split; [discriminate|exact N]| |contradiction].
    split; discriminate. }
  match goal with
  | |- context [try_except ?m _ _] =>
      assert (N : snd m <> Stopped)
  end.
  { destruct (rent_loop _ _ _) as [[total cur]|e]; cbn [eval bind ret fst snd];
      [|discriminate].
    destruct (to_float total) as [x|e]; cbn [eval bind ret fst snd show app];
      [|discriminate].
    destruct (py_sub total total_payments) as [s|e];
      cbn [eval bind ret fst snd show app]; [|discriminate].
    destruct (to_float s) as [y|e]; cbn [eval bind ret fst snd show app];
      discriminate. }
  destruct (G _ (st_error_exn msg_rent_error) N) as [G1 G2].
  split; [exact G1|]. split; [|discriminate].
  split; [intros H; contradiction|discriminate].
Qed.

Lemma round_false_fin (n d : Z) :
  round_mag n d <= max_units -> round false n d = Fin (round_mag n d).
Proof.
  intros H. unfold round, pack.
  destruct (Z.ltb_spec max_units (round_mag n d)); [lia|].
  destruct (Z.eqb_spec (round_mag n d) 0) as [E|E]; [now rewrite E|reflexivity].
Qed.

Lemma mul_nonneg (x y : f64) :
  nonneg x -> nonneg y ->
  ~ (x = PInf /\ is_zero y) -> ~ (is_zero x /\ y = PInf) ->
  nonneg (mul x y).
Proof.
  intros Hx Hy N1 N2. pose proof one_units_pos.
  apply nonneg_cases in Hx, Hy.
  destruct Hx as [->|[->|(a & -> & Ha)]], Hy as [->|[->|(b & -> & Hb)]].
  - reflexivity.
  - exfalso. apply N1. split; reflexivity.
  - cbn [mul units signbit]. destruct (Z.eqb_spec b 0) as [->|Hb0].
    + exfalso. apply N1. split; reflexivity.
    + replace (b <? 0) with false by lia. reflexivity.
  - exfalso. apply N2. split; reflexivity.
  - cbn [mul units signbit xorb Z.abs Z.mul]. apply round_nonneg; lia.
  - cbn [mul units signbit Z.abs Z.mul]. unfold round.
    rewrite round_mag_0 by lia. destruct (xorb _ _); reflexivity.
  - cbn [mul units signbit]. destruct (Z.eqb_spec a 0) as [->|Ha0].
    + exfalso. apply N2. split; reflexivity.
    + replace (a <? 0) with false by lia. reflexivity.
  - cbn [mul units signbit]. rewrite Z.mul_0_r. unfold round.
    rewrite round_mag_0 by lia. destruct (xorb _ _); reflexivity.
  - cbn [mul units signbit].
    replace (a <? 0) with false by lia. replace (b <? 0) with false by lia.
    apply round_nonneg; lia.
Qed.

Lemma positive_not_zero (x : f64) : positive x -> ~ is_zero x.
Proof.
  intros P Z0. apply positive_cases in P. apply is_zero_cases in Z0.
  destruct P as [->|(k & -> & Hk)], Z0 as [Z0|Z0]; try discriminate Z0.
  inversion Z0. lia.
Qed.

Lemma is_zero_not_inf (x : f64) : is_zero x -> x <> PInf.
Proof. intros Z0 ->. discriminate Z0. Qed.

(** The yearly factor of a valid rent increase is a finite double, at least
    1. *)
Lemma rent_factor_class (ri : f64) :
  finite_nonneg ri ->
  positive (rent_factor ri) /\ is_finite (rent_factor ri) = true /\
  fle (of_Z 1) (rent_factor ri).
Proof.
  intros (Hn & Hf & Hb). pose proof one_units_pos as U.
  unfold rent_factor. rewrite of_Z_100, of_Z_1.
  assert (D : exists m, 0 <= m /\ m + one_units <= max_units /\
                        (div ri (Fin (100 * one_units)) = Fin m \/
                         m = 0 /\ div ri (Fin (100 * one_units)) = NZero)).
  { apply nonneg_cases in Hn.
    destruct Hn as [->|[->|(k & -> & Hk)]]; [discriminate Hf| |].
    - exists 0. split; [lia|]. split; [apply Z.leb_le; vm_compute; reflexivity|].
      right. split; [reflexivity|].
      cbn [div units signbit].
      destruct (Z.eqb_spec (100 * one_units) 0); [lia|].
      replace (100 * one_units <? 0) with false by lia.
      change (Z.abs 0) with 0. rewrite Z.mul_0_l.
      unfold round. rewrite round_mag_0 by lia. reflexivity.
    - cbn [bounded] in Hb. cbn [div units signbit].
      destruct (Z.eqb_spec (100 * one_units) 0); [lia|].
      replace (k <? 0) with false by lia.
      replace (100 * one_units <? 0) with false by lia. cbn [xorb].
      rewrite !Z.abs_eq by lia.
      set (m := round_mag (k * one_units) (100 * one_units)).
      assert (M : m <= round_mag (max_units * one_units) (100 * one_units)).
      { apply round_mag_mono; nia. }
      assert (M0 : round_mag (max_units * one_units) (100 * one_units) + one_units
                   <= max_units).
      { apply Z.leb_le. vm_compute. reflexivity. }
      exists m. split; [apply round_mag_nonneg; nia|]. split; [lia|].
      left. apply round_false_fin. lia. }
  destruct D as (m & Hm & Hmax & D).
  assert (A : add (Fin one_units) (div ri (Fin (100 * one_units))) =
              round false (one_units + m) 1).
  { destruct D as [-> | [-> ->]]; cbn [add units].
    - replace (one_units + m <? 0) with false by lia.
      now rewrite Z.abs_eq by lia.
    - rewrite Z.add_0_r. replace (one_units <? 0) with false by lia.
      now rewrite Z.abs_eq by lia. }
  rewrite A.
  assert (Lo : one_units <= round_mag (one_units + m) 1).
  { rewrite <- (Z.mul_1_l one_units) at 1.
    rewrite <- (round_mag_int 1) by lia.
    apply round_mag_mono; lia. }
  assert (Hi : round_mag (one_units + m) 1 <= max_units).
  { apply round_mag_le_max. lia. }
  rewrite round_false_fin by exact Hi.
  split; [apply positive_cases; right; eexists; split; [reflexivity|lia]|].
  split; [reflexivity|].
  apply fle_rank. repeat split; try discriminate. right. cbn [tier units].
  split; [reflexivity|lia].
Qed.

Lemma nonneg_py_lt (x : f64) : nonneg x -> py_lt (PyFloat x) (PyInt 0) = false.
Proof.
  intros H. apply nonneg_cases in H. unfold py_lt, py_compare.
  cbn [exact Z.mul].
  destruct H as [->|[->|(k & -> & Hk)]]; cbn [F64.compare units]; try reflexivity.
  destruct (Z.compare_spec k 0); try reflexivity. lia.
Qed.

Lemma rent_year_first (ri : f64) (rent : Z) :
  Z.abs rent <= 12 * max_int_input ->
  rent_year (PyFloat ri) (PyInt 0, PyInt rent) =
    Ok (PyInt (rent * 12), PyFloat (mul (of_Z rent) (rent_factor ri))).
Proof.
  intros Hr. unfold rent_year, rent_factor.
  change (py_mul (PyInt rent) (PyInt 12)) with (Ok (PyInt (rent * 12))).
  rewrite res_bind_ret.
  change (py_add (PyInt 0) (PyInt (rent * 12))) with (Ok (PyInt (rent * 12))).
  rewrite res_bind_ret, truediv_100, res_bind_ret, py_add_1_float, res_bind_ret.
  rewrite (py_mul_to_float _ _ _ (to_float_int rent Hr)), res_bind_ret.
  reflexivity.
Qed.

Lemma rent_year_float (ri : f64) (total : pynum) (x y : f64) :
  to_float total = Ok x ->
  rent_year (PyFloat ri) (total, PyFloat y) =
    Ok (PyFloat (add x (mul y (of_Z 12))), PyFloat (mul y (rent_factor ri))).
Proof.
  intros Hx. unfold rent_year, rent_factor.
  rewrite py_mul_float_12, res_bind_ret.
  rewrite (py_add_to_float total x _ Hx), res_bind_ret.
  rewrite truediv_100, res_bind_ret, py_add_1_float, res_bind_ret.
  rewrite py_mul_floats, res_bind_ret. reflexivity.
Qed.

(** The loop after its first year: both variables are doubles, or the total
    is still the [int] of the first year. *)
Lemma rent_loop_float (ri : f64) (I : f64 -> f64 -> Prop) :
  (forall x y, I x y -> I (add x (mul y (of_Z 12))) (mul y (rent_factor ri))) ->
  forall (years : nat) (total : pynum) (x y : f64),
    to_float total = Ok x -> I x y ->
    exists total' x' y',
      rent_loop (PyFloat ri) years (total, PyFloat y) = Ok (total', PyFloat y') /\
      to_float total' = Ok x' /\ I x' y' /\
      (years = O /\ total' = total \/ total' = PyFloat x').
Proof.
  intros Step. induction years as [|years IH]; intros total x y Hx Hi.
  - exists total, x, y. cbn [rent_loop].
    split; [reflexivity|]. split; [exact Hx|]. split; [exact Hi|]. left. auto.
  - cbn [rent_loop]. rewrite (rent_year_float ri total x y Hx), res_bind_ret.
    destruct (IH (PyFloat (add x (mul y (of_Z 12)))) _ _ eq_refl (Step x y Hi))
      as (total' & x' & y' & L & T & Hi' & C).
    exists total', x', y'. split; [exact L|]. split; [exact T|].
    split; [exact Hi'|]. right.
    destruct C as [[_ ->]| ->]; [|reflexivity].
    cbn [to_float] in T. inversion T. reflexivity.
Qed.

Lemma of_Z_12_class : positive (of_Z 12) /\ is_finite (of_Z 12) = true.
Proof. rewrite of_Z_12. split; reflexivity. Qed.

Lemma rent_step_nonneg (ri : f64) (x y : f64) :
  finite_nonneg ri ->
  nonneg x /\ nonneg y ->
  nonneg (add x (mul y (of_Z 12))) /\ nonneg (mul y (rent_factor ri)).
Proof.
  intros Hri [Hx Hy].
  destruct (rent_factor_class ri Hri) as (Pc & Fc & _).
  destruct of_Z_12_class as [P12 F12].
  split.
  - apply add_nonneg; [exact Hx|].
    apply mul_nonneg; [exact Hy|now apply positive_nonneg| |].
    + intros [_ Z0]. exact (positive_not_zero _ P12 Z0).
    + intros [_ E]. rewrite E in F12. discriminate F12.
  - apply mul_nonneg; [exact Hy|now apply positive_nonneg| |].
    + intros [_ Z0]. exact (positive_not_zero _ Pc Z0).
    + intros [_ E]. rewrite E in Fc. discriminate Fc.
Qed.

Lemma rent_comparison_shown (lt rent : Z) (ri tp : f64) (total : pynum)
    (cur : pynum) (x : f64) :
  nonneg ri ->
  rent_loop (PyFloat ri) (Z.to_nat lt) (PyInt 0, PyInt rent) = Ok (total, cur) ->
  to_float total = Ok x ->
  exists savings,
    rent_comparison lt rent ri (PyFloat tp) =
      ([st_metric "Total Rent Paid" total;
        st_metric "Savings by Buying" savings], Next tt) /\
    py_sub total (PyFloat tp) = Ok savings.
Proof.
  intros Hn L T. unfold rent_comparison, metric_f.
  rewrite nonneg_py_lt by exact Hn. rewrite bind_ret, L.
  cbn [eval ret bind fst app]. rewrite T. cbn [eval ret bind fst app show].
  unfold py_sub. rewrite py_arith_float_r, T.
  cbn [res_bind eval ret bind app to_float show try_except]. eauto.
Qed.

(** X9: for a rent in the range of the widget and a valid rent increase the
    block shows its two metrics and nothing else, and the total rent is not
    negative. *)
Theorem rent_total_shown (lt rent : Z) (ri tp : f64) :
  0 <= rent <= max_int_input ->
  finite_nonneg ri ->
  exists total savings,
    rent_comparison lt rent ri (PyFloat tp) =
      ([st_metric "Total Rent Paid" total;
        st_metric "Savings by Buying" savings], Next tt) /\
    py_le (PyInt 0) total = true /\
    py_sub total (PyFloat tp) = Ok savings.
Proof.
  intros Hr Hri. unfold max_int_input in Hr.
  assert (Hn : nonneg ri) by apply Hri.
  assert (G : exists total cur x,
             rent_loop (PyFloat ri) (Z.to_nat lt) (PyInt 0, PyInt rent) =
               Ok (total, cur) /\
             to_float total = Ok x /\ py_le (PyInt 0) total = true).
  { destruct (Z.to_nat lt) as [|years].
    - exists (PyInt 0), (PyInt rent), (of_Z 0). cbn [rent_loop].
      split; [reflexivity|].
      split; [apply to_float_int; unfold max_int_input; lia|reflexivity].
    - cbn [rent_loop]. rewrite rent_year_first by (unfold max_int_input; lia).
      rewrite res_bind_ret.
      destruct (rent_factor_class ri Hri) as (Pc & Fc & _).
      assert (Y : nonneg (mul (of_Z rent) (rent_factor ri))).
      { apply mul_nonneg; [apply of_Z_nonneg; lia|now apply positive_nonneg| |].
        - intros [_ Z0]. exact (positive_not_zero _ Pc Z0).
        - intros [_ E]. rewrite E in Fc. discriminate Fc. }
      assert (X : to_float (PyInt (rent * 12)) = Ok (of_Z (rent * 12)))
        by (apply to_float_int; unfold max_int_input; lia).
      destruct (rent_loop_float ri (fun x y => nonneg x /\ nonneg y)
                  (fun x y => rent_step_nonneg ri x y Hri) years
                  (PyInt (rent * 12)) _ _ X
                  (conj (of_Z_nonneg (rent * 12) ltac:(lia)) Y))
        as (total' & x' & y' & L & T & [Nx _] & C).
      exists total', (PyFloat y'), x'. split; [exact L|]. split; [exact T|].
      destruct C as [[_ ->]| ->]; [|exact Nx].
      rewrite py_le_int. apply Z.leb_le. lia. }
  destruct G as (total & cur & x & L & T & P).
  destruct (rent_comparison_shown lt rent ri tp total cur x Hn L T) as (s & E & S).
  exists total, s. auto.
Qed.

(** X9, an instance: a rent of 20,000 rising by 5 percent a year, over 20 years. *)
Lemma rent_total_shown_witness :
  0 <= 20000 <= max_int_input /\
  finite_nonneg (dyadic 5 0) /\
  exists total savings,
    rent_comparison 20 20000 (dyadic 5 0) (PyFloat (of_Z 12000000)) =
      ([st_metric "Total Rent Paid" total;
        st_metric "Savings by Buying" savings], Next tt) /\
    py_le (PyInt 0) total = true.
Proof.
  assert (R : 0 <= 20000 <= max_int_input) by (unfold max_int_input; lia).
  assert (F : finite_nonneg (dyadic 5 0)).
  { split; [vm_compute; reflexivity|]. split; [vm_compute; reflexivity|].
    vm_compute. discriminate. }
  split; [exact R|]. split; [exact F|].
  destruct (rent_total_shown 20 20000 (dyadic 5 0) (of_Z 12000000) R F)
    as (total & savings & E & P & _).
  exists total, savings. split; assumption.
Defined.

Lemma positive_or_zero (x : f64) : nonneg x -> positive x \/ is_zero x.
Proof.
  intros H. apply nonneg_cases in H.
  destruct H as [->|[->|(k & -> & Hk)]].
  - left. reflexivity.
  - right. reflexivity.
  - destruct (Z.eq_dec k 0) as [->|N]; [right; reflexivity|].
    left. apply positive_cases. right. exists k. split; [reflexivity|lia].
Qed.

Lemma fle_zero_nonneg (z y : f64) : is_zero z -> nonneg y -> fle z y.
Proof.
  intros Z0 N. apply is_zero_cases in Z0.
  destruct Z0 as [->| ->]; [apply fle_NZero_l|]; exact N.
Qed.

Lemma mul_zero_l (x r : f64) :
  is_zero x -> is_finite r = true -> is_zero (mul x r).
Proof.
  intros Z0 Fr. pose proof one_units_pos. apply is_zero_cases in Z0.
  destruct r as [| | | |k]; try discriminate Fr;
    destruct Z0 as [->| ->]; cbn [mul units signbit Z.abs Z.mul]; unfold round;
    rewrite ?Z.mul_0_l, round_mag_0 by lia; destruct (xorb _ _); reflexivity.
Qed.

Lemma mul_mono_nonneg (y1 y2 r : f64) :
  nonneg y1 -> fle y1 y2 -> positive r -> is_finite r = true ->
  fle (mul y1 r) (mul y2 r).
Proof.
  intros N1 H Pr Fr.
  assert (N2 : nonneg y2) by exact (fle_trans _ _ _ N1 H).
  assert (M2 : nonneg (mul y2 r)).
  { apply mul_nonneg; [exact N2|now apply positive_nonneg| |].
    - intros [_ Z0]. exact (positive_not_zero _ Pr Z0).
    - intros [_ E]. rewrite E in Fr. discriminate Fr. }
  destruct (positive_or_zero y1 N1) as [P1|Z1].
  - apply mul_mono; auto.
    + exact (positive_fle _ _ P1 H).
    + now apply positive_nonneg.
    + intros Z0. destruct (positive_not_zero _ Pr Z0).
  - apply fle_zero_nonneg; [|exact M2]. now apply mul_zero_l.
Qed.

Lemma py_le_floats (x y : f64) : py_le (PyFloat x) (PyFloat y) = F64.leb x y.
Proof. reflexivity. Qed.

(** One year of the rent loop on two pairs of doubles in order. *)
Lemma rent_step_mono (ri x1 y1 x2 y2 : f64) :
  finite_nonneg ri ->
  nonneg x1 -> nonneg y1 -> fle x1 x2 -> fle y1 y2 ->
  fle (add x1 (mul y1 (of_Z 12))) (add x2 (mul y2 (of_Z 12))) /\
  fle (mul y1 (rent_factor ri)) (mul y2 (rent_factor ri)).
Proof.
  intros Hri Nx1 Ny1 Hx Hy.
  assert (Nx2 : nonneg x2) by exact (fle_trans _ _ _ Nx1 Hx).
  assert (Ny2 : nonneg y2) by exact (fle_trans _ _ _ Ny1 Hy).
  destruct (rent_factor_class ri Hri) as (Pc & Fc & _).
  destruct of_Z_12_class as [P12 F12].
  destruct (rent_step_nonneg ri x1 y1 Hri (conj Nx1 Ny1)) as [A1 _].
  destruct (rent_step_nonneg ri x2 y2 Hri (conj Nx2 Ny2)) as [A2 _].
  split.
  - apply add_mono; [exact Hx|now apply mul_mono_nonneg| |];
      now apply nonneg_not_nan.
  - now apply mul_mono_nonneg.
Qed.

Lemma rent_loop_mono (ri : f64) :
  finite_nonneg ri ->
  forall (years : nat) (t1 t2 : pynum) (x1 x2 y1 y2 : f64),
    to_float t1 = Ok x1 -> to_float t2 = Ok x2 ->
    nonneg x1 -> nonneg y1 -> fle x1 x2 -> fle y1 y2 ->
    py_le t1 t2 = true ->
    exists t1' t2' c1 c2 x1' x2',
      rent_loop (PyFloat ri) years (t1, PyFloat y1) = Ok (t1', c1) /\
      rent_loop (PyFloat ri) years (t2, PyFloat y2) = Ok (t2', c2) /\
      to_float t1' = Ok x1' /\ to_float t2' = Ok x2' /\
      nonneg x1' /\ fle x1' x2' /\ py_le t1' t2' = true.
Proof.
  intros Hri. induction years as [|years IH];
    intros t1 t2 x1 x2 y1 y2 T1 T2 Nx Ny Hx Hy Hle.
  - exists t1, t2, (PyFloat y1), (PyFloat y2), x1, x2. cbn [rent_loop].
    repeat split; assumption.
  - cbn [rent_loop].
    rewrite (rent_year_float ri t1 x1 y1 T1), (rent_year_float ri t2 x2 y2 T2).
    rewrite !res_bind_ret.
    destruct (rent_step_mono ri x1 y1 x2 y2 Hri Nx Ny Hx Hy) as [Sx Sy].
    destruct (rent_step_nonneg ri x1 y1 Hri (conj Nx Ny)) as [Nx' Ny'].
    apply (IH (PyFloat (add x1 (mul y1 (of_Z 12))))
              (PyFloat (add x2 (mul y2 (of_Z 12)))) _ _ _ _
              eq_refl eq_refl Nx' Ny' Sx Sy).
    rewrite py_le_floats. exact Sx.
Qed.

Lemma sub_finite_not_nan (x tp : f64) :
  nonneg x -> is_finite tp = true -> sub x tp <> NaN.
Proof.
  intros Nx Ft. unfold sub.
  assert (Fo : is_finite (opp tp) = true) by now rewrite opp_finite.
  apply add_not_nan.
  - now apply nonneg_not_nan.
  - intros E. rewrite E in Fo. discriminate Fo.
  - intros [_ E]. rewrite E in Fo. discriminate Fo.
  - intros [E _]. rewrite E in Nx. discriminate Nx.
Qed.

(** X10: a higher rent never lowers what the comparison shows: for two
    rents in the range of the widget, the same valid rent increase and a
    finite total of the repayments, the block shows its two metrics in both
    runs, and neither the total rent nor the savings is lower for the
    higher rent. *)
Theorem rent_total_monotone (lt rent1 rent2 : Z) (ri tp : f64) :
  0 <= rent1 -> rent1 <= rent2 -> rent2 <= max_int_input ->
  finite_nonneg ri -> is_finite tp = true ->
  exists total1 savings1 total2 savings2,
    rent_comparison lt rent1 ri (PyFloat tp) =
      ([st_metric "Total Rent Paid" total1;
        st_metric "Savings by Buying" savings1], Next tt) /\
    rent_comparison lt rent2 ri (PyFloat tp) =
      ([st_metric "Total Rent Paid" total2;
        st_metric "Savings by Buying" savings2], Next tt) /\
    py_le total1 total2 = true /\ py_le savings1 savings2 = true.
Proof.
  intros H1 H12 H2 Hri Ft. unfold max_int_input in H2.
  assert (Hn : nonneg ri) by apply Hri.
  assert (G : exists t1 t2 c1 c2 x1 x2,
             rent_loop (PyFloat ri) (Z.to_nat lt) (PyInt 0, PyInt rent1) =
               Ok (t1, c1) /\
             rent_loop (PyFloat ri) (Z.to_nat lt) (PyInt 0, PyInt rent2) =
               Ok (t2, c2) /\
             to_float t1 = Ok x1 /\ to_float t2 = Ok x2 /\
             nonneg x1 /\ fle x1 x2 /\ py_le t1 t2 = true).
  { destruct (Z.to_nat lt) as [|years].
    - exists (PyInt 0), (PyInt 0), (PyInt rent1), (PyInt rent2), (of_Z 0), (of_Z 0).
      cbn [rent_loop]. repeat split; reflexivity.
    - cbn [rent_loop].
      rewrite !rent_year_first by (unfold max_int_input; lia).
      rewrite !res_bind_ret.
      destruct (rent_factor_class ri Hri) as (Pc & Fc & _).
      apply (rent_loop_mono ri Hri years (PyInt (rent1 * 12)) (PyInt (rent2 * 12))
               (of_Z (rent1 * 12)) (of_Z (rent2 * 12))).
      + apply to_float_int; unfold max_int_input; lia.
      + apply to_float_int; unfold max_int_input; lia.
      + apply of_Z_nonneg; lia.
      + apply mul_nonneg; [apply of_Z_nonneg; lia|now apply positive_nonneg| |].
        * intros [_ Z0]. exact (positive_not_zero _ Pc Z0).
        * intros [_ E]. rewrite E in Fc. discriminate Fc.
      + apply of_Z_mono; lia.
      + apply mul_mono_nonneg; [apply of_Z_nonneg; lia|apply of_Z_mono; lia| |];
          assumption.
      + rewrite py_le_int. apply Z.leb_le. lia. }
  destruct G as (t1 & t2 & c1 & c2 & x1 & x2 & L1 & L2 & T1 & T2 & Nx & Hx & Hle).
  destruct (rent_comparison_shown lt rent1 ri tp t1 c1 x1 Hn L1 T1)
    as (s1 & E1 & S1).
  destruct (rent_comparison_shown lt rent2 ri tp t2 c2 x2 Hn L2 T2)
    as (s2 & E2 & S2).
  exists t1, s1, t2, s2. split; [exact E1|]. split; [exact E2|].
  split; [exact Hle|].
  rewrite (py_sub_to_float t1 x1 tp T1) in S1.
  rewrite (py_sub_to_float t2 x2 tp T2) in S2.
  inversion S1; inversion S2; subst s1 s2. rewrite py_le_floats.
  assert (Nt : tp <> NaN) by (intros E; rewrite E in Ft; discriminate Ft).
  apply sub_mono.
  - exact Hx.
  - now apply fle_refl.
  - now apply sub_finite_not_nan.
  - apply sub_finite_not_nan; [exact (fle_trans _ _ _ Nx Hx)|exact Ft].
Qed.

(** X10, an instance: rents of 20,000 and 25,000 rising by 5 percent a year, over 20 years. *)
Lemma rent_total_monotone_witness :
  0 <= 20000 /\ 20000 <= 25000 /\ 25000 <= max_int_input /\
  finite_nonneg (dyadic 5 0) /\ is_finite (of_Z 12000000) = true /\
  exists total1 savings1 total2 savings2,
    rent_comparison 20 20000 (dyadic 5 0) (PyFloat (of_Z 12000000)) =
      ([st_metric "Total Rent Paid" total1;
        st_metric "Savings by Buying" savings1], Next tt) /\
    rent_comparison 20 25000 (dyadic 5 0) (PyFloat (of_Z 12000000)) =
      ([st_metric "Total Rent Paid" total2;
        st_metric "Savings by Buying" savings2], Next tt) /\
    py_le total1 total2 = true /\ py_le savings1 savings2 = true.
Proof.
  assert (R1 : 0 <= 20000) by lia.
  assert (R12 : 20000 <= 25000) by lia.
  assert (R2 : 25000 <= max_int_input) by (unfold max_int_input; lia).
  assert (F : finite_nonneg (dyadic 5 0)).
  { split; [vm_compute; reflexivity|]. split; [vm_compute; reflexivity|].
    vm_compute. discriminate. }
  assert (Ft : is_finite (of_Z 12000000) = true) by (vm_compute; reflexivity).
  split; [exact R1|]. split; [exact R12|]. split; [exact R2|].
  split; [exact F|]. split; [exact Ft|].
  exact (rent_total_monotone 20 20000 25000 (dyadic 5 0) (of_Z 12000000)
           R1 R12 R2 F Ft).
Defined.

Lemma int_units_le_max (z : Z) : 0 <= z <= 2 ^ 53 -> z * one_units <= max_units.
Proof.
  intros Hz. pose proof one_units_pos.
  assert (2 ^ 53 * one_units <= max_units) by (apply Z.leb_le; vm_compute; reflexivity).
  nia.
Qed.

(** The integers of at most 53 bits are doubles. *)
Lemma round_int (z : Z) :
  0 <= z <= 2 ^ 53 -> round false (z * one_units) 1 = Fin (z * one_units).
Proof.
  intros Hz. pose proof (int_units_le_max z Hz).
  rewrite round_false_fin; rewrite round_mag_int by exact Hz; [reflexivity|assumption].
Qed.

Lemma of_Z_int (z : Z) : 0 <= z <= 2 ^ 53 -> of_Z z = Fin (z * one_units).
Proof.
  intros Hz. unfold of_Z. replace (z <? 0) with false by lia.
  rewrite Z.abs_eq by lia. now apply round_int.
Qed.

Lemma add_int (a b : Z) :
  0 <= a -> 0 <= b -> a + b <= 2 ^ 53 ->
  add (Fin (a * one_units)) (Fin (b * one_units)) = Fin ((a + b) * one_units).
Proof.
  intros Ha Hb Hs. pose proof one_units_pos. cbn [add units].
  replace (a * one_units + b * one_units) with ((a + b) * one_units) by ring.
  replace ((a + b) * one_units <? 0) with false by nia.
  rewrite Z.abs_eq by nia. apply round_int. lia.
Qed.

Lemma mul_int (a b : Z) :
  0 <= a -> 0 <= b -> a * b <= 2 ^ 53 ->
  mul (Fin (a * one_units)) (Fin (b * one_units)) = Fin (a * b * one_units).
Proof.
  intros Ha Hb Hs. pose proof one_units_pos as U. cbn [mul units signbit].
  replace (a * one_units <? 0) with false by nia.
  replace (b * one_units <? 0) with false by nia. cbn [xorb].
  rewrite !Z.abs_eq by nia.
  assert (B : 0 <= a * b <= 2 ^ 53) by nia.
  pose proof (int_units_le_max _ B).
  replace (a * one_units * (b * one_units))
    with (one_units * (a * b * one_units)) by ring.
  rewrite <- (Z.mul_1_r one_units) at 3.
  rewrite round_false_fin; rewrite round_mag_scale by lia;
    rewrite round_mag_int by exact B; [reflexivity|assumption].
Qed.

Lemma mul_one_r (a : Z) :
  0 <= a <= 2 ^ 53 ->
  mul (Fin (a * one_units)) (Fin one_units) = Fin (a * one_units).
Proof.
  intros Ha. pose proof (mul_int a 1 ltac:(lia) ltac:(lia) ltac:(lia)) as M.
  rewrite Z.mul_1_l, Z.mul_1_r in M. exact M.
Qed.

(** Without a rent increase the yearly factor is 1. *)
Lemma rent_factor_zero (ri : f64) : is_zero ri -> rent_factor ri = Fin one_units.
Proof.
  intros Z0. apply is_zero_cases in Z0.
  destruct Z0 as [->| ->]; vm_compute; reflexivity.
Qed.

Lemma py_eq_int_float (n : Z) : py_eq (PyFloat (Fin (n * one_units))) (PyInt n) = true.
Proof.
  unfold py_eq, py_compare. cbn [exact F64.compare units].
  now rewrite Z.compare_refl.
Qed.

Lemma py_eq_int (n : Z) : py_eq (PyInt n) (PyInt n) = true.
Proof. unfold py_eq, py_compare. now rewrite Z.compare_refl. Qed.

Lemma py_eq_int_inv (a b : Z) : py_eq (PyInt a) (PyInt b) = true -> a = b.
Proof.
  unfold py_eq, py_compare. destruct (Z.compare_spec a b); auto; discriminate.
Qed.

(** The rent loop without a rent increase, from year [k] on: the total stays
    the exact product while it has at most 53 bits. *)
Lemma rent_loop_exact (ri : f64) (rent : Z) :
  is_zero ri -> 0 <= rent <= 2 ^ 53 ->
  forall (years : nat) (k : Z) (total : pynum),
    0 <= k -> 12 * rent * (k + Z.of_nat years) <= 2 ^ 53 ->
    to_float total = Ok (Fin (12 * rent * k * one_units)) ->
    py_eq total (PyInt (12 * rent * k)) = true ->
    exists total',
      rent_loop (PyFloat ri) years (total, PyFloat (Fin (rent * one_units))) =
        Ok (total', PyFloat (Fin (rent * one_units))) /\
      py_eq total' (PyInt (12 * rent * (k + Z.of_nat years))) = true.
Proof.
  intros Z0 Hr. induction years as [|years IH]; intros k total Hk Hb T E.
  - exists total. cbn [rent_loop]. split; [reflexivity|].
    now rewrite Z.add_0_r.
  - cbn [rent_loop].
    rewrite (rent_year_float ri total (Fin (12 * rent * k * one_units))
               (Fin (rent * one_units)) T), res_bind_ret.
    rewrite (rent_factor_zero ri Z0), of_Z_12.
    rewrite (mul_int rent 12) by nia.
    rewrite (mul_one_r rent) by lia.
    rewrite (add_int (12 * rent * k) (rent * 12)) by nia.
    replace (12 * rent * k + rent * 12) with (12 * rent * (k + 1)) by ring.
    destruct (IH (k + 1) (PyFloat (Fin (12 * rent * (k + 1) * one_units))))
      as (total' & L & E'); [lia|nia|reflexivity|apply py_eq_int_float|].
    exists total'. split; [exact L|].
    replace (k + Z.of_nat (S years)) with (k + 1 + Z.of_nat years) by lia.
    exact E'.
Qed.

(** X11: without a yearly increase the total rent shown is exactly twelve times
    the rent times the number of years, as long as that product has at most
    53 bits. *)
Theorem rent_total_exact (lt rent : Z) (ri tp : f64) :
  0 <= rent <= max_int_input -> 0 <= lt -> is_zero ri ->
  12 * rent * lt <= 2 ^ 53 ->
  exists total savings,
    rent_comparison lt rent ri (PyFloat tp) =
      ([st_metric "Total Rent Paid" total;
        st_metric "Savings by Buying" savings], Next tt) /\
    py_eq total (PyInt (12 * rent * lt)) = true.
Proof.
  intros Hr Hlt Z0 Hb. unfold max_int_input in Hr.
  assert (Hn : nonneg ri) by now apply is_zero_nonneg.
  assert (G : exists total cur x,
             rent_loop (PyFloat ri) (Z.to_nat lt) (PyInt 0, PyInt rent) =
               Ok (total, cur) /\
             to_float total = Ok x /\
             py_eq total (PyInt (12 * rent * lt)) = true).
  { assert (Ey : 12 * rent * lt = 12 * rent * Z.of_nat (Z.to_nat lt))
      by (rewrite Z2Nat.id by lia; reflexivity).
    rewrite Ey in Hb |- *.
    destruct (Z.to_nat lt) as [|years].
    - exists (PyInt 0), (PyInt rent), (of_Z 0). cbn [rent_loop].
      split; [reflexivity|]. split; [reflexivity|].
      rewrite Z.mul_0_r. apply py_eq_int.
    - cbn [rent_loop]. rewrite rent_year_first by (unfold max_int_input; lia).
      rewrite res_bind_ret, (rent_factor_zero ri Z0).
      rewrite (of_Z_int rent) by lia.
      rewrite (mul_one_r rent) by lia.
      assert (T : to_float (PyInt (rent * 12)) =
                  Ok (Fin (12 * rent * 1 * one_units))).
      { rewrite to_float_int by (unfold max_int_input; lia).
        rewrite of_Z_int by lia. do 2 f_equal. ring. }
      destruct (rent_loop_exact ri rent Z0 ltac:(lia) years 1
                  (PyInt (rent * 12)) ltac:(lia) ltac:(lia) T)
        as (total' & L & E).
      { replace (12 * rent * 1) with (rent * 12) by ring. apply py_eq_int. }
      assert (F : exists x, to_float total' = Ok x).
      { destruct total' as [n|x]; [|exists x; reflexivity]. apply py_eq_int_inv in E.
        exists (of_Z n). apply to_float_int. unfold max_int_input. nia. }
      destruct F as (x & F).
      exists total', (PyFloat (Fin (rent * one_units))), x.
      split; [exact L|]. split; [exact F|].
      replace (Z.of_nat (S years)) with (1 + Z.of_nat years) by lia. exact E. }
  destruct G as (total & cur & x & L & T & E).
  destruct (rent_comparison_shown lt rent ri tp total cur x Hn L T) as (s & Sh & _).
  exists total, s. split; [exact Sh|exact E].
Qed.

(** X11, an instance: a rent of 20,000 without increase, over 20 years: 4,800,000. *)
Lemma rent_total_exact_witness :
  0 <= 20000 <= max_int_input /\ 0 <= 20 /\ is_zero (Fin 0) /\
  12 * 20000 * 20 <= 2 ^ 53 /\
  exists total savings,
    rent_comparison 20 20000 (Fin 0) (PyFloat (of_Z 12000000)) =
      ([st_metric "Total Rent Paid" total;
        st_metric "Savings by Buying" savings], Next tt) /\
    py_eq total (PyInt 4800000) = true.
Proof.
  assert (R : 0 <= 20000 <= max_int_input) by (unfold max_int_input; lia).
  assert (L : 0 <= 20) by lia.
  assert (Z0 : is_zero (Fin 0)) by reflexivity.
  assert (B : 12 * 20000 * 20 <= 2 ^ 53) by lia.
  split; [exact R|]. split; [exact L|]. split; [exact Z0|]. split; [exact B|].
  exact (rent_total_exact 20 20000 (Fin 0) (of_Z 12000000) R L Z0 B).
Defined.
